(** * Records and tuples by structural interning

    A shallow embedding of [cutting_room/record-tuple/record.js]: the
    [Record] constructor, [Record.fromEntries] and the creator of fresh
    records, over an explicit model of the host heap.  Objects live in a
    store indexed by address, every operation threads the store, and a
    thrown exception is a value of the error monad.

    [record.js] imports [InternGraph] and [assertFeatures] from
    [./interngraph] and [isObject], [objectFromEntries], [validateProperty],
    [isRecord], [markRecord], [define] from [./utils]; [Tuple] lives in
    [./tuple.js].  None of these files is among the sources, so their
    definitions below follow the design document and say so. *)

From stdpp Require Import base option list sorting strings gmap pretty.
From Stdlib Require Import ZArith NArith Ascii String OrderedTypeEx Lia.

Open Scope string_scope.
Open Scope list_scope.
Open Scope nat_scope.

(** ** Values of the host language *)

(** The values the model covers: the primitives the design names,
    callables with their source text, and references to heap objects.
    [VNumber n] is the Number whose value is the integer [n]; an integer
    that is no Number value (one that needs more than 53 significant bits)
    stands for nothing, and no operation below makes one.  Strings are
    sequences of code units below 256, compared unit by unit as the host's
    [<] does.  Symbols are left out: the design leaves their
    classification open. *)
Inductive value : Type :=
  | VUndefined
  | VNull
  | VBoolean (b : bool)
  | VNumber (n : Z)
  | VString (s : string)
  | VFunction (source : string)
  | VObject (a : nat).

#[global] Instance value_eq_dec : EqDecision value.
Proof. solve_decision. Defined.

(** An entry is the two-element array [[name, value]]. *)
Definition entry : Type := string * value.

Inductive kind : Type := KRecord | KTuple.

#[global] Instance kind_eq_dec : EqDecision kind.
Proof. solve_decision. Defined.

(** A heap object: its own enumerable string-keyed properties in creation
    order, whether [Object.freeze] was applied, and the provenance tag that
    [markRecord] attaches. *)
Record object : Type := Object {
  fields : list entry;
  frozen : bool;
  provenance : option kind
}.

#[global] Instance object_eq_dec : EqDecision object.
Proof. solve_decision. Defined.

(** ** The interning trie *)

(** A node holds an optional terminal composite (by address, held weakly:
    liveness is read off the heap) and children keyed by the edge
    [(key, value)]. *)
#[warnings="-register-all"]
Inductive InternNode : Type :=
  | Node (terminal : option nat) (children : list (entry * InternNode)).

Definition terminal (n : InternNode) : option nat :=
  match n with Node t _ => t end.

Definition children (n : InternNode) : list (entry * InternNode) :=
  match n with Node _ c => c end.

Definition empty_node : InternNode := Node None [].

(** Edge lookup: primitive values compare by value, references by address. *)
Fixpoint child_lookup (e : entry) (cs : list (entry * InternNode)) : option InternNode :=
  match cs with
  | [] => None
  | (e', n) :: cs' => if decide (e = e') then Some n else child_lookup e cs'
  end.

Fixpoint child_insert (e : entry) (n : InternNode) (cs : list (entry * InternNode))
  : list (entry * InternNode) :=
  match cs with
  | [] => [(e, n)]
  | (e', n') :: cs' =>
      if decide (e = e') then (e, n) :: cs' else (e', n') :: child_insert e n cs'
  end.

Definition child_or_new (e : entry) (n : InternNode) : InternNode :=
  match child_lookup e (children n) with
  | Some c => c
  | None => empty_node
  end.

(** Follow the edges of [path]; the terminal slot of the node reached. *)
Fixpoint node_get (path : list entry) (n : InternNode) : option nat :=
  match path with
  | [] => terminal n
  | e :: path' =>
      match child_lookup e (children n) with
      | Some c => node_get path' c
      | None => None
      end
  end.

(** Descend along [path], creating every missing child. *)
Fixpoint node_touch (path : list entry) (n : InternNode) : InternNode :=
  match path with
  | [] => n
  | e :: path' =>
      Node (terminal n)
           (child_insert e (node_touch path' (child_or_new e n)) (children n))
  end.

(** Store [a] in the terminal slot at the end of [path]. *)
Fixpoint node_put (path : list entry) (a : nat) (n : InternNode) : InternNode :=
  match path with
  | [] => Node (Some a) (children n)
  | e :: path' =>
      Node (terminal n)
           (child_insert e (node_put path' a (child_or_new e n)) (children n))
  end.

(** ** Program state and the error monad *)

Inductive location : Type :=
  | AtKey (key : string)
  | AtIndex (index : nat).

Inductive exn : Type :=
  | Error (message : string)
  | TypeError (message : string)
  | CapabilityMissing (feature : string)
  | InvalidEntry (place : option location) (v : value).

#[global] Instance location_eq_dec : EqDecision location.
Proof. solve_decision. Defined.

#[global] Instance exn_eq_dec : EqDecision exn.
Proof. solve_decision. Defined.

(** The host: what the capability guard looks for, and what a function
    does when the engine calls it with no arguments on a receiver, as it
    calls [toString] and [valueOf] to convert an object.  A function is
    known by its source text only, so its behaviour is the host's; the
    model covers functions whose result their text and their receiver
    determine, and which return or throw without writing to the heap. *)
Record Host : Type := Build_Host {
  weak_references : bool;
  freezing : bool;
  identity_comparison : bool;
  invoke : string → value → exn + value
}.

(** A host with the given capabilities, in which a function called as
    a conversion method returns [undefined]. *)
Definition MkHost (weak_references freezing identity_comparison : bool) : Host :=
  Build_Host weak_references freezing identity_comparison (λ _ _, inr VUndefined).

Record state : Type := State {
  heap : gmap nat object;
  next_addr : nat;
  RECORD_GRAPH : InternNode;
  TUPLE_GRAPH : InternNode;
  host : Host
}.

Definition M (A : Type) : Type := state → (exn + A) * state.

Definition ret {A} (x : A) : M A := λ st, (inr x, st).

Definition throw {A} (e : exn) : M A := λ st, (inl e, st).

Definition bind {A B} (m : M A) (k : A → M B) : M B :=
  λ st, match m st with
        | (inl e, st') => (inl e, st')
        | (inr x, st') => k x st'
        end.

Notation "'let*' x ':=' m 'in' k" := (bind m (λ x, k))
  (at level 10, x pattern, m at level 100, k at level 200).

Notation "m ';;' k" := (bind m (λ _, k))
  (at level 100, k at level 200, right associativity).

(** [for (const x of xs) body(x)] *)
Fixpoint for_each {A} (body : A → M unit) (xs : list A) : M unit :=
  match xs with
  | [] => ret tt
  | x :: xs' => body x ;; for_each body xs'
  end.

(** [xs.map(f)] where [f] may throw. *)
Fixpoint map_M {A B} (f : A → M B) (xs : list A) : M (list B) :=
  match xs with
  | [] => ret []
  | x :: xs' => let* y := f x in let* ys := map_M f xs' in ret (y :: ys)
  end.

Definition get_heap : M (gmap nat object) := λ st, (inr (heap st), st).

(** A computation that reads the state and returns or throws. *)
Definition reading {A} (f : state → exn + A) : M A := λ st, (f st, st).

Definition set_heap (h : gmap nat object) (st : state) : state :=
  State h (next_addr st) (RECORD_GRAPH st) (TUPLE_GRAPH st) (host st).

Definition graph_of (k : kind) (st : state) : InternNode :=
  match k with KRecord => RECORD_GRAPH st | KTuple => TUPLE_GRAPH st end.

Definition set_graph (k : kind) (g : InternNode) (st : state) : state :=
  match k with
  | KRecord => State (heap st) (next_addr st) g (TUPLE_GRAPH st) (host st)
  | KTuple => State (heap st) (next_addr st) (RECORD_GRAPH st) g (host st)
  end.

Definition live (a : nat) (st : state) : bool := bool_decide (is_Some (heap st !! a)).

(** ** Host primitives on objects *)

Fixpoint field_lookup (name : string) (fs : list entry) : option value :=
  match fs with
  | [] => None
  | (k, v) :: fs' => if decide (name = k) then Some v else field_lookup name fs'
  end.

(** [o[name] = v] on the property list: an existing property keeps its
    place, a new one is created last. *)
Fixpoint field_set (name : string) (v : value) (fs : list entry) : list entry :=
  match fs with
  | [] => [(name, v)]
  | (k, w) :: fs' =>
      if decide (name = k) then (k, v) :: fs' else (k, w) :: field_set name v fs'
  end.

Definition field_delete (name : string) (fs : list entry) : list entry :=
  filter (λ kv, kv.1 ≠ name) fs.

(** [Object.create(proto)] / an empty object literal: a fresh address. *)
Definition Object_create : M nat :=
  λ st, (inr (next_addr st),
         State (<[next_addr st := Object [] false None]> (heap st))
               (S (next_addr st)) (RECORD_GRAPH st) (TUPLE_GRAPH st) (host st)).

(** [o[name] = v].  A frozen target does not take the assignment: strict
    code (a module, such as [record.js]) gets a [TypeError], sloppy code
    gets no error and no effect.  Properties of the prototypes are taken to
    be writable, so a key they share becomes an ordinary own property. *)
Definition set_property (strict : bool) (a : nat) (name : string) (v : value) : M unit :=
  λ st, match heap st !! a with
        | Some o =>
            if frozen o
            then (if strict
                  then (inl (TypeError "Cannot assign to read only property"), st)
                  else (inr tt, st))
            else (inr tt, set_heap (<[a := Object (field_set name v (fields o))
                                                  false (provenance o)]> (heap st)) st)
        | None => (inl (TypeError "Cannot set properties of undefined"), st)
        end.

(** [delete o[name]]: on a frozen target an existing property is not
    deleted, with a [TypeError] in strict code. *)
Definition delete_property (strict : bool) (a : nat) (name : string) : M unit :=
  λ st, match heap st !! a with
        | Some o =>
            if frozen o
            then match field_lookup name (fields o) with
                 | Some _ =>
                     if strict then (inl (TypeError "Cannot delete property"), st)
                     else (inr tt, st)
                 | None => (inr tt, st)
                 end
            else (inr tt, set_heap (<[a := Object (field_delete name (fields o))
                                                  false (provenance o)]> (heap st)) st)
        | None => (inl (TypeError "Cannot convert undefined to object"), st)
        end.

Definition Object_freeze (a : nat) : M unit :=
  λ st, match heap st !! a with
        | Some o => (inr tt, set_heap (<[a := Object (fields o) true (provenance o)]>
                                        (heap st)) st)
        | None => (inr tt, st)
        end.

(** ** Property enumeration *)

Definition digit (c : ascii) : option N :=
  let n := N_of_ascii c in
  if ((48 <=? n) && (n <=? 57))%N then Some (n - 48)%N else None.

Fixpoint digits_value (s : string) (acc : N) : option N :=
  match s with
  | EmptyString => Some acc
  | String c s' =>
      match digit c with
      | Some d => digits_value s' (10 * acc + d)%N
      | None => None
      end
  end.

(** The array indices: canonical decimal strings below [2^32 - 1]. *)
Definition array_index (s : string) : option N :=
  match s with
  | EmptyString => None
  | String c s' =>
      if decide (c = "0"%char)
      then (if decide (s' = EmptyString) then Some 0%N else None)
      else match digits_value s 0 with
           | Some n => if (n <? 4294967295)%N then Some n else None
           | None => None
           end
  end.

Definition is_index (e : entry) : bool := bool_decide (is_Some (array_index e.1)).

Definition compare_index (a b : entry) : Z :=
  (Z.of_N (default 0%N (array_index a.1)) - Z.of_N (default 0%N (array_index b.1)))%Z.

(** A stable sort under a comparator that cannot throw: the stable
    insertion of the elements.  It orders the array indices of an object,
    and it is what [Array.prototype.sort] below comes to when no
    comparison throws. *)
Fixpoint stable_insert {A} (comparefn : A → A → Z) (x : A) (l : list A) : list A :=
  match l with
  | [] => [x]
  | y :: l' =>
      if (comparefn x y <=? 0)%Z then x :: y :: l'
      else y :: stable_insert comparefn x l'
  end.

Fixpoint stable_sort {A} (comparefn : A → A → Z) (l : list A) : list A :=
  match l with
  | [] => []
  | x :: l' => stable_insert comparefn x (stable_sort comparefn l')
  end.

(** The host's own-property order: array indices ascending, then the other
    string keys in creation order. *)
Definition own_property_order (fs : list entry) : list entry :=
  stable_sort compare_index (filter (λ e, is_index e = true) fs)
  ++ filter (λ e, is_index e = false) fs.

(** Modelled from the spec: [isObject] of [./utils].  The constructor takes
    a map-like source; an object is a reference to a heap object, which
    leaves out the primitives and the callables. *)
Definition isObject (v : value) : bool :=
  match v with VObject _ => true | _ => false end.

(** [Object.entries(value)]; it is only reached with an object reference. *)
Definition Object_entries (v : value) : M (list entry) :=
  λ st, match v with
        | VObject a =>
            match heap st !! a with
            | Some o => (inr (own_property_order (fields o)), st)
            | None => (inr [], st)
            end
        | _ => (inr [], st)
        end.

(** ** Numbers as text *)

(** The decimal digits of [s] without trailing zeros. *)
Fixpoint strip_zeros (s : string) : string :=
  match s with
  | EmptyString => EmptyString
  | String c s' =>
      match strip_zeros s' with
      | EmptyString => if decide (c = "0"%char) then EmptyString else String c EmptyString
      | rest => String c rest
      end
  end.

(** Whether the real number [c] rounds to the Number [x], for [x] from
    [2^53] on: [x] is [m * 2^e] with [m] of 53 bits, the next Number is
    [2^e] away, the one before too unless [m] is [2^52], and a midpoint
    rounds to [x] when [m] is even.  All quantities are taken four times to
    stay in the integers. *)
Definition rounds_to (x c : Z) : bool :=
  let e := (Z.log2 x - 52)%Z in
  let m := (x / 2 ^ e)%Z in
  let above := (2 * 2 ^ e)%Z in
  let below := (if (m =? 2 ^ 52)%Z then 2 ^ e else 2 * 2 ^ e)%Z in
  if Z.even m
  then ((4 * x - below <=? 4 * c) && (4 * c <=? 4 * x + above))%Z
  else ((4 * x - below <? 4 * c) && (4 * c <? 4 * x + above))%Z.

(** The decimal with the fewest significant digits that rounds to [x],
    the closest to [x] among those: with [k] digits there are two
    candidates, [x] cut to [k] digits and the next one up. *)
Fixpoint shortest_from (x : Z) (n : nat) (k : nat) (fuel : nat) : Z :=
  match fuel with
  | 0 => x
  | S fuel' =>
      let p := (10 ^ Z.of_nat (n - k))%Z in
      let c_lo := (x / p * p)%Z in
      let c_hi := (c_lo + p)%Z in
      match rounds_to x c_lo, rounds_to x c_hi with
      | true, true =>
          if (x - c_lo <? c_hi - x)%Z then c_lo
          else if (c_hi - x <? x - c_lo)%Z then c_hi
          else if Z.even (c_lo / p) then c_lo else c_hi
      | true, false => c_lo
      | false, true => c_hi
      | false, false => shortest_from x n (S k) fuel'
      end
  end.

Definition shortest (x : Z) : Z :=
  if (x <? 2 ^ 53)%Z then x
  else shortest_from x (String.length (pretty x)) 1 17.

(** [Number::toString] of a positive integer-valued Number: the digits of
    the shortest decimal, in full below [10^21] and in exponent form from
    there on. *)
Definition unsigned_toString (x : Z) : string :=
  let c := shortest x in
  let digits := pretty c in
  if (c <? 10 ^ 21)%Z then digits
  else
    match strip_zeros digits with
    | EmptyString => digits
    | String d rest =>
        String d (match rest with EmptyString => EmptyString | _ => "." +:+ rest end)
        +:+ "e+" +:+ pretty (String.length digits - 1)
    end.

(** [Number::toString] *)
Definition Number_toString (n : Z) : string :=
  if (n <? 0)%Z then "-" +:+ unsigned_toString (- n) else unsigned_toString n.

(** ** Conversion to string *)

(** [Record.prototype.toString], record.js lines 81-83. *)
Definition Record_prototype_toString : string := "[record Record]".

(** Modelled from the spec: [Tuple.prototype.toString] of [./tuple.js],
    which is not among the sources.  The design describes a tuple as the
    positional counterpart of a record, so a tuple is taken to print after
    the pattern of [Record.prototype.toString]. *)
Definition Tuple_prototype_toString : string := "[tuple Tuple]".

(** [Object.prototype.toString] on an object without a string tag. *)
Definition Object_prototype_toString : string := "[object Object]".

(** What the [toString] an object inherits returns: that of
    [Record.prototype] for a record, of [Object.prototype] for a host
    object. *)
Definition object_string (h : gmap nat object) (a : nat) : string :=
  match h !! a with
  | Some o =>
      match provenance o with
      | Some KRecord => Record_prototype_toString
      | Some KTuple => Tuple_prototype_toString
      | None => Object_prototype_toString
      end
  | None => Object_prototype_toString
  end.

(** The text [Array.prototype.join] gives one element that converts by
    the methods it inherits: empty for [undefined] and [null], otherwise
    the element's [ToString]. *)
Definition element_string (h : gmap nat object) (v : value) : string :=
  match v with
  | VUndefined => EmptyString
  | VNull => EmptyString
  | VBoolean true => "true"
  | VBoolean false => "false"
  | VNumber n => Number_toString n
  | VString s => s
  | VFunction source => source
  | VObject a => object_string h a
  end.

(** [ToString] of what a conversion method returned: a primitive has a
    text; an object or a function is no primitive. *)
Definition primitive_string (v : value) : option string :=
  match v with
  | VUndefined => Some "undefined"
  | VNull => Some "null"
  | VBoolean true => Some "true"
  | VBoolean false => Some "false"
  | VNumber n => Some (Number_toString n)
  | VString s => Some s
  | VFunction _ | VObject _ => None
  end.

(** The own property [name] of the object at [a], if it has one. *)
Definition own_property (h : gmap nat object) (a : nat) (name : string) : option value :=
  match h !! a with
  | Some o => field_lookup name (fields o)
  | None => None
  end.

(** Calling [method] on the object at [a] as a conversion method: only a
    function can be called, and only a primitive result is taken; in every
    other case the conversion goes on with [otherwise]. *)
Definition call_method (hst : Host) (a : nat) (method : value)
    (otherwise : exn + string) : exn + string :=
  match method with
  | VFunction source =>
      match invoke hst source (VObject a) with
      | inl e => inl e
      | inr result =>
          match primitive_string result with
          | Some text => inr text
          | None => otherwise
          end
      end
  | _ => otherwise
  end.

(** [ToString] of the object at [a]: [OrdinaryToPrimitive] with the hint
    string tries [toString], then [valueOf], and throws a [TypeError] when
    neither gives a primitive.  An own property of that name hides the
    inherited method.  The inherited [toString] returns a string; the
    [valueOf] of [Object.prototype] returns the object itself, and
    [Record.prototype], which inherits from nothing, has none. *)
Definition OrdinaryToPrimitive (hst : Host) (h : gmap nat object) (a : nat) : exn + string :=
  let failure := inl (TypeError "Cannot convert object to primitive value") in
  let by_valueOf :=
    match own_property h a "valueOf" with
    | Some method => call_method hst a method failure
    | None => failure
    end in
  match own_property h a "toString" with
  | Some method => call_method hst a method by_valueOf
  | None => inr (object_string h a)
  end.

(** The text [Array.prototype.join] gives one element. *)
Definition join_element (hst : Host) (h : gmap nat object) (v : value) : exn + string :=
  match v with
  | VObject a => OrdinaryToPrimitive hst h a
  | _ => inr (element_string h v)
  end.

(** [ToPrimitive] of the array [[name, value]]: its elements joined by a
    comma. *)
Definition Array_toString (hst : Host) (h : gmap nat object) (e : entry) : exn + string :=
  match join_element hst h e.2 with
  | inl x => inl x
  | inr text => inr (e.1 +:+ "," +:+ text)
  end.

(** ** The sort and its comparator *)

(** [a < b] on two entries: both operands are arrays, so both are
    converted, the left one first, and the texts are compared. *)
Definition less_than (hst : Host) (h : gmap nat object) (a b : entry) : exn + bool :=
  match Array_toString hst h a with
  | inl x => inl x
  | inr ta =>
      match Array_toString hst h b with
      | inl x => inl x
      | inr tb => inr (String.ltb ta tb)
      end
  end.

(** [a > b]: the same conversions in the same order, the comparison the
    other way round. *)
Definition greater_than (hst : Host) (h : gmap nat object) (a b : entry) : exn + bool :=
  match Array_toString hst h a with
  | inl x => inl x
  | inr ta =>
      match Array_toString hst h b with
      | inl x => inl x
      | inr tb => inr (String.ltb tb ta)
      end
  end.

(** [function(a, b) { if (a < b) return -1; else if (a > b) return 1;
    return 0; }], record.js lines 49-53. *)
Definition compare_entries (hst : Host) (h : gmap nat object) (a b : entry) : exn + Z :=
  match less_than hst h a b with
  | inl x => inl x
  | inr true => inr (-1)%Z
  | inr false =>
      match greater_than hst h a b with
      | inl x => inl x
      | inr true => inr 1%Z
      | inr false => inr 0%Z
      end
  end.

(** [Array.prototype.sort(comparefn)]: the sort is stable, and what the
    comparator throws, the sort throws.  Which pairs are compared is the
    engine's choice; the model compares as a stable insertion does.  An
    array of fewer than two elements is not compared at all, and in a
    longer one every element is compared at least once. *)
Fixpoint sort_insert {A} (comparefn : A → A → exn + Z) (x : A) (l : list A)
  : exn + list A :=
  match l with
  | [] => inr [x]
  | y :: l' =>
      match comparefn x y with
      | inl e => inl e
      | inr c =>
          if (c <=? 0)%Z then inr (x :: y :: l')
          else match sort_insert comparefn x l' with
               | inl e => inl e
               | inr sorted => inr (y :: sorted)
               end
      end
  end.

Fixpoint Array_sort {A} (comparefn : A → A → exn + Z) (l : list A) : exn + list A :=
  match l with
  | [] => inr []
  | x :: l' =>
      match Array_sort comparefn l' with
      | inl e => inl e
      | inr sorted => sort_insert comparefn x sorted
      end
  end.

(** ** Classification and validation *)

Inductive classification : Type := Primitive | Composite | Invalid.

(** Modelled from the spec: the value classifier behind [validateProperty]
    ([./utils] is not among the sources).  Strings, numbers, booleans and
    the absent markers are primitive; an object carrying the engine's
    provenance tag is a composite; anything else (callables, objects the
    engine did not produce) is invalid. *)
Definition classify (h : gmap nat object) (v : value) : classification :=
  match v with
  | VUndefined | VNull | VBoolean _ | VNumber _ | VString _ => Primitive
  | VFunction _ => Invalid
  | VObject a =>
      match h !! a with
      | Some o => match provenance o with Some _ => Composite | None => Invalid end
      | None => Invalid
      end
  end.

(** Modelled from the spec: [validateProperty] of [./utils].  Both callers
    in [record.js] hand it the value alone and use what it returns, so the
    [InvalidEntry] it throws carries the offending value and no location. *)
Definition validateProperty (v : value) : M value :=
  λ st, match classify (heap st) v with
        | Invalid => (inl (InvalidEntry None v), st)
        | _ => (inr v, st)
        end.

(** Modelled from the spec: [isRecord] of [./utils], the provenance check. *)
Definition isRecord (h : gmap nat object) (v : value) : bool :=
  match v with
  | VObject a =>
      match h !! a with
      | Some o => bool_decide (provenance o = Some KRecord)
      | None => false
      end
  | _ => false
  end.

(** Modelled from the spec: the tagging behind [markRecord] of [./utils]
    attaches the provenance tag; it runs after [Object.freeze], so the tag
    is kept beside the object and not among its properties. *)
Definition mark (k : kind) (a : nat) : M unit :=
  λ st, match heap st !! a with
        | Some o => (inr tt, set_heap (<[a := Object (fields o) (frozen o) (Some k)]>
                                        (heap st)) st)
        | None => (inr tt, st)
        end.

(** Modelled from the spec: [markRecord] of [./utils]. *)
Definition markRecord : nat → M unit := mark KRecord.

(** Modelled from the spec: [assertFeatures] of [./interngraph], the
    capability guard.  It fails with a capability error naming the first
    primitive the host lacks. *)
Definition assertFeatures : M unit :=
  λ st,
    if negb (weak_references (host st))
    then (inl (CapabilityMissing "weak references"), st)
    else if negb (freezing (host st))
    then (inl (CapabilityMissing "freezing"), st)
    else if negb (identity_comparison (host st))
    then (inl (CapabilityMissing "identity comparison"), st)
    else (inr tt, st).

(** ** The interning graph *)

(** Modelled from the spec: [InternGraph.prototype.get] of [./interngraph].
    Starting at the root of the kind, descend along the entries creating
    missing children; return the terminal composite if it is live;
    otherwise have the creator build a fresh composite, store it in the
    terminal slot and return it.  Detaching dead nodes is left to a later
    sweep, which the design allows. *)
Definition InternGraph_get (k : kind) (creator : list entry → M nat)
    (values : list entry) : M nat :=
  λ st,
    let st1 := set_graph k (node_touch values (graph_of k st)) st in
    let fresh :=
      let* a := creator values in
      λ st2, (inr a, set_graph k (node_put values a (graph_of k st2)) st2) in
    match node_get values (graph_of k st1) with
    | Some a => if live a st1 then (inr a, st1) else fresh st1
    | None => fresh st1
    end.

(** ** record.js *)

(** [createFreshRecordFromProperties], record.js lines 27-35. *)
Definition createFreshRecordFromProperties (properties : list entry) : M nat :=
  let* record := Object_create in
  for_each (λ '(name, value),
              let* v := validateProperty value in
              set_property true record name v) properties ;;
  Object_freeze record ;;
  markRecord record ;;
  ret record.

(** [createRecordFromObject], record.js lines 39-57. *)
Definition createRecordFromObject (value : value) : M nat :=
  assertFeatures ;;
  if negb (isObject value)
  then throw (Error "invalid value, expected object argument")
  else
    let* entries := Object_entries value in
    let* sorted :=
      reading (λ st, Array_sort (compare_entries (host st) (heap st)) entries) in
    let* properties :=
      map_M (λ '(name, value), let* v := validateProperty value in ret (name, v))
            sorted in
    InternGraph_get KRecord createFreshRecordFromProperties properties.

(** [Record], record.js lines 59-61.  [Record.fromEntries] below is the
    method [fromEntries] that [define] attaches to it. *)
Definition Record (value : value) : M nat := createRecordFromObject value.

(** Modelled from the spec: [objectFromEntries] of [./utils] builds a host
    object from an explicit key/value sequence, one assignment per pair. *)
Definition objectFromEntries (iterator : list entry) : M value :=
  let* obj := Object_create in
  for_each (λ '(name, value), set_property true obj name value) iterator ;;
  ret (VObject obj).

(** [Record.fromEntries], record.js lines 73-75. *)
Definition Record_fromEntries (iterator : list entry) : M nat :=
  let* obj := objectFromEntries iterator in
  createRecordFromObject obj.

(** ** Tuples *)

(** Modelled from the spec: the positional normalizer of [./tuple.js].  The
    elements are taken in order; an element that classifies as invalid
    fails with [InvalidEntry] reporting its index. *)
Fixpoint normalize_tuple (i : nat) (values : list value) : M (list entry) :=
  match values with
  | [] => ret []
  | v :: values' =>
      let* h := get_heap in
      match classify h v with
      | Invalid => throw (InvalidEntry (Some (AtIndex i)) v)
      | _ => let* rest := normalize_tuple (S i) values' in ret ((pretty i, v) :: rest)
      end
  end.

(** Modelled from the spec: the creator of fresh tuples, the counterpart of
    [createFreshRecordFromProperties]: frozen and tagged as a tuple. *)
Definition createFreshTupleFromEntries (entries : list entry) : M nat :=
  let* tuple := Object_create in
  for_each (λ '(name, value),
              let* v := validateProperty value in
              set_property true tuple name v) entries ;;
  Object_freeze tuple ;;
  mark KTuple tuple ;;
  ret tuple.

(** Modelled from the spec: [Tuple(...values)], the same path as [Record]
    with positional normalization. *)
Definition Tuple (values : list value) : M nat :=
  assertFeatures ;;
  let* entries := normalize_tuple 0 values in
  InternGraph_get KTuple createFreshTupleFromEntries entries.

(** ** The surrounding program *)

(** The state right after the module is loaded: both graphs are empty, and
    nothing is allocated. *)
Definition init (hst : Host) : state := State ∅ 0 empty_node empty_node hst.

Definition full_host : Host := MkHost true true true.

(** What a program can do with the module and with objects: call the
    constructors, build and mutate objects, and let the collector reclaim
    an object. *)
Inductive op : Type :=
  | CallRecord (v : value)
  | CallFromEntries (iterator : list entry)
  | CallTuple (values : list value)
  | NewObject (properties : list entry)
  | Assign (strict : bool) (a : nat) (name : string) (v : value)
  | Delete (strict : bool) (a : nat) (name : string)
  | Freeze (a : nat)
  | Collect (a : nat).

Definition discard {A} (m : M A) : M unit := let* _ := m in ret tt.

Definition collect (a : nat) : M unit :=
  λ st, (inr tt, set_heap (delete a (heap st)) st).

Definition exec (o : op) : M unit :=
  match o with
  | CallRecord v => discard (Record v)
  | CallFromEntries it => discard (Record_fromEntries it)
  | CallTuple vs => discard (Tuple vs)
  | NewObject props => discard (objectFromEntries props)
  | Assign strict a name v => set_property strict a name v
  | Delete strict a name => delete_property strict a name
  | Freeze a => Object_freeze a
  | Collect a => collect a
  end.

(** Run a program; an exception is caught by the caller, the state it left
    stays. *)
Definition run (ops : list op) (st : state) : state :=
  fold_left (λ s o, (exec o s).2) ops st.

Definition reachable (st : state) : Prop :=
  ∃ hst ops, st = run ops (init hst).

(** ** Invariants of the engine *)

Definition keys (fs : list entry) : list string := fs.*1.

(** An entry whose value the classifier accepts in heap [h]. *)
Definition valid_in (h : gmap nat object) (e : entry) : Prop :=
  classify h e.2 ≠ Invalid.

(** The graph of kind [k] agrees with the live composites of that kind. *)
Record graph_wf (k : kind) (st : state) : Prop := GraphWf {
  interned : ∀ a o,
    heap st !! a = Some o → provenance o = Some k →
    node_get (fields o) (graph_of k st) = Some a;
  terminal_entries : ∀ p a o,
    node_get p (graph_of k st) = Some a → heap st !! a = Some o →
    provenance o = Some k ∧ fields o = p
}.

Record wf (st : state) : Prop := Wf {
  allocated : ∀ a o, heap st !! a = Some o → a < next_addr st;
  composites_frozen : ∀ a o,
    heap st !! a = Some o → is_Some (provenance o) → frozen o = true;
  keys_unique : ∀ a o, heap st !! a = Some o → NoDup (keys (fields o));
  terminals_allocated : ∀ k p a,
    node_get p (graph_of k st) = Some a → a < next_addr st;
  graphs_wf : ∀ k, graph_wf k st
}.

(** The composite invariant of the data model: among live composites of
    one kind, equal entry sequences mean the same object. *)
Definition canonical (st : state) : Prop :=
  ∀ k a b oa ob,
    heap st !! a = Some oa → heap st !! b = Some ob →
    provenance oa = Some k → provenance ob = Some k →
    (fields oa = fields ob ↔ a = b).

(** The host passes the capability guard. *)
Definition capable (hst : Host) : bool :=
  weak_references hst && freezing hst && identity_comparison hst.

(** Entries in ascending key order under the code-unit comparison. *)
Fixpoint sorted_by_key (l : list entry) : bool :=
  match l with
  | [] => true
  | e :: l' =>
      forallb (λ e', String.ltb e.1 e'.1) l' && sorted_by_key l'
  end.

(** The property list after assigning the pairs of [props] in order. *)
Definition assign_all (props acc : list entry) : list entry :=
  fold_left (λ fs e, field_set e.1 e.2 fs) props acc.

Definition creator_of (k : kind) : list entry → M nat :=
  match k with
  | KRecord => createFreshRecordFromProperties
  | KTuple => createFreshTupleFromEntries
  end.

(** The state after a canonicalization miss: a fresh frozen composite at
    the next address, stored in the terminal slot at the end of its path. *)
Definition intern_state (k : kind) (values : list entry) (st : state) : state :=
  set_graph k (node_put values (next_addr st) (node_touch values (graph_of k st)))
    (State (<[next_addr st := Object values true (Some k)]> (heap st))
           (S (next_addr st)) (RECORD_GRAPH st) (TUPLE_GRAPH st) (host st)).


(** What [Object.entries] yields for [v] in state [st]. *)
Definition source_entries (st : state) (v : value) : list entry :=
  match v with
  | VObject a =>
      match heap st !! a with
      | Some o => own_property_order (fields o)
      | None => []
      end
  | _ => []
  end.

(** The joined text of an entry, with an empty text for a value that has
    no string conversion. *)
Definition entry_text (hst : Host) (h : gmap nat object) (e : entry) : string :=
  e.1 +:+ "," +:+ match join_element hst h e.2 with
                  | inr text => text
                  | inl _ => EmptyString
                  end.

(** What the comparator returns on two entries that convert. *)
Definition compare_texts (hst : Host) (h : gmap nat object) (a b : entry) : Z :=
  if String.ltb (entry_text hst h a) (entry_text hst h b) then (-1)%Z
  else if String.ltb (entry_text hst h b) (entry_text hst h a) then 1%Z
  else 0%Z.

(** The value of the entry has a string conversion. *)
Definition converts (hst : Host) (h : gmap nat object) (e : entry) : Prop :=
  ∃ text, join_element hst h e.2 = inr text.

#[global] Instance converts_dec hst h (e : entry) : Decision (converts hst h e).
Proof.
  unfold converts. destruct (join_element hst h e.2) as [x|t].
  - right. by intros [t Ht].
  - left. by exists t.
Defined.

(** The entries the sort can go through: fewer than two, which are not
    compared, or entries that all convert. *)
Definition sortable (hst : Host) (h : gmap nat object) (l : list entry) : Prop :=
  List.length l ≤ 1 ∨ Forall (converts hst h) l.

(** The sorted entries of the source [v]: the sequence [Record] hands to
    the graph when the sort returns and every value validates. *)
Definition record_properties (st : state) (v : value) : list entry :=
  stable_sort (compare_texts (host st) (heap st)) (source_entries st v).

(** The entries of a tuple whose first element has index [i]. *)
Fixpoint tuple_entries (i : nat) (values : list value) : list entry :=
  match values with
  | [] => []
  | v :: values' => (pretty i, v) :: tuple_entries (S i) values'
  end.

(** How the state may change over time: the host stays, addresses are only
    ever handed out upwards, a frozen object is unchanged for as long as it
    is live, and a reclaimed address stays empty. *)
Record evolves (st st' : state) : Prop := Evolves {
  ev_host : host st' = host st;
  ev_next : next_addr st ≤ next_addr st';
  ev_frozen : ∀ a o,
    heap st !! a = Some o → frozen o = true →
    heap st' !! a = Some o ∨ heap st' !! a = None;
  ev_dead : ∀ a, a < next_addr st → heap st !! a = None → heap st' !! a = None
}.

(** The source [v] passes the guard, the object check, the sort and
    validation. *)
Definition normalizes (st : state) (v : value) : Prop :=
  capable (host st) = true ∧ isObject v = true ∧
  sortable (host st) (heap st) (source_entries st v) ∧
  Forall (valid_in (heap st)) (record_properties st v).

(** The state after [objectFromEntries]: a fresh plain object holding the
    pairs. *)
Definition object_state (iterator : list entry) (st : state) : state :=
  State (<[next_addr st := Object (assign_all iterator []) false None]> (heap st))
        (S (next_addr st)) (RECORD_GRAPH st) (TUPLE_GRAPH st) (host st).

(** No assignment or deletion gets through to the object at [a], and along
    every run it is unchanged for as long as it is live. *)
Definition immutable_at (a : nat) (st : state) : Prop :=
  ∃ o, heap st !! a = Some o ∧ frozen o = true
    ∧ (∀ name v, ∃ e, set_property true a name v st = (inl e, st))
    ∧ (∀ name v, set_property false a name v st = (inr tt, st))
    ∧ (∀ strict name, (delete_property strict a name st).2 = st)
    ∧ (∀ ops, heap (run ops st) !! a = Some o ∨ heap (run ops st) !! a = None).

(** Modelled from the spec: [isTuple], the provenance check for tuples. *)
Definition isTuple (h : gmap nat object) (v : value) : bool :=
  match v with
  | VObject a =>
      match h !! a with
      | Some o => bool_decide (provenance o = Some KTuple)
      | None => false
      end
  | _ => false
  end.

(** The composites of a state: what is live and carries a provenance tag. *)
Definition composites (st : state) : gmap nat object :=
  filter (λ ao, is_Some (provenance ao.2)) (heap st).

(** The order the comparator of [createRecordFromObject] sorts by: the
    joined text of the first entry does not come after that of the second. *)
Definition text_le (hst : Host) (h : gmap nat object) (x y : entry) : Prop :=
  String.ltb (entry_text hst h y) (entry_text hst h x) = false.
(** * The core functions that travel with [record.js]

    The source file continues, after the record constructor, with the core
    of the prelude (record.js lines 85-1064): error helpers, function
    combinators, safe property access, multimethods and spec combinators.
    They are embedded here under their own names.  A function that is
    passed in is a [fn]: its [name] and [length] properties and what a call
    returns or throws; such functions are taken to have no effect of their
    own unless a world is threaded through them explicitly. *)

Module Core.

Record fn (A R : Type) : Type := Fn {
  name : string;
  length : nat;
  call : list A → exn + R
}.

Arguments Fn {A R} _ _ _.
Arguments name {A R} _.
Arguments length {A R} _.
Arguments call {A R} _ _.

(** [x == undefined] *)
Definition nullish (x : value) : bool :=
  match x with VUndefined | VNull => true | _ => false end.

(** [ToBoolean], the truthiness of conditions, [!], [some] and [every]. *)
Definition truthy (x : value) : bool :=
  match x with
  | VUndefined | VNull | VBoolean false | VNumber 0 | VString EmptyString => false
  | _ => true
  end.

(** The parameter at position [i] of a call: absent arguments are
    [undefined]. *)
Definition arg (i : nat) (args : list value) : value := nth i args VUndefined.

(** [strings.join(sep)] *)
Fixpoint join (sep : string) (strings : list string) : string :=
  match strings with
  | [] => EmptyString
  | [s] => s
  | s :: strings' => s +:+ sep +:+ join sep strings'
  end.

(** The text of [x] inside a template literal, for a value that converts
    by the methods it inherits. *)
Definition template (h : gmap nat object) (x : value) : string :=
  match x with
  | VUndefined => "undefined"
  | VNull => "null"
  | _ => element_string h x
  end.

(** [x.toString()]: there is no such method on [undefined] and [null];
    every other value answers with the [toString] it inherits. *)
Definition toString (h : gmap nat object) (x : value) : exn + string :=
  if nullish x
  then inl (TypeError "Cannot read properties of undefined (reading 'toString')")
  else inr (element_string h x).

(** [xs.map(f)] for a callback that may throw. *)
Fixpoint map_throwing {A B} (f : A → exn + B) (xs : list A) : exn + list B :=
  match xs with
  | [] => inr []
  | x :: xs' =>
      match f x with
      | inl e => inl e
      | inr y =>
          match map_throwing f xs' with
          | inl e => inl e
          | inr ys => inr (y :: ys)
          end
      end
  end.

(** [raise], record.js line 95. *)
Definition raise {R} (error : string → exn) (message : string) : exn + R :=
  inl (error message).

(** [boolean], record.js line 118. *)
Definition boolean (x : value) : bool :=
  if nullish x || bool_decide (x = VBoolean false) then false else true.

(** ** Function application and dispatch *)


(** The object [arity_map] of [n_ary]: [Object.assign] lets a later
    function replace an earlier one of the same length. *)
Definition arity_map {A R} (fns : list (fn A R)) : gmap nat (fn A R) :=
  fold_left (λ map f, <[length f := f]> map) fns ∅.

(** [Object.keys(arity_map)]: integer keys come in ascending order. *)
Definition arities {A R} (fns : list (fn A R)) : list nat :=
  stable_sort (λ a b, (Z.of_nat a - Z.of_nat b)%Z) (elements (dom (arity_map fns))).

(** [n_ary], record.js lines 165-179. *)
Definition n_ary {A R} (fname : string) (fns : list (fn A R)) : fn A R :=
  Fn fname 0
     (λ args,
        let arity := List.length args in
        match arity_map fns !! arity with
        | Some f => call f args
        | None =>
            raise Error
              ("Wrong number of arguments to " +:+ fname +:+ ". It takes "
               +:+ join " or " (pretty <$> arities fns)
               +:+ " argument(s), but received " +:+ pretty arity +:+ ".")
        end).

(** ** loop and recur *)

(** What the body of a looped function hands back: the object [recur]
    builds (record.js lines 315-323), which carries the next arguments, or
    any other value. *)
Inductive returned : Type :=
  | Recur (args : list value)
  | Plain (v : value).

(** [recur], record.js line 315. *)
Definition recur (args : list value) : returned := Recur args.

(** The [while] of [loop], record.js lines 333-336, with [remaining]
    standing for [max_iter - iter]: the test reads [result[recur_tag]]
    first, which throws on [undefined] and [null], is true on a recur
    object and is [undefined] on every other value. *)
Fixpoint loop_while (f : list value → exn + returned) (remaining : nat)
    (result : returned) : exn + (returned * nat) :=
  match result with
  | Plain v =>
      if nullish v
      then inl (TypeError "Cannot read properties of undefined")
      else inr (result, remaining)
  | Recur args =>
      match remaining with
      | 0 => inr (result, 0)
      | S remaining' =>
          match f args with
          | inl e => inl e
          | inr result' => loop_while f remaining' result'
          end
      end
  end.

(** The body of a looped function, started at [r], hands back [r'] after
    [n] further calls, each made with the arguments of the recur object
    before it. *)
Inductive reaches (f : list value → exn + returned) : returned → nat → returned → Prop :=
  | reaches_here r : reaches f r 0 r
  | reaches_step args r' n r'' :
      f args = inr r' → reaches f r' n r'' → reaches f (Recur args) (S n) r''.

(** [loop], record.js lines 328-348; [max_iter] is a count. *)
Definition loop (f : fn value returned) (max_iter : nat) : fn value returned :=
  Fn ((if bool_decide (name f = EmptyString) then "anonymous" else name f) +:+ "<looped>")
     (length f)
     (λ args,
        match call f args with
        | inl e => inl e
        | inr result =>
            match loop_while (call f) max_iter result with
            | inl e => inl e
            | inr (result', remaining) =>
                if bool_decide (remaining = 0)
                then raise Error
                       ("Too much recursion in "
                        +:+ (if bool_decide (name f = EmptyString)
                             then "anonymous function" else name f)
                        +:+ ".")
                else inr result'
            end
        end).

(** The default bound of [loop]. *)
Definition default_max_iter : nat := 1000 * 1000.

(** ** Safe property access *)

(** [is_undefined], record.js line 462. *)
Definition is_undefined (x : value) : bool := nullish x.

(** The three-argument clause of [get], record.js lines 490-498.  The
    property read [obj[key]] is the host's and is taken as the parameter
    [read]: own properties, prototype chains, getters and the wrappers of
    primitives are its business. *)
Definition get (read : value → value → exn + value) (key if_absent obj : value)
  : exn + value :=
  if nullish obj then inr if_absent
  else match read obj key with
       | inl e => inl e
       | inr v => if nullish v then inr if_absent else inr v
       end.

(** The two-argument clause of [get], record.js line 489: the call
    [get(key, undefined, obj)] has three arguments and goes to the clause
    above. *)
Definition get2 (read : value → value → exn + value) (key obj : value) : exn + value :=
  get read key VUndefined obj.

(** The two-argument clause of [has], record.js line 507. *)
Definition has (read : value → value → exn + value) (key obj : value) : exn + bool :=
  match get2 read key obj with
  | inl e => inl e
  | inr v => inr (boolean v)
  end.

(** The three-argument clause of [get_in], record.js line 516:
    [keys.reduce((o, k) => get(k, o, if_absent), obj)]. *)
Definition get_in (read : value → value → exn + value) (obj if_absent : value)
    (keys : list value) : exn + value :=
  fold_left (λ acc k, match acc with
                      | inl e => inl e
                      | inr o => get read k o if_absent
                      end) keys (inr obj).

(** The two-argument clause of [get_in], record.js line 515. *)
Definition get_in2 (read : value → value → exn + value) (obj : value)
    (keys : list value) : exn + value :=
  get_in read obj VUndefined keys.

(** Reading an own property of a heap object by a string key: an instance
    of the host's read for objects that inherit nothing of that name. *)
Definition own_read (h : gmap nat object) (obj key : value) : exn + value :=
  match obj, key with
  | VObject a, VString k =>
      match h !! a with
      | Some o => inr (default VUndefined (field_lookup k (fields o)))
      | None => inr VUndefined
      end
  | _, _ => inr VUndefined
  end.

(** ** Pipelines *)

(** What a pipeline is handed as a stage: a function, or an array of
    stages (which is what [comp] hands over). *)
#[warnings="-register-all"]
Inductive stage : Type :=
  | Function (f : fn value value)
  | Array (elements : list stage).

(** Calling a stage: an array is not callable. *)
Definition call_stage (s : stage) (args : list value) : exn + value :=
  match s with
  | Function f => call f args
  | Array _ => inl (TypeError "first is not a function")
  end.

(** The text of [s.name] in a template literal; an array has no [name]. *)
Definition stage_name (s : stage) : string :=
  match s with
  | Function f => name f
  | Array _ => "undefined"
  end.

(** The stages after the first, record.js lines 263-271.  A pipeline
    returns or throws, and writes messages to the error console ([report],
    record.js lines 98-100); the second component lists them. *)
Fixpoint pipe_rest (h : gmap nat object) (fns : list stage) (result : value)
  : (exn + value) * list string :=
  match fns with
  | [] => (inr result, [])
  | f :: fns' =>
      match call_stage f [result] with
      | inl e =>
          (inl e, ["Error in function pipeline while calling " +:+ stage_name f
                   +:+ " with " +:+ template h result +:+ "."])
      | inr result' => pipe_rest h fns' result'
      end
  end.

(** [pipe], record.js lines 254-272.  In the handler of the first stage
    the name [fn] is not the stage: the loop variable of that name is out
    of scope there, so it is the module's function [fn] (record.js line
    376), whose name is "fn". *)
Definition pipe (h : gmap nat object) (first : stage) (fns : list stage)
    (args : list value) : (exn + value) * list string :=
  match call_stage first args with
  | inl e =>
      match map_throwing (toString h) args with
      | inl e' => (inl e', [])
      | inr shown =>
          (inl e, ["Error in function pipeline while calling fn with ("
                   +:+ join ", " shown +:+ ")."])
      end
  | inr result => pipe_rest h fns result
  end.


(** [pipe_some], record.js lines 277-288. *)
Fixpoint pipe_some (h : gmap nat object) (fns : list stage) (x : value)
  : (exn + value) * list string :=
  match fns with
  | [] => (inr x, [])
  | f :: fns' =>
      match call_stage f [x] with
      | inl e =>
          (inl e, ["Error thrown in function while calling " +:+ stage_name f
                   +:+ " with " +:+ template h x +:+ "."])
      | inr x' => if nullish x' then (inr VUndefined, []) else pipe_some h fns' x'
      end
  end.

(** ** once *)

(** [once], record.js lines 443-449.  The closure keeps [result], which
    starts as the marker [never] (here [None]); the wrapped function may
    change a world [W], so that a call of it can be told from no call. *)
Definition once {W} (f : list value → W → (exn + value) * W)
    (result : option value) (args : list value) (w : W)
  : (exn + value) * option value * W :=
  match result with
  | None =>
      match f args w with
      | (inl e, w') => (inl e, None, w')
      | (inr v, w') => (inr v, Some v, w')
      end
  | Some v => (inr v, Some v, w)
  end.

(** Calling the function [once] returns, several times in a row. *)
Fixpoint once_calls {W} (f : list value → W → (exn + value) * W)
    (result : option value) (calls : list (list value)) (w : W)
  : list (exn + value) * option value * W :=
  match calls with
  | [] => ([], result, w)
  | args :: calls' =>
      let '(r, result', w') := once f result args w in
      let '(rs, result'', w'') := once_calls f result' calls' w' in
      (r :: rs, result'', w'')
  end.

(** ** Multimethods *)

(** The [Map] of a multimethod, with keys of a type [K] compared as [Map]
    compares them: entries in insertion order, [set] on a present key
    replaces the value in place. *)
Fixpoint Map_get {K V} `{EqDecision K} (k : K) (m : list (K * V)) : option V :=
  match m with
  | [] => None
  | (k', v) :: m' => if decide (k = k') then Some v else Map_get k m'
  end.

Fixpoint Map_set {K V} `{EqDecision K} (k : K) (v : V) (m : list (K * V))
  : list (K * V) :=
  match m with
  | [] => [(k, v)]
  | (k', v') :: m' =>
      if decide (k = k') then (k, v) :: m' else (k', v') :: Map_set k v m'
  end.

Definition Map_delete {K V} `{EqDecision K} (k : K) (m : list (K * V)) : list (K * V) :=
  filter (λ kv, kv.1 ≠ k) m.

(** A multimethod: its name, the dispatching function [on], the default
    [not_found] and the map of its methods. *)
Record multimethod (K : Type) : Type := Multi {
  multi_name : string;
  on : list value → exn + K;
  not_found : list value → exn + value;
  map : list (K * fn value value)
}.

Arguments Multi {K} _ _ _ _.
Arguments multi_name {K} _.
Arguments on {K} _ _.
Arguments not_found {K} _ _.
Arguments map {K} _.


(** [multi], record.js lines 201-219: a multimethod without methods. *)
Definition multi {K} (mname : string) (on : list value → exn + K)
    (not_found : list value → exn + value) : multimethod K :=
  Multi mname on not_found [].

(** The function [dispatch] of a multimethod, record.js lines 204-209. *)
Definition dispatch {K} `{EqDecision K} (m : multimethod K) (args : list value)
  : exn + value :=
  match on m args with
  | inl e => inl e
  | inr k =>
      match Map_get k (map m) with
      | Some f => call f args
      | None => not_found m args
      end
  end.

(** [method], record.js lines 223-226. *)
Definition method {K} `{EqDecision K} (m : multimethod K) (k : K) (f : fn value value)
  : multimethod K :=
  Multi (multi_name m) (on m) (not_found m) (Map_set k f (map m)).

(** [methods], record.js line 229. *)
Definition methods {K} (m : multimethod K) : list (K * fn value value) := map m.

(** [has_method], record.js line 232. *)
Definition has_method {K} `{EqDecision K} (m : multimethod K) (k : K) : bool :=
  bool_decide (is_Some (Map_get k (map m))).

(** [delete_method], record.js lines 235-236: the multimethod afterwards,
    and what [Map.prototype.delete] returns. *)
Definition delete_method {K} `{EqDecision K} (m : multimethod K) (k : K)
  : multimethod K * bool :=
  (Multi (multi_name m) (on m) (not_found m) (Map_delete k (map m)),
   bool_decide (is_Some (Map_get k (map m)))).

(** ** Spec combinators *)

Inductive combinator : Type := by_or | by_and | by_not.

(** A spec is a predicate function with the properties [spec] defines on
    it: its name, the combinator that built it and the specs it joins. *)
#[warnings="-register-all"]
Inductive spec_fn : Type :=
  | Spec (spec_name : string) (predicate : value → exn + value)
         (built_by : option combinator) (joins : list spec_fn).

Definition spec_name (s : spec_fn) : string :=
  match s with Spec n _ _ _ => n end.

Definition check_fn (s : spec_fn) : value → exn + value :=
  match s with Spec _ p _ _ => p end.

(** The two-argument clause of [spec], record.js line 971: a rename. *)
Definition spec (sname : string) (s : spec_fn) : spec_fn :=
  match s with Spec _ p c j => Spec sname p c j end.

(** [check], record.js line 1030. *)
Definition check (s : spec_fn) (x : value) : exn + value := check_fn s x.

(** [specs.some(spec => spec(value))] *)
Fixpoint some (specs : list spec_fn) (x : value) : exn + bool :=
  match specs with
  | [] => inr false
  | s :: specs' =>
      match check_fn s x with
      | inl e => inl e
      | inr r => if truthy r then inr true else some specs' x
      end
  end.

(** [specs.every(spec => spec(value))] *)
Fixpoint every (specs : list spec_fn) (x : value) : exn + bool :=
  match specs with
  | [] => inr true
  | s :: specs' =>
      match check_fn s x with
      | inl e => inl e
      | inr r => if truthy r then every specs' x else inr false
      end
  end.

Definition as_value (r : exn + bool) : exn + value :=
  match r with inl e => inl e | inr b => inr (VBoolean b) end.

(** [or], record.js lines 980-985. *)
Definition or (specs : list spec_fn) : spec_fn :=
  Spec ("or<" +:+ join ", " (spec_name <$> specs) +:+ ">")
       (λ x, as_value (some specs x)) (Some by_or) specs.

(** [and], record.js lines 987-992. *)
Definition and (specs : list spec_fn) : spec_fn :=
  Spec ("and<" +:+ join ", " (spec_name <$> specs) +:+ ">")
       (λ x, as_value (every specs x)) (Some by_and) specs.

(** [not], record.js lines 994-999. *)
Definition not (s : spec_fn) : spec_fn :=
  Spec ("not<" +:+ spec_name s +:+ ">")
       (λ x, match check_fn s x with
             | inl e => inl e
             | inr r => inr (VBoolean (negb (truthy r)))
             end)
       (Some by_not) [s].

(** [is_undef] as the function it is: a plain predicate named after
    [is_undefined], with no spec properties. *)
Definition is_undef : spec_fn :=
  Spec "is_undefined" (λ x, inr (VBoolean (is_undefined x))) None [].

(** [maybe], record.js line 1001. *)
Definition maybe (s : spec_fn) : spec_fn :=
  spec ("maybe<" +:+ spec_name s +:+ ">") (or [s; is_undef]).

End Core.

(** ** Keys and the joined text of an entry *)

(** Whether a key holds a comma, the separator of the joined text that the
    comparator of [createRecordFromObject] compares. *)
Fixpoint has_comma (s : string) : bool :=
  match s with
  | EmptyString => false
  | String c s' => bool_decide (c = ","%char) || has_comma s'
  end.

(** The entries of a list whose joined text is [t]. *)
Definition with_text (hst : Host) (h : gmap nat object) (t : string) (l : list entry)
  : list entry :=
  filter (λ e, entry_text hst h e = t) l.
(** ** Lemmas on the trie *)

Lemma child_lookup_insert (e : entry) (n : InternNode) cs :
  child_lookup e (child_insert e n cs) = Some n.
Proof.
  induction cs as [|[e' n'] cs IH]; simpl.
  - by rewrite decide_True.
  - destruct (decide (e = e')) as [->|Hne]; simpl.
    + by rewrite decide_True.
    + by rewrite decide_False.
Qed.

Lemma child_lookup_insert_ne (e e' : entry) (n : InternNode) cs :
  e ≠ e' → child_lookup e' (child_insert e n cs) = child_lookup e' cs.
Proof.
  intros Hne. induction cs as [|[e0 n0] cs IH]; simpl.
  - by rewrite decide_False.
  - destruct (decide (e = e0)) as [->|Hne0]; simpl.
    + by rewrite !decide_False.
    + destruct (decide (e' = e0)); [done | apply IH].
Qed.

Lemma child_insert_id (e : entry) (n : InternNode) cs :
  child_lookup e cs = Some n → child_insert e n cs = cs.
Proof.
  induction cs as [|[e0 n0] cs IH]; simpl; [done |].
  destruct (decide (e = e0)) as [->|Hne].
  - by intros [= ->].
  - intros H. by rewrite IH.
Qed.

Lemma node_get_touch (p q : list entry) (n : InternNode) :
  node_get q (node_touch p n) = node_get q n.
Proof.
  revert q n. induction p as [|e p IH]; intros q n; simpl; [done |].
  destruct q as [|e' q]; simpl; [done |].
  destruct (decide (e = e')) as [<-|Hne].
  - rewrite child_lookup_insert, IH. unfold child_or_new.
    destruct (child_lookup e (children n)); [done |]. by destruct q.
  - by rewrite child_lookup_insert_ne.
Qed.

Lemma node_get_put (p : list entry) (a : nat) (n : InternNode) :
  node_get p (node_put p a n) = Some a.
Proof.
  revert n. induction p as [|e p IH]; intros n; simpl; [done |].
  by rewrite child_lookup_insert.
Qed.

Lemma node_get_put_ne (p q : list entry) (a : nat) (n : InternNode) :
  p ≠ q → node_get q (node_put p a n) = node_get q n.
Proof.
  revert q n. induction p as [|e p IH]; intros q n Hne; simpl.
  - destruct q; [done | by simpl].
  - destruct q as [|e' q]; simpl; [done |].
    destruct (decide (e = e')) as [<-|Hne'].
    + rewrite child_lookup_insert, IH by congruence. unfold child_or_new.
      destruct (child_lookup e (children n)); [done |]. by destruct q.
    + by rewrite child_lookup_insert_ne.
Qed.

Lemma node_touch_id (p : list entry) (a : nat) (n : InternNode) :
  node_get p n = Some a → node_touch p n = n.
Proof.
  revert n. induction p as [|e p IH]; intros n; simpl; [done |].
  unfold child_or_new. destruct (child_lookup e (children n)) as [c|] eqn:Hc; [|done].
  intros H. rewrite (IH _ H), (child_insert_id _ _ _ Hc). by destruct n.
Qed.

(** ** The monad and the creators *)

Lemma bind_ok {A B} (m : M A) (k : A → M B) st x st' :
  m st = (inr x, st') → bind m k st = k x st'.
Proof. intros H. unfold bind. by rewrite H. Qed.

Lemma bind_err {A B} (m : M A) (k : A → M B) st e st' :
  m st = (inl e, st') → bind m k st = (inl e, st').
Proof. intros H. unfold bind. by rewrite H. Qed.

Lemma set_heap_id st : set_heap (heap st) st = st.
Proof. by destruct st. Qed.

Lemma classify_insert_plain (h : gmap nat object) r o' v :
  (∀ o, h !! r = Some o → provenance o = None) → provenance o' = None →
  classify (<[r := o']> h) v = classify h v.
Proof.
  intros Hold Hnew. destruct v as [| | | | | |a]; simpl; try done.
  destruct (decide (a = r)) as [->|Hne].
  - rewrite lookup_insert_eq, Hnew.
    destruct (h !! r) as [o|] eqn:Ho; [|done]. by rewrite (Hold o).
  - by rewrite lookup_insert_ne.
Qed.

Lemma field_set_fresh name v (fs : list entry) :
  name ∉ keys fs → field_set name v fs = fs ++ [(name, v)].
Proof.
  induction fs as [|[k w] fs IH]; simpl; [done |].
  intros Hnot. rewrite not_elem_of_cons in Hnot. destruct Hnot as [Hne Hnot].
  rewrite decide_False by done. by rewrite IH.
Qed.

Lemma assign_all_fresh (props acc : list entry) :
  NoDup (keys (acc ++ props)) → assign_all props acc = acc ++ props.
Proof.
  revert acc. induction props as [|[k v] props IH]; intros acc Hnd; simpl.
  - by rewrite app_nil_r.
  - unfold assign_all in *. simpl. rewrite field_set_fresh.
    + rewrite IH; rewrite <- app_assoc; done.
    + unfold keys in *. rewrite fmap_app in Hnd. simpl in Hnd.
      apply NoDup_app in Hnd as (_ & Hd & _). intros Hin. apply (Hd _ Hin). left.
Qed.

Lemma build_fields r (props acc : list entry) st :
  heap st !! r = Some (Object acc false None) →
  Forall (valid_in (heap st)) props →
  for_each (λ '(name, value),
              let* v := validateProperty value in set_property true r name v) props st
  = (inr tt, set_heap (<[r := Object (assign_all props acc) false None]> (heap st)) st).
Proof.
  revert acc st. induction props as [|[k v] props IH]; intros acc st Hr Hval; simpl.
  - unfold ret. by rewrite insert_id, set_heap_id.
  - apply Forall_cons in Hval as [Hv Hval]. unfold valid_in in Hv. simpl in Hv.
    unfold bind at 1. unfold bind at 1. unfold validateProperty at 1.
    destruct (classify (heap st) v) eqn:Hc; [| |done].
    all: unfold set_property at 1; rewrite Hr; simpl.
    all: rewrite (IH (field_set k v acc)); simpl.
    all: try (by rewrite lookup_insert_eq).
    all: try (by rewrite insert_insert_eq).
    all: eapply Forall_impl; [exact Hval|]; intros e He; unfold valid_in in *.
    all: rewrite classify_insert_plain; [done| |done].
    all: intros o; rewrite Hr; by intros [= <-].
Qed.

Lemma graph_of_set_graph k g st : graph_of k (set_graph k g st) = g.
Proof. by destruct k. Qed.

Lemma graph_of_set_graph_ne k k' g st :
  k ≠ k' → graph_of k' (set_graph k g st) = graph_of k' st.
Proof. by destruct k, k'. Qed.

Lemma heap_set_graph k g st : heap (set_graph k g st) = heap st.
Proof. by destruct k. Qed.

Lemma next_set_graph k g st : next_addr (set_graph k g st) = next_addr st.
Proof. by destruct k. Qed.

Lemma host_set_graph k g st : host (set_graph k g st) = host st.
Proof. by destruct k. Qed.

Lemma graph_of_set_heap k h st : graph_of k (set_heap h st) = graph_of k st.
Proof. by destruct k. Qed.

Lemma set_graph_id k st : set_graph k (graph_of k st) st = st.
Proof. by destruct k, st. Qed.


Lemma creator_ok k st (props : list entry) :
  (∀ o, heap st !! next_addr st = Some o → provenance o = None) →
  Forall (valid_in (heap st)) props →
  creator_of k props st
  = (inr (next_addr st),
     State (<[next_addr st := Object (assign_all props []) true (Some k)]> (heap st))
           (S (next_addr st)) (RECORD_GRAPH st) (TUPLE_GRAPH st) (host st)).
Proof.
  intros Hfresh Hval.
  assert (Hbuild := build_fields (next_addr st) props []
    (State (<[next_addr st := Object [] false None]> (heap st))
           (S (next_addr st)) (RECORD_GRAPH st) (TUPLE_GRAPH st) (host st))).
  simpl in Hbuild. rewrite lookup_insert_eq in Hbuild.
  specialize (Hbuild eq_refl).
  assert (Hval' : Forall (valid_in (<[next_addr st := Object [] false None]> (heap st))) props).
  { eapply Forall_impl; [exact Hval|]. intros e He. unfold valid_in in *.
    by rewrite classify_insert_plain. }
  specialize (Hbuild Hval'). rewrite insert_insert_eq in Hbuild.
  destruct k; simpl.
  - unfold createFreshRecordFromProperties.
    erewrite bind_ok by reflexivity. erewrite bind_ok by exact Hbuild.
    erewrite bind_ok by (unfold Object_freeze; simpl; by rewrite lookup_insert_eq).
    erewrite bind_ok by (unfold markRecord, mark; simpl; by rewrite lookup_insert_eq).
    unfold ret, set_heap. simpl. by rewrite !insert_insert_eq.
  - unfold createFreshTupleFromEntries.
    erewrite bind_ok by reflexivity. erewrite bind_ok by exact Hbuild.
    erewrite bind_ok by (unfold Object_freeze; simpl; by rewrite lookup_insert_eq).
    erewrite bind_ok by (unfold mark; simpl; by rewrite lookup_insert_eq).
    unfold ret, set_heap. simpl. by rewrite !insert_insert_eq.
Qed.

Lemma get_hit k creator (values : list entry) a st :
  node_get values (graph_of k st) = Some a → is_Some (heap st !! a) →
  InternGraph_get k creator values st = (inr a, st).
Proof.
  intros Hget Hlive. unfold InternGraph_get.
  rewrite graph_of_set_graph, node_get_touch, Hget.
  unfold live. rewrite heap_set_graph, bool_decide_eq_true_2 by done.
  by rewrite (node_touch_id _ _ _ Hget), set_graph_id.
Qed.

Lemma get_miss k (values : list entry) st :
  (∀ a, node_get values (graph_of k st) = Some a → heap st !! a = None) →
  (∀ o, heap st !! next_addr st = Some o → provenance o = None) →
  Forall (valid_in (heap st)) values →
  NoDup (keys values) →
  InternGraph_get k (creator_of k) values st
  = (inr (next_addr st), intern_state k values st).
Proof.
  intros Hdead Hfresh Hval Hnd. unfold InternGraph_get.
  rewrite graph_of_set_graph, node_get_touch.
  set (st1 := set_graph k (node_touch values (graph_of k st)) st).
  assert (Hcreate := creator_ok k st1 values).
  assert (Hh : heap st1 = heap st) by apply heap_set_graph.
  assert (Hn : next_addr st1 = next_addr st) by apply next_set_graph.
  rewrite Hh, Hn in Hcreate.
  specialize (Hcreate Hfresh Hval). rewrite assign_all_fresh in Hcreate by done.
  assert (Hfresh_st1 :
    bind (creator_of k values)
      (λ a st2, (inr a, set_graph k (node_put values a (graph_of k st2)) st2)) st1
    = (inr (next_addr st), intern_state k values st)).
  { erewrite bind_ok by exact Hcreate. unfold intern_state, st1.
    by destruct k. }
  destruct (node_get values (graph_of k st)) as [a|] eqn:Hget; [|done].
  unfold live. rewrite bool_decide_eq_false_2; [done |].
  rewrite Hh, (Hdead a eq_refl). by intros [? ?].
Qed.

Lemma node_get_empty (p : list entry) : node_get p empty_node = None.
Proof. by destruct p. Qed.

Lemma wf_init hst : wf (init hst).
Proof.
  split; simpl.
  - intros a o. by rewrite lookup_empty.
  - intros a o. by rewrite lookup_empty.
  - intros a o. by rewrite lookup_empty.
  - intros k p a. destruct k; simpl; by rewrite node_get_empty.
  - intros k. split; simpl.
    + intros a o. by rewrite lookup_empty.
    + intros p a o. by rewrite lookup_empty.
Qed.

Lemma wf_update_plain st a o (fs : list entry) fr :
  wf st → heap st !! a = Some o → provenance o = None → NoDup (keys fs) →
  wf (set_heap (<[a := Object fs fr None]> (heap st)) st).
Proof.
  intros [Hal Hfr Hk Hta Hg] Ha Hp Hnd. split; simpl.
  - intros b ob. destruct (decide (b = a)) as [->|Hne].
    + intros _. by eapply Hal.
    + rewrite lookup_insert_ne by done. apply Hal.
  - intros b ob. destruct (decide (b = a)) as [->|Hne].
    + rewrite lookup_insert_eq. intros [= <-]. simpl. by intros [? ?].
    + rewrite lookup_insert_ne by done. apply Hfr.
  - intros b ob. destruct (decide (b = a)) as [->|Hne].
    + rewrite lookup_insert_eq. by intros [= <-].
    + rewrite lookup_insert_ne by done. apply Hk.
  - intros k p b. rewrite graph_of_set_heap. apply Hta.
  - intros k. destruct (Hg k) as [Hin Hte]. split.
    + intros b ob. simpl. destruct (decide (b = a)) as [->|Hne].
      * rewrite lookup_insert_eq. by intros [= <-].
      * rewrite lookup_insert_ne by done. rewrite graph_of_set_heap. apply Hin.
    + intros p b ob Hget. simpl. destruct (decide (b = a)) as [->|Hne].
      * rewrite lookup_insert_eq. intros [= <-].
        assert (Hget' : node_get p (graph_of k st) = Some a) by (by destruct k).
        destruct (Hte p a o Hget' Ha) as [Hpk _]. congruence.
      * rewrite lookup_insert_ne by done.
        assert (Hget' : node_get p (graph_of k st) = Some b) by (by destruct k).
        by apply Hte.
Qed.

Lemma wf_alloc st :
  wf st →
  wf (State (<[next_addr st := Object [] false None]> (heap st))
            (S (next_addr st)) (RECORD_GRAPH st) (TUPLE_GRAPH st) (host st)).
Proof.
  intros [Hal Hfr Hk Hta Hg].
  assert (Hnone : heap st !! next_addr st = None).
  { destruct (heap st !! next_addr st) as [o|] eqn:Ho; [|done].
    apply Hal in Ho. lia. }
  split; simpl.
  - intros b ob. destruct (decide (b = next_addr st)) as [->|Hne]; [lia |].
    rewrite lookup_insert_ne by done. intros H. apply Hal in H. lia.
  - intros b ob. destruct (decide (b = next_addr st)) as [->|Hne].
    + rewrite lookup_insert_eq. intros [= <-]. simpl. by intros [? ?].
    + rewrite lookup_insert_ne by done. apply Hfr.
  - intros b ob. destruct (decide (b = next_addr st)) as [->|Hne].
    + rewrite lookup_insert_eq. intros [= <-]. simpl. constructor.
    + rewrite lookup_insert_ne by done. apply Hk.
  - intros k p b Hget.
    assert (Hget' : node_get p (graph_of k st) = Some b) by (by destruct k).
    apply Hta in Hget'. lia.
  - intros k. destruct (Hg k) as [Hin Hte]. split.
    + intros b ob. simpl. destruct (decide (b = next_addr st)) as [->|Hne].
      * rewrite lookup_insert_eq. by intros [= <-].
      * rewrite lookup_insert_ne by done. destruct k; apply Hin.
    + intros p b ob Hget. simpl.
      assert (Hget' : node_get p (graph_of k st) = Some b) by (by destruct k).
      destruct (decide (b = next_addr st)) as [->|Hne].
      * apply Hta in Hget'. lia.
      * rewrite lookup_insert_ne by done. by apply Hte.
Qed.

Lemma wf_collect st a : wf st → wf (set_heap (delete a (heap st)) st).
Proof.
  intros [Hal Hfr Hk Hta Hg]. split; simpl.
  - intros b ob Hb. apply lookup_delete_Some in Hb as [_ Hb]. by eapply Hal.
  - intros b ob Hb. apply lookup_delete_Some in Hb as [_ Hb]. by eapply Hfr.
  - intros b ob Hb. apply lookup_delete_Some in Hb as [_ Hb]. by eapply Hk.
  - intros k p b. rewrite graph_of_set_heap. apply Hta.
  - intros k. destruct (Hg k) as [Hin Hte]. split; simpl.
    + intros b ob Hb. apply lookup_delete_Some in Hb as [_ Hb].
      rewrite graph_of_set_heap. by apply Hin.
    + intros p b ob Hget Hb. apply lookup_delete_Some in Hb as [_ Hb].
      assert (Hget' : node_get p (graph_of k st) = Some b) by (by destruct k).
      by apply (Hte p b ob).
Qed.

Lemma wf_intern k (values : list entry) st :
  wf st →
  (∀ a, node_get values (graph_of k st) = Some a → heap st !! a = None) →
  NoDup (keys values) →
  wf (intern_state k values st).
Proof.
  intros [Hal Hfr Hk Hta Hg] Hdead Hnd.
  assert (Hnone : heap st !! next_addr st = None).
  { destruct (heap st !! next_addr st) as [o|] eqn:Ho; [|done].
    apply Hal in Ho. lia. }
  unfold intern_state. split.
  - intros b ob. rewrite heap_set_graph, next_set_graph. simpl.
    destruct (decide (b = next_addr st)) as [->|Hne]; [lia |].
    rewrite lookup_insert_ne by done. intros H. apply Hal in H. lia.
  - intros b ob. rewrite heap_set_graph. simpl.
    destruct (decide (b = next_addr st)) as [->|Hne].
    + rewrite lookup_insert_eq. by intros [= <-].
    + rewrite lookup_insert_ne by done. apply Hfr.
  - intros b ob. rewrite heap_set_graph. simpl.
    destruct (decide (b = next_addr st)) as [->|Hne].
    + rewrite lookup_insert_eq. by intros [= <-].
    + rewrite lookup_insert_ne by done. apply Hk.
  - intros k' p b. rewrite next_set_graph. simpl.
    destruct (decide (k = k')) as [<-|Hkne].
    + rewrite graph_of_set_graph.
      destruct (decide (values = p)) as [<-|Hpne].
      * rewrite node_get_put. intros [= <-]. lia.
      * rewrite node_get_put_ne, node_get_touch by done.
        intros H. apply Hta in H. lia.
    + rewrite graph_of_set_graph_ne by done. intros H.
      assert (H' : node_get p (graph_of k' st) = Some b) by (by destruct k').
      apply Hta in H'. lia.
  - intros k'. destruct (Hg k') as [Hin Hte]. split.
    + intros b ob. rewrite heap_set_graph. simpl.
      destruct (decide (b = next_addr st)) as [->|Hne].
      * rewrite lookup_insert_eq. intros [= <-]. simpl. intros [= <-].
        by rewrite graph_of_set_graph, node_get_put.
      * rewrite lookup_insert_ne by done. intros Hb Hp.
        destruct (decide (k = k')) as [<-|Hkne].
        -- rewrite graph_of_set_graph.
           destruct (decide (values = fields ob)) as [Heq|Hpne].
           ++ specialize (Hin b ob Hb Hp). rewrite <- Heq in Hin.
              apply Hdead in Hin. congruence.
           ++ rewrite node_get_put_ne, node_get_touch by done. by apply Hin.
        -- rewrite graph_of_set_graph_ne by done.
           specialize (Hin b ob Hb Hp). by destruct k'.
    + intros p b ob. rewrite heap_set_graph. simpl.
      destruct (decide (k = k')) as [<-|Hkne].
      * rewrite graph_of_set_graph.
        destruct (decide (values = p)) as [<-|Hpne].
        -- rewrite node_get_put. intros [= <-]. rewrite lookup_insert_eq.
           by intros [= <-].
        -- rewrite node_get_put_ne, node_get_touch by done. intros Hget.
           assert (Hlt := Hta _ _ _ Hget).
           rewrite lookup_insert_ne by lia. by apply Hte.
      * rewrite graph_of_set_graph_ne by done. intros Hget.
        assert (Hget' : node_get p (graph_of k' st) = Some b) by (by destruct k').
        assert (Hlt := Hta _ _ _ Hget').
        rewrite lookup_insert_ne by lia. by apply Hte.
Qed.

(** ** The sort *)

Section sorting.
Context {A : Type} (cmp cmp' : A → A → Z).
Implicit Types (x : A) (l : list A).

Lemma stable_insert_perm x l : stable_insert cmp x l ≡ₚ x :: l.
Proof.
  induction l as [|y l IH]; simpl; [done |].
  destruct (cmp x y <=? 0)%Z; [done |]. rewrite IH. apply Permutation_swap.
Qed.

Lemma stable_sort_perm l : stable_sort cmp l ≡ₚ l.
Proof.
  induction l as [|x l IH]; simpl; [done |]. by rewrite stable_insert_perm, IH.
Qed.

(** Only the comparisons among the elements of the list matter. *)
Lemma stable_insert_ext x l :
  (∀ y, y ∈ l → cmp x y = cmp' x y) →
  stable_insert cmp x l = stable_insert cmp' x l.
Proof.
  induction l as [|y l IH]; intros Heq; simpl; [done |].
  rewrite (Heq y) by left. rewrite IH; [done |]. intros z Hz. apply Heq. by right.
Qed.
End sorting.

Lemma stable_sort_ext {A} (cmp1 cmp2 : A → A → Z) (l : list A) :
  (∀ x y, x ∈ l → y ∈ l → cmp1 x y = cmp2 x y) →
  stable_sort cmp1 l = stable_sort cmp2 l.
Proof.
  induction l as [|x l IH]; intros Heq; simpl; [done |].
  rewrite IH.
  - apply stable_insert_ext. intros y Hy. apply Heq; [left |].
    right. by rewrite <- (stable_sort_perm cmp2 l).
  - intros y z Hy Hz. apply Heq; by right.
Qed.

Lemma own_property_order_perm (fs : list entry) : own_property_order fs ≡ₚ fs.
Proof.
  unfold own_property_order. rewrite stable_sort_perm.
  induction fs as [|e fs IH]; simpl; [done |].
  rewrite !filter_cons. destruct (is_index e) eqn:He.
  - rewrite decide_True, decide_False by done. simpl. by rewrite IH.
  - rewrite decide_False, decide_True by done.
    rewrite <- Permutation_middle. by rewrite IH.
Qed.

Lemma keys_perm (l1 l2 : list entry) : l1 ≡ₚ l2 → keys l1 ≡ₚ keys l2.
Proof. intros H. unfold keys. by rewrite H. Qed.

(** ** The sort: when it returns and what it throws *)

Lemma Array_toString_converts hst h (e : entry) :
  converts hst h e → Array_toString hst h e = inr (entry_text hst h e).
Proof. unfold Array_toString, entry_text. by intros [t ->]. Qed.

Lemma Array_toString_fails hst h (e : entry) :
  ¬ converts hst h e →
  ∃ x, join_element hst h e.2 = inl x ∧ Array_toString hst h e = inl x.
Proof.
  unfold converts, Array_toString. destruct (join_element hst h e.2) as [x|t].
  - intros _. by exists x.
  - intros H. exfalso. apply H. by exists t.
Qed.

Lemma compare_entries_converts hst h (a b : entry) :
  converts hst h a → converts hst h b →
  compare_entries hst h a b = inr (compare_texts hst h a b).
Proof.
  intros Ha Hb. unfold compare_entries, less_than, greater_than, compare_texts.
  rewrite !(Array_toString_converts _ _ _ Ha), !(Array_toString_converts _ _ _ Hb).
  destruct (String.ltb (entry_text hst h a) (entry_text hst h b)); [done |].
  by destruct (String.ltb (entry_text hst h b) (entry_text hst h a)).
Qed.

(** A comparison throws what the first failing conversion throws. *)
Lemma compare_entries_fails hst h (a b : entry) :
  ¬ converts hst h a ∨ ¬ converts hst h b →
  ∃ x c, c ∈ [a; b] ∧ join_element hst h c.2 = inl x ∧ compare_entries hst h a b = inl x.
Proof.
  intros Hor. unfold compare_entries, less_than.
  destruct (converts_dec hst h a) as [Ha|Ha].
  - destruct Hor as [?|Hb]; [done |].
    destruct (Array_toString_fails _ _ _ Hb) as (x & Hx & Hx').
    exists x, b. rewrite (Array_toString_converts _ _ _ Ha), Hx'.
    split; [right; left | done].
  - destruct (Array_toString_fails _ _ _ Ha) as (x & Hx & Hx').
    exists x, a. rewrite Hx'. split; [left | done].
Qed.

Section sort_returns.
Context {A : Type} (comparefn : A → A → exn + Z) (cmp : A → A → Z).
Implicit Types (x : A) (l : list A).

Lemma sort_insert_returns x l :
  (∀ y, y ∈ l → comparefn x y = inr (cmp x y)) →
  sort_insert comparefn x l = inr (stable_insert cmp x l).
Proof.
  induction l as [|y l IH]; intros Heq; simpl; [done |].
  rewrite (Heq y) by left. destruct (cmp x y <=? 0)%Z; [done |].
  rewrite IH; [done |]. intros z Hz. apply Heq. by right.
Qed.

Lemma Array_sort_returns l :
  (∀ x y, x ∈ l → y ∈ l → comparefn x y = inr (cmp x y)) →
  Array_sort comparefn l = inr (stable_sort cmp l).
Proof.
  induction l as [|x l IH]; intros Heq; simpl; [done |].
  rewrite IH by (intros y z Hy Hz; apply Heq; by right).
  apply sort_insert_returns. intros y Hy. apply Heq; [left |].
  right. by rewrite <- (stable_sort_perm cmp l).
Qed.

(** What the sort throws, a comparison threw. *)
Lemma sort_insert_throws x l e :
  sort_insert comparefn x l = inl e → ∃ y, y ∈ l ∧ comparefn x y = inl e.
Proof.
  induction l as [|y l IH]; simpl; [done |].
  destruct (comparefn x y) as [e'|c] eqn:Hc.
  - intros [= <-]. exists y. split; [left | done].
  - destruct (c <=? 0)%Z; [done |].
    destruct (sort_insert comparefn x l) as [e'|s]; [|done].
    intros [= <-]. destruct (IH eq_refl) as (z & Hz & Hz'). exists z. split; [by right | done].
Qed.

Lemma sort_insert_perm x l s : sort_insert comparefn x l = inr s → s ≡ₚ x :: l.
Proof.
  revert s. induction l as [|y l IH]; intros s; simpl; [by intros [= <-] |].
  destruct (comparefn x y) as [e'|c]; [done |].
  destruct (c <=? 0)%Z; [by intros [= <-] |].
  destruct (sort_insert comparefn x l) as [e'|s']; [done |].
  intros [= <-]. rewrite (IH s' eq_refl). apply Permutation_swap.
Qed.

Lemma Array_sort_perm l s : Array_sort comparefn l = inr s → s ≡ₚ l.
Proof.
  revert s. induction l as [|x l IH]; intros s; simpl; [by intros [= <-] |].
  destruct (Array_sort comparefn l) as [e'|s']; [done |].
  intros Hs. apply sort_insert_perm in Hs. by rewrite Hs, (IH s' eq_refl).
Qed.

Lemma Array_sort_throws l e :
  Array_sort comparefn l = inl e → ∃ x y, x ∈ l ∧ y ∈ l ∧ comparefn x y = inl e.
Proof.
  induction l as [|x l IH]; simpl; [done |].
  destruct (Array_sort comparefn l) as [e'|s] eqn:Hs.
  - intros [= <-]. destruct (IH eq_refl) as (y & z & Hy & Hz & Hyz).
    exists y, z. split; [by right |]. split; [by right | done].
  - intros Hins. apply sort_insert_throws in Hins as (y & Hy & Hxy).
    exists x, y. split; [left |]. split; [|done].
    right. by rewrite <- (Array_sort_perm l s Hs).
Qed.
End sort_returns.

(** The sort goes through exactly the sortable sequences, and then it is
    the stable sort by joined text. *)
Lemma Array_sort_sortable hst h (l : list entry) :
  sortable hst h l →
  Array_sort (compare_entries hst h) l = inr (stable_sort (compare_texts hst h) l).
Proof.
  intros [Hshort|Hall].
  - destruct l as [|x [|y l]]; [done | done | simpl in Hshort; lia].
  - apply Array_sort_returns. intros x y Hx Hy. rewrite Forall_forall in Hall.
    apply compare_entries_converts; by apply Hall.
Qed.

Lemma Array_sort_unsortable hst h (l : list entry) :
  ¬ sortable hst h l →
  ∃ x c, c ∈ l ∧ join_element hst h c.2 = inl x
       ∧ Array_sort (compare_entries hst h) l = inl x.
Proof.
  induction l as [|a l IH]; intros Hns.
  - exfalso. apply Hns. left. simpl. lia.
  - simpl. destruct (Array_sort (compare_entries hst h) l) as [x|s] eqn:Hs.
    + destruct (Array_sort_throws _ _ _ Hs) as (y & z & Hy & Hz & Hyz).
      assert (Hfail : ¬ converts hst h y ∨ ¬ converts hst h z).
      { destruct (converts_dec hst h y) as [Hy'|]; [|by left].
        destruct (converts_dec hst h z) as [Hz'|]; [|by right].
        by rewrite compare_entries_converts in Hyz. }
      destruct (compare_entries_fails _ _ _ _ Hfail) as (x' & c & Hc & Hx' & Hcmp).
      rewrite Hyz in Hcmp. injection Hcmp as <-.
      exists x, c. split; [|done]. right.
      apply elem_of_cons in Hc as [->|Hc]; [done |].
      by apply list_elem_of_singleton in Hc as ->.
    + assert (Hperm := Array_sort_perm _ _ _ Hs).
      destruct s as [|b s].
      { apply Permutation_nil in Hperm. subst l. exfalso. apply Hns. left. simpl. lia. }
      simpl.
      assert (Hfail : ¬ converts hst h a ∨ ¬ converts hst h b).
      { destruct (converts_dec hst h a) as [Ha|]; [|by left].
        destruct (converts_dec hst h b) as [Hb|]; [|by right].
        exfalso. destruct (decide (List.length l ≤ 1)) as [Hshort|Hlong].
        - apply Hns. right. constructor; [done |].
          destruct l as [|b' [|c l]]; [done | | simpl in Hshort; lia].
          apply Permutation_singleton_r in Hperm. injection Hperm as -> ->.
          by constructor.
        - destruct (decide (Forall (converts hst h) l)) as [Hall|Hnall].
          + apply Hns. right. by constructor.
          + assert (Hnsl : ¬ sortable hst h l) by (intros [?|?]; done).
            destruct (IH Hnsl) as (x & c & _ & _ & Hx). congruence. }
      destruct (compare_entries_fails _ _ _ _ Hfail) as (x & c & Hc & Hx & Hcmp).
      rewrite Hcmp. exists x, c. split; [|done].
      apply elem_of_cons in Hc as [->|Hc]; [left |].
      apply list_elem_of_singleton in Hc as ->. right. rewrite <- Hperm. left.
Qed.

Lemma sortable_dec hst h (l : list entry) : {sortable hst h l} + {¬ sortable hst h l}.
Proof.
  destruct (decide (List.length l ≤ 1)) as [Hshort|Hlong]; [left; by left |].
  destruct (decide (Forall (converts hst h) l)) as [Hall|Hnall]; [left; by right |].
  right. by intros [?|?].
Qed.

Lemma sortable_perm hst h (l l' : list entry) :
  l ≡ₚ l' → sortable hst h l → sortable hst h l'.
Proof.
  intros Hperm [Hshort|Hall].
  - left. by rewrite <- Hperm.
  - right. by rewrite <- Hperm.
Qed.

(** A value that converts has the text the sort compares. *)
Lemma entry_text_converts hst h (e : entry) t :
  join_element hst h e.2 = inr t → entry_text hst h e = e.1 +:+ "," +:+ t.
Proof. unfold entry_text. by intros ->. Qed.

(** ** The steps of [createRecordFromObject] *)

Lemma assertFeatures_ok st :
  capable (host st) = true → assertFeatures st = (inr tt, st).
Proof.
  unfold capable, assertFeatures. intros H.
  apply andb_prop in H as [H H3]. apply andb_prop in H as [H1 H2].
  by rewrite H1, H2, H3.
Qed.

Lemma assertFeatures_missing st :
  capable (host st) = false →
  ∃ feature, assertFeatures st = (inl (CapabilityMissing feature), st).
Proof.
  unfold capable, assertFeatures. intros H.
  destruct (weak_references (host st)); simpl in *; [|by eexists].
  destruct (freezing (host st)); simpl in *; [|by eexists].
  destruct (identity_comparison (host st)); simpl in *; [done | by eexists].
Qed.

Lemma Object_entries_eq v st : Object_entries v st = (inr (source_entries st v), st).
Proof.
  unfold Object_entries, source_entries. destruct v; try done.
  by destruct (heap st !! a).
Qed.

Lemma validateProperty_ok st v :
  classify (heap st) v ≠ Invalid → validateProperty v st = (inr v, st).
Proof. unfold validateProperty. by destruct (classify (heap st) v). Qed.

Lemma validateProperty_invalid st v :
  classify (heap st) v = Invalid → validateProperty v st = (inl (InvalidEntry None v), st).
Proof. unfold validateProperty. by intros ->. Qed.

Lemma classify_dec h v : {classify h v = Invalid} + {classify h v ≠ Invalid}.
Proof. destruct (classify h v); [right | right | left]; done. Qed.

Lemma validate_all_ok st (l : list entry) :
  Forall (valid_in (heap st)) l →
  map_M (λ '(name, value), let* v := validateProperty value in ret (name, v)) l st
  = (inr l, st).
Proof.
  induction l as [|[k v] l IH]; intros Hval; simpl; [done |].
  apply Forall_cons in Hval as [Hv Hval].
  erewrite bind_ok; [|erewrite bind_ok by (by apply validateProperty_ok); reflexivity].
  erewrite bind_ok by (by apply IH). done.
Qed.

Lemma validate_all_invalid st (pre post : list entry) e :
  Forall (valid_in (heap st)) pre → ¬ valid_in (heap st) e →
  map_M (λ '(name, value), let* v := validateProperty value in ret (name, v))
        (pre ++ e :: post) st
  = (inl (InvalidEntry None e.2), st).
Proof.
  induction pre as [|[k v] pre IH]; intros Hval Hinv; simpl.
  - destruct e as [k v]. unfold valid_in in Hinv. simpl in *.
    erewrite bind_err; [done |].
    erewrite bind_err; [done |]. apply validateProperty_invalid.
    by destruct (classify_dec (heap st) v).
  - apply Forall_cons in Hval as [Hv Hval].
    erewrite bind_ok; [|erewrite bind_ok by (by apply validateProperty_ok); reflexivity].
    erewrite bind_err by (by apply IH). done.
Qed.

(** Either every entry validates, or there is a first one that does not. *)
Lemma first_invalid h (l : list entry) :
  Forall (valid_in h) l ∨
  ∃ pre e post, l = pre ++ e :: post ∧ Forall (valid_in h) pre ∧ ¬ valid_in h e.
Proof.
  induction l as [|e l IH]; [by left |].
  destruct (classify_dec h e.2) as [Hinv|Hv].
  - right. exists [], e, l. split; [done |]. split; [done |]. unfold valid_in. by intros ?.
  - destruct IH as [Hall|(pre & e' & post & -> & Hpre & He')].
    + left. by constructor.
    + right. exists (e :: pre), e', post. split; [done |]. split; [by constructor | done].
Qed.

Lemma Record_incapable v st :
  capable (host st) = false →
  ∃ feature, Record v st = (inl (CapabilityMissing feature), st).
Proof.
  intros H. destruct (assertFeatures_missing st H) as [f Hf]. exists f.
  unfold Record, createRecordFromObject. by erewrite bind_err.
Qed.

Lemma Record_not_object v st :
  capable (host st) = true → isObject v = false →
  Record v st = (inl (Error "invalid value, expected object argument"), st).
Proof.
  intros Hcap Hobj. unfold Record, createRecordFromObject.
  erewrite bind_ok by (by apply assertFeatures_ok). by rewrite Hobj.
Qed.

Lemma Record_normalized v st :
  capable (host st) = true → isObject v = true →
  sortable (host st) (heap st) (source_entries st v) →
  Record v st
  = (let* properties :=
       map_M (λ '(name, value), let* v := validateProperty value in ret (name, v))
             (record_properties st v) in
     InternGraph_get KRecord createFreshRecordFromProperties properties) st.
Proof.
  intros Hcap Hobj Hsort. unfold Record, createRecordFromObject.
  erewrite bind_ok by (by apply assertFeatures_ok). rewrite Hobj. simpl.
  erewrite bind_ok by apply Object_entries_eq.
  erewrite bind_ok; [done |]. unfold reading. by rewrite Array_sort_sortable.
Qed.

(** When the sort throws, [Record] throws that, before any value is
    validated and before the graph is consulted. *)
Lemma Record_unsortable v st :
  capable (host st) = true → isObject v = true →
  ¬ sortable (host st) (heap st) (source_entries st v) →
  ∃ x c, c ∈ source_entries st v ∧ join_element (host st) (heap st) c.2 = inl x
       ∧ Record v st = (inl x, st).
Proof.
  intros Hcap Hobj Hsort.
  destruct (Array_sort_unsortable _ _ _ Hsort) as (x & c & Hc & Hx & Hthrow).
  exists x, c. split; [done |]. split; [done |].
  unfold Record, createRecordFromObject.
  erewrite bind_ok by (by apply assertFeatures_ok). rewrite Hobj. simpl.
  erewrite bind_ok by apply Object_entries_eq.
  erewrite bind_err; [done |]. unfold reading. by rewrite Hthrow.
Qed.

Lemma Record_valid v st :
  capable (host st) = true → isObject v = true →
  sortable (host st) (heap st) (source_entries st v) →
  Forall (valid_in (heap st)) (record_properties st v) →
  Record v st
  = InternGraph_get KRecord createFreshRecordFromProperties (record_properties st v) st.
Proof.
  intros Hcap Hobj Hsort Hval. rewrite Record_normalized by done.
  by erewrite bind_ok by (by apply validate_all_ok).
Qed.

Lemma Record_invalid v st (pre post : list entry) e :
  capable (host st) = true → isObject v = true →
  sortable (host st) (heap st) (source_entries st v) →
  record_properties st v = pre ++ e :: post →
  Forall (valid_in (heap st)) pre → ¬ valid_in (heap st) e →
  Record v st = (inl (InvalidEntry None e.2), st).
Proof.
  intros Hcap Hobj Hsort Hp Hpre He. rewrite Record_normalized by done.
  rewrite Hp. by erewrite bind_err by (by apply validate_all_invalid).
Qed.

Lemma record_properties_keys st v :
  wf st → NoDup (keys (record_properties st v)).
Proof.
  intros Hwf. unfold record_properties.
  rewrite (keys_perm _ _ (stable_sort_perm _ _)). unfold source_entries.
  destruct v; try apply NoDup_nil_2.
  destruct (heap st !! a) as [o|] eqn:Ho; [|apply NoDup_nil_2].
  rewrite (keys_perm _ _ (own_property_order_perm _)). by eapply keys_unique.
Qed.

Lemma wf_next_free st : wf st → heap st !! next_addr st = None.
Proof.
  intros Hwf. destruct (heap st !! next_addr st) as [o|] eqn:Ho; [|done].
  apply (allocated _ Hwf) in Ho. lia.
Qed.

Lemma object_eta o : Object (fields o) (frozen o) (provenance o) = o.
Proof. by destruct o. Qed.

(** The outcome of a graph lookup in a well-formed state: the live
    canonical composite as is, or a fresh one. *)
Lemma get_cases k (values : list entry) st :
  wf st → Forall (valid_in (heap st)) values → NoDup (keys values) →
  (∃ a, InternGraph_get k (creator_of k) values st = (inr a, st)
        ∧ heap st !! a = Some (Object values true (Some k)))
  ∨ (InternGraph_get k (creator_of k) values st
       = (inr (next_addr st), intern_state k values st)
     ∧ ∀ a, node_get values (graph_of k st) = Some a → heap st !! a = None).
Proof.
  intros Hwf Hval Hnd.
  destruct (node_get values (graph_of k st)) as [a|] eqn:Hget.
  - destruct (heap st !! a) as [o|] eqn:Ho.
    + left. exists a. split; [by apply get_hit |].
      destruct (terminal_entries _ _ (graphs_wf _ Hwf k) _ _ _ Hget Ho) as [Hp Hf].
      assert (Hfr := composites_frozen _ Hwf _ _ Ho). rewrite Hp in Hfr.
      destruct o as [fs fr pv]. simpl in *. subst fs pv.
      assert (fr = true) as -> by (apply Hfr; by eexists). done.
    + right. assert (Hd : ∀ b, Some a = Some b → heap st !! b = None)
        by (by intros b [= <-]).
      split; [|done]. apply get_miss; try done.
      * rewrite Hget. done.
      * by rewrite wf_next_free.
  - right. split; [|done]. apply get_miss; try done.
    + by rewrite Hget.
    + by rewrite wf_next_free.
Qed.

Lemma Record_cases v st :
  wf st →
  (∃ e, Record v st = (inl e, st))
  ∨ (∃ a, Record v st = (inr a, st)
          ∧ heap st !! a = Some (Object (record_properties st v) true (Some KRecord))
          ∧ normalizes st v)
  ∨ (Record v st
       = (inr (next_addr st), intern_state KRecord (record_properties st v) st)
     ∧ (∀ a, node_get (record_properties st v) (RECORD_GRAPH st) = Some a →
             heap st !! a = None)
     ∧ normalizes st v).
Proof.
  intros Hwf.
  destruct (capable (host st)) eqn:Hcap; cycle 1.
  { left. destruct (Record_incapable v st Hcap) as [f Hf]. by eexists. }
  destruct (isObject v) eqn:Hobj; cycle 1.
  { left. eexists. by apply Record_not_object. }
  destruct (sortable_dec (host st) (heap st) (source_entries st v)) as [Hsort|Hsort];
    cycle 1.
  { left. destruct (Record_unsortable v st Hcap Hobj Hsort) as (x & _ & _ & _ & Hx).
    by eexists. }
  destruct (first_invalid (heap st) (record_properties st v))
    as [Hval|(pre & e & post & Hp & Hpre & He)]; cycle 1.
  { left. eexists. by eapply Record_invalid. }
  right. rewrite Record_valid by done.
  destruct (get_cases KRecord (record_properties st v) st Hwf Hval
              (record_properties_keys st v Hwf)) as [(a & Hget & Ha)|[Hget Hdead]].
  - left. exists a. by repeat split.
  - right. by repeat split.
Qed.

(** ** Tuples *)

Lemma normalize_tuple_ok i (values : list value) st :
  Forall (λ v, classify (heap st) v ≠ Invalid) values →
  normalize_tuple i values st = (inr (tuple_entries i values), st).
Proof.
  revert i. induction values as [|v values IH]; intros i Hval; simpl; [done |].
  apply Forall_cons in Hval as [Hv Hval].
  erewrite bind_ok by reflexivity.
  destruct (classify (heap st) v) eqn:Hc; [| |done].
  all: by erewrite bind_ok by (by apply IH).
Qed.

Lemma normalize_tuple_invalid i (pre post : list value) x st :
  Forall (λ v, classify (heap st) v ≠ Invalid) pre →
  classify (heap st) x = Invalid →
  normalize_tuple i (pre ++ x :: post) st
  = (inl (InvalidEntry (Some (AtIndex (i + List.length pre))) x), st).
Proof.
  revert i. induction pre as [|v pre IH]; intros i Hval Hx; simpl.
  - erewrite bind_ok by reflexivity. rewrite Hx. unfold throw.
    by rewrite Nat.add_0_r.
  - apply Forall_cons in Hval as [Hv Hval].
    erewrite bind_ok by reflexivity.
    destruct (classify (heap st) v) eqn:Hc; [| |done].
    all: erewrite bind_err by (by apply IH).
    all: by rewrite Nat.add_succ_r.
Qed.

Lemma first_invalid_value h (l : list value) :
  Forall (λ v, classify h v ≠ Invalid) l ∨
  ∃ pre x post, l = pre ++ x :: post
    ∧ Forall (λ v, classify h v ≠ Invalid) pre ∧ classify h x = Invalid.
Proof.
  induction l as [|x l IH]; [by left |].
  destruct (classify_dec h x) as [Hinv|Hv].
  - right. by exists [], x, l.
  - destruct IH as [Hall|(pre & x' & post & -> & Hpre & Hx')].
    + left. by constructor.
    + right. exists (x :: pre), x', post. split; [done |]. split; [by constructor | done].
Qed.

Lemma tuple_entries_valid h i (values : list value) :
  Forall (λ v, classify h v ≠ Invalid) values →
  Forall (valid_in h) (tuple_entries i values).
Proof.
  revert i. induction values as [|v values IH]; intros i Hval; simpl; [done |].
  apply Forall_cons in Hval as [Hv Hval]. constructor; [done | by apply IH].
Qed.

Lemma tuple_entries_key i (values : list value) name :
  name ∈ keys (tuple_entries i values) → ∃ m, i ≤ m ∧ name = pretty m.
Proof.
  revert i. induction values as [|v values IH]; intros i; simpl.
  - by intros ?%elem_of_nil.
  - intros [->|Hin]%elem_of_cons.
    + by exists i.
    + destruct (IH _ Hin) as (m & Hm & ->). exists m. split; [lia | done].
Qed.

Lemma tuple_entries_keys i (values : list value) : NoDup (keys (tuple_entries i values)).
Proof.
  revert i. induction values as [|v values IH]; intros i; simpl.
  - apply NoDup_nil_2.
  - apply NoDup_cons_2; [|apply IH].
    intros (m & Hm & Heq)%tuple_entries_key. apply (inj pretty) in Heq. lia.
Qed.

Lemma Tuple_incapable values st :
  capable (host st) = false →
  ∃ feature, Tuple values st = (inl (CapabilityMissing feature), st).
Proof.
  intros H. destruct (assertFeatures_missing st H) as [f Hf]. exists f.
  unfold Tuple. by erewrite bind_err.
Qed.

Lemma Tuple_valid (values : list value) st :
  capable (host st) = true →
  Forall (λ v, classify (heap st) v ≠ Invalid) values →
  Tuple values st
  = InternGraph_get KTuple createFreshTupleFromEntries (tuple_entries 0 values) st.
Proof.
  intros Hcap Hval. unfold Tuple.
  erewrite bind_ok by (by apply assertFeatures_ok).
  by erewrite bind_ok by (by apply normalize_tuple_ok).
Qed.

Lemma Tuple_invalid (pre post : list value) x st :
  capable (host st) = true →
  Forall (λ v, classify (heap st) v ≠ Invalid) pre →
  classify (heap st) x = Invalid →
  Tuple (pre ++ x :: post) st
  = (inl (InvalidEntry (Some (AtIndex (List.length pre))) x), st).
Proof.
  intros Hcap Hpre Hx. unfold Tuple.
  erewrite bind_ok by (by apply assertFeatures_ok).
  by erewrite bind_err by (by apply normalize_tuple_invalid).
Qed.

Lemma Tuple_cases (values : list value) st :
  wf st →
  (∃ e, Tuple values st = (inl e, st))
  ∨ (∃ a, Tuple values st = (inr a, st)
          ∧ heap st !! a = Some (Object (tuple_entries 0 values) true (Some KTuple))
          ∧ capable (host st) = true)
  ∨ (Tuple values st
       = (inr (next_addr st), intern_state KTuple (tuple_entries 0 values) st)
     ∧ (∀ a, node_get (tuple_entries 0 values) (TUPLE_GRAPH st) = Some a →
             heap st !! a = None)
     ∧ capable (host st) = true).
Proof.
  intros Hwf.
  destruct (capable (host st)) eqn:Hcap; cycle 1.
  { left. destruct (Tuple_incapable values st Hcap) as [f Hf]. by eexists. }
  destruct (first_invalid_value (heap st) values)
    as [Hval|(pre & x & post & -> & Hpre & Hx)]; cycle 1.
  { left. eexists. by apply Tuple_invalid. }
  right. rewrite Tuple_valid by done.
  destruct (get_cases KTuple (tuple_entries 0 values) st Hwf
              (tuple_entries_valid _ _ _ Hval) (tuple_entries_keys _ _))
    as [(a & Hget & Ha)|[Hget Hdead]].
  - left. exists a. by repeat split.
  - right. by repeat split.
Qed.

(** ** Building host objects *)

Lemma assign_loop r (props acc : list entry) st :
  heap st !! r = Some (Object acc false None) →
  for_each (λ '(name, value), set_property true r name value) props st
  = (inr tt, set_heap (<[r := Object (assign_all props acc) false None]> (heap st)) st).
Proof.
  revert acc st. induction props as [|[k v] props IH]; intros acc st Hr; simpl.
  - unfold ret. by rewrite insert_id, set_heap_id.
  - erewrite bind_ok by (unfold set_property; by rewrite Hr).
    rewrite (IH (field_set k v acc)); simpl.
    + by rewrite insert_insert_eq.
    + by rewrite lookup_insert_eq.
Qed.

Lemma objectFromEntries_eq (iterator : list entry) st :
  objectFromEntries iterator st
  = (inr (VObject (next_addr st)), object_state iterator st).
Proof.
  unfold objectFromEntries. erewrite bind_ok by reflexivity.
  erewrite bind_ok.
  2:{ apply (assign_loop _ _ []). simpl. by rewrite lookup_insert_eq. }
  unfold ret, set_heap, object_state. simpl. by rewrite insert_insert_eq.
Qed.

Lemma keys_field_set name v (fs : list entry) :
  keys (field_set name v fs)
  = if decide (name ∈ keys fs) then keys fs else keys fs ++ [name].
Proof.
  induction fs as [|[k w] fs IH]; simpl; [done |].
  destruct (decide (name = k)) as [->|Hne]; simpl.
  - rewrite decide_True; [done | left].
  - rewrite IH. destruct (decide (name ∈ keys fs)) as [Hin|Hnin].
    + rewrite decide_True; [done | by right].
    + rewrite decide_False; [done |]. by intros [?|?]%elem_of_cons.
Qed.

Lemma field_set_keys name v (fs : list entry) :
  NoDup (keys fs) → NoDup (keys (field_set name v fs)).
Proof.
  intros Hnd. rewrite keys_field_set. destruct (decide (name ∈ keys fs)); [done |].
  apply NoDup_app. split; [done |]. split; [|apply NoDup_singleton].
  intros x Hx ->%list_elem_of_singleton. done.
Qed.

Lemma assign_all_keys (props acc : list entry) :
  NoDup (keys acc) → NoDup (keys (assign_all props acc)).
Proof.
  revert acc. induction props as [|[k v] props IH]; intros acc Hnd; [done |].
  apply IH. by apply field_set_keys.
Qed.

Lemma field_delete_keys name (fs : list entry) :
  NoDup (keys fs) → NoDup (keys (field_delete name fs)).
Proof.
  unfold field_delete, keys. induction fs as [|[k w] fs IH]; simpl; [done |].
  intros [Hnin Hnd]%NoDup_cons. rewrite filter_cons.
  destruct (decide ((k, w).1 ≠ name)); [|by apply IH].
  simpl. apply NoDup_cons_2; [|by apply IH].
  intros Hin. apply Hnin. apply list_elem_of_fmap in Hin as (e & -> & He).
  apply list_elem_of_fmap. exists e. split; [done |].
  by apply list_elem_of_filter in He as [_ He].
Qed.

Lemma wf_object_state (iterator : list entry) st : wf st → wf (object_state iterator st).
Proof.
  intros Hwf. apply wf_alloc in Hwf.
  eapply (wf_update_plain _ (next_addr st) _ (assign_all iterator []) false) in Hwf.
  - unfold set_heap in Hwf. simpl in Hwf. by rewrite insert_insert_eq in Hwf.
  - simpl. by rewrite lookup_insert_eq.
  - done.
  - apply assign_all_keys. apply NoDup_nil_2.
Qed.

(** ** How states evolve *)

Lemma evolves_refl st : evolves st st.
Proof. split; auto. Qed.

Lemma evolves_trans st st' st'' :
  wf st → evolves st st' → evolves st' st'' → evolves st st''.
Proof.
  intros Hwf [Hh1 Hn1 Hf1 Hd1] [Hh2 Hn2 Hf2 Hd2]. split.
  - congruence.
  - lia.
  - intros a o Ha Hfr. destruct (Hf1 a o Ha Hfr) as [H|H]; [by apply Hf2 |].
    right. apply Hd2; [|done]. apply (allocated _ Hwf) in Ha. lia.
  - intros a Ha Hnone. apply Hd2; [lia | by apply Hd1].
Qed.

Lemma evolves_set_graph k g st st' : evolves st st' → evolves st (set_graph k g st').
Proof.
  intros [Hh Hn Hf Hd].
  split; rewrite ?host_set_graph, ?next_set_graph; try done.
  - intros a o. rewrite heap_set_graph. apply Hf.
  - intros a. rewrite heap_set_graph. apply Hd.
Qed.

Lemma evolves_alloc st o' :
  wf st →
  evolves st (State (<[next_addr st := o']> (heap st)) (S (next_addr st))
                    (RECORD_GRAPH st) (TUPLE_GRAPH st) (host st)).
Proof.
  intros Hwf. split; simpl; [done | lia | |].
  - intros a o Ha _. left. apply (allocated _ Hwf) in Ha as Hlt.
    by rewrite lookup_insert_ne by lia.
  - intros a Hlt Ha. by rewrite lookup_insert_ne by lia.
Qed.

Lemma evolves_update st a o o' :
  heap st !! a = Some o → frozen o = false ∨ o' = o →
  evolves st (set_heap (<[a := o']> (heap st)) st).
Proof.
  intros Ha Hnot. split; simpl; [done | lia | |].
  - intros b ob Hb Hfr. left. destruct (decide (b = a)) as [->|Hne].
    + rewrite lookup_insert_eq. destruct Hnot as [Hnot| ->]; congruence.
    + by rewrite lookup_insert_ne.
  - intros b _ Hb. rewrite lookup_insert_ne; [done |]. congruence.
Qed.

Lemma evolves_collect st a : evolves st (set_heap (delete a (heap st)) st).
Proof.
  split; simpl; [done | lia | |].
  - intros b ob Hb _. destruct (decide (b = a)) as [->|Hne].
    + right. apply lookup_delete_eq.
    + left. by rewrite lookup_delete_ne.
  - intros b _ Hb. destruct (decide (b = a)) as [->|Hne].
    + apply lookup_delete_eq.
    + by rewrite lookup_delete_ne.
Qed.

Lemma evolves_intern k (values : list entry) st :
  wf st → evolves st (intern_state k values st).
Proof. intros Hwf. apply evolves_set_graph. by apply evolves_alloc. Qed.

Lemma evolves_object_state (iterator : list entry) st :
  wf st → evolves st (object_state iterator st).
Proof. intros Hwf. by apply evolves_alloc. Qed.

(** ** Every operation keeps the state well-formed *)

Lemma discard_state {A} (m : M A) st : (discard m st).2 = (m st).2.
Proof. unfold discard, bind, ret. by destruct (m st) as [[e|x] st']. Qed.

Lemma Record_sound v st :
  wf st → wf (Record v st).2 ∧ evolves st (Record v st).2.
Proof.
  intros Hwf.
  destruct (Record_cases v st Hwf)
    as [[e ->]|[(a & -> & _)|(-> & Hdead & _)]]; cbn [snd].
  - split; [done | apply evolves_refl].
  - split; [done | apply evolves_refl].
  - split; [|by apply evolves_intern].
    apply wf_intern; [done | done |]. by apply record_properties_keys.
Qed.

Lemma Tuple_sound (values : list value) st :
  wf st → wf (Tuple values st).2 ∧ evolves st (Tuple values st).2.
Proof.
  intros Hwf.
  destruct (Tuple_cases values st Hwf)
    as [[e ->]|[(a & -> & _)|(-> & Hdead & _)]]; cbn [snd].
  - split; [done | apply evolves_refl].
  - split; [done | apply evolves_refl].
  - split; [|by apply evolves_intern].
    apply wf_intern; [done | done |]. apply tuple_entries_keys.
Qed.

Lemma Record_fromEntries_eq (iterator : list entry) st :
  Record_fromEntries iterator st
  = Record (VObject (next_addr st)) (object_state iterator st).
Proof.
  unfold Record_fromEntries. by erewrite bind_ok by apply objectFromEntries_eq.
Qed.

Lemma plain_of_unfrozen st a o :
  wf st → heap st !! a = Some o → frozen o = false → provenance o = None.
Proof.
  intros Hwf Ha Hfr. destruct (provenance o) as [k|] eqn:Hp; [|done].
  assert (frozen o = true); [|congruence].
  eapply composites_frozen; [done | done |]. rewrite Hp. by eexists.
Qed.

Lemma exec_sound o st : wf st → wf (exec o st).2 ∧ evolves st (exec o st).2.
Proof.
  intros Hwf. destruct o as [v|it|vs|props|strict a name v|strict a name|a|a]; simpl.
  - rewrite discard_state. by apply Record_sound.
  - rewrite discard_state, Record_fromEntries_eq.
    assert (Hwf1 := wf_object_state it st Hwf).
    destruct (Record_sound (VObject (next_addr st)) _ Hwf1) as [Hwf2 Hev].
    split; [done |]. eapply evolves_trans; [done | |exact Hev].
    by apply evolves_object_state.
  - rewrite discard_state. by apply Tuple_sound.
  - rewrite discard_state, objectFromEntries_eq. simpl.
    split; [by apply wf_object_state | by apply evolves_object_state].
  - unfold set_property. destruct (heap st !! a) as [ob|] eqn:Ha; simpl.
    2:{ split; [done | apply evolves_refl]. }
    destruct (frozen ob) eqn:Hfr; simpl.
    { destruct strict; simpl; (split; [done | apply evolves_refl]). }
    split.
    + rewrite (plain_of_unfrozen st a ob) by done.
      eapply wf_update_plain; [done | done | by eapply plain_of_unfrozen |].
      apply field_set_keys. by eapply keys_unique.
    + eapply evolves_update; [done | by left].
  - unfold delete_property. destruct (heap st !! a) as [ob|] eqn:Ha; simpl.
    2:{ split; [done | apply evolves_refl]. }
    destruct (frozen ob) eqn:Hfr; simpl.
    { destruct (field_lookup name (fields ob)), strict; simpl;
        (split; [done | apply evolves_refl]). }
    split.
    + rewrite (plain_of_unfrozen st a ob) by done.
      eapply wf_update_plain; [done | done | by eapply plain_of_unfrozen |].
      apply field_delete_keys. by eapply keys_unique.
    + eapply evolves_update; [done | by left].
  - unfold Object_freeze. destruct (heap st !! a) as [ob|] eqn:Ha; simpl.
    2:{ split; [done | apply evolves_refl]. }
    destruct (frozen ob) eqn:Hfr.
    { rewrite <- Hfr, object_eta, insert_id, set_heap_id by done.
      split; [done | apply evolves_refl]. }
    split.
    + rewrite (plain_of_unfrozen st a ob) by done.
      eapply wf_update_plain; [done | done | by eapply plain_of_unfrozen |].
      by eapply keys_unique.
    + eapply evolves_update; [done | by left].
  - unfold collect. simpl. split; [by apply wf_collect | apply evolves_collect].
Qed.

Lemma run_app (ops ops' : list op) st : run (ops ++ ops') st = run ops' (run ops st).
Proof. unfold run. by rewrite fold_left_app. Qed.

Lemma run_sound (ops : list op) st : wf st → wf (run ops st) ∧ evolves st (run ops st).
Proof.
  revert st. induction ops as [|o ops IH]; intros st Hwf; simpl.
  - split; [done | apply evolves_refl].
  - destruct (exec_sound o st Hwf) as [Hwf1 Hev1].
    destruct (IH _ Hwf1) as [Hwf2 Hev2].
    split; [done |]. by eapply evolves_trans.
Qed.

Lemma reachable_wf st : reachable st → wf st.
Proof. intros (hst & ops & ->). apply run_sound, wf_init. Qed.

Lemma reachable_run (ops : list op) st : reachable st → reachable (run ops st).
Proof.
  intros (hst & ops0 & ->). exists hst, (ops0 ++ ops). by rewrite run_app.
Qed.

Lemma wf_canonical st : wf st → canonical st.
Proof.
  intros Hwf k a b oa ob Ha Hb Hka Hkb. split; [|by intros <-; congruence].
  intros Heq.
  assert (H1 := interned _ _ (graphs_wf _ Hwf k) _ _ Ha Hka).
  assert (H2 := interned _ _ (graphs_wf _ Hwf k) _ _ Hb Hkb).
  rewrite Heq in H1. congruence.
Qed.

(** ** What a successful construction returns *)

Lemma classify_fresh (h : gmap nat object) n o v :
  h !! n = None → classify h v ≠ Invalid → classify (<[n := o]> h) v = classify h v.
Proof.
  intros Hn Hv. destruct v as [| | | | | |a]; simpl in *; try done.
  destruct (decide (a = n)) as [->|Hne].
  - by rewrite Hn in Hv.
  - by rewrite lookup_insert_ne.
Qed.

Lemma join_element_fresh hst (h : gmap nat object) n o e :
  h !! n = None → valid_in h e →
  join_element hst (<[n := o]> h) e.2 = join_element hst h e.2.
Proof.
  intros Hn Hv. unfold valid_in in Hv.
  destruct e as [k [| | | | | |a]]; simpl in *; try done.
  assert (Hne : a ≠ n) by (intros ->; by rewrite Hn in Hv).
  unfold OrdinaryToPrimitive, own_property, object_string.
  by rewrite (lookup_insert_ne h n a o) by done.
Qed.

Lemma entry_text_fresh hst (h : gmap nat object) n o e :
  h !! n = None → valid_in h e → entry_text hst (<[n := o]> h) e = entry_text hst h e.
Proof. intros Hn Hv. unfold entry_text. by rewrite join_element_fresh. Qed.

Lemma sort_fresh hst (h : gmap nat object) n o (l : list entry) :
  h !! n = None → Forall (valid_in h) l →
  stable_sort (compare_texts hst (<[n := o]> h)) l = stable_sort (compare_texts hst h) l.
Proof.
  intros Hn Hval. apply stable_sort_ext. intros x y Hx Hy.
  rewrite Forall_forall in Hval. unfold compare_texts.
  by rewrite !entry_text_fresh by auto.
Qed.

Lemma sortable_fresh hst (h : gmap nat object) n o (l : list entry) :
  h !! n = None → Forall (valid_in h) l →
  sortable hst h l → sortable hst (<[n := o]> h) l.
Proof.
  intros Hn Hval [Hshort|Hall]; [by left | right].
  rewrite Forall_forall in Hval, Hall. apply Forall_forall. intros e He.
  unfold converts. rewrite join_element_fresh by auto. by apply Hall.
Qed.

Lemma valid_fresh (h : gmap nat object) n o (l : list entry) :
  h !! n = None → Forall (valid_in h) l → Forall (valid_in (<[n := o]> h)) l.
Proof.
  intros Hn Hval. eapply Forall_impl; [exact Hval |].
  intros e He. unfold valid_in in *. by rewrite classify_fresh.
Qed.

Lemma Record_returns v st a st1 :
  wf st → Record v st = (inr a, st1) →
  normalizes st v
  ∧ heap st1 !! a = Some (Object (record_properties st v) true (Some KRecord))
  ∧ node_get (record_properties st v) (RECORD_GRAPH st1) = Some a
  ∧ (st1 = st ∨ (a = next_addr st
                 ∧ st1 = intern_state KRecord (record_properties st v) st)).
Proof.
  intros Hwf Hrec.
  destruct (Record_cases v st Hwf)
    as [[e He]|[(b & Hb & Hobj & Hnorm)|(Hb & Hdead & Hnorm)]];
    rewrite Hrec in *; simplify_eq.
  - split; [done |]. split; [done |]. split; [|by left].
    by apply (interned _ _ (graphs_wf _ Hwf KRecord) _ _ Hobj).
  - split; [done |]. unfold intern_state. simpl.
    rewrite lookup_insert_eq, node_get_put. split; [done |]. split; [done |]. by right.
Qed.

Lemma Record_again v st a :
  wf st → normalizes st v →
  heap st !! a = Some (Object (record_properties st v) true (Some KRecord)) →
  Record v st = (inr a, st).
Proof.
  intros Hwf (Hcap & Hobj & Hsort & Hval) Ha. rewrite Record_valid by done.
  apply get_hit; [|by eexists].
  by apply (interned _ _ (graphs_wf _ Hwf KRecord) _ _ Ha).
Qed.

Lemma Tuple_returns (values : list value) st a st1 :
  wf st → Tuple values st = (inr a, st1) →
  capable (host st) = true
  ∧ heap st1 !! a = Some (Object (tuple_entries 0 values) true (Some KTuple))
  ∧ node_get (tuple_entries 0 values) (TUPLE_GRAPH st1) = Some a
  ∧ (st1 = st ∨ (a = next_addr st
                 ∧ st1 = intern_state KTuple (tuple_entries 0 values) st)).
Proof.
  intros Hwf Htup.
  destruct (Tuple_cases values st Hwf)
    as [[e He]|[(b & Hb & Hobj & Hcap)|(Hb & Hdead & Hcap)]];
    rewrite Htup in *; simplify_eq.
  - split; [done |]. split; [done |]. split; [|by left].
    by apply (interned _ _ (graphs_wf _ Hwf KTuple) _ _ Hobj).
  - split; [done |]. unfold intern_state. simpl.
    rewrite lookup_insert_eq, node_get_put. split; [done |]. split; [done |]. by right.
Qed.

Lemma Tuple_again (values : list value) st a :
  wf st → capable (host st) = true →
  Forall (λ v, classify (heap st) v ≠ Invalid) values →
  heap st !! a = Some (Object (tuple_entries 0 values) true (Some KTuple)) →
  Tuple values st = (inr a, st).
Proof.
  intros Hwf Hcap Hval Ha. rewrite Tuple_valid by done.
  apply get_hit; [|by eexists].
  by apply (interned _ _ (graphs_wf _ Hwf KTuple) _ _ Ha).
Qed.

Lemma heap_intern_state k (values : list entry) st :
  heap (intern_state k values st)
  = <[next_addr st := Object values true (Some k)]> (heap st).
Proof. unfold intern_state. by rewrite heap_set_graph. Qed.

Lemma source_entries_intern (values : list entry) v st :
  wf st → values = [] ∨ v ≠ VObject (next_addr st) →
  source_entries (intern_state KRecord values st) v = source_entries st v.
Proof.
  intros Hwf Hor. unfold source_entries. destruct v as [| | | | | |x]; try done.
  rewrite heap_intern_state. destruct (decide (x = next_addr st)) as [->|Hne].
  - rewrite lookup_insert_eq, wf_next_free by done. simpl.
    destruct Hor as [->|Hor]; [done | congruence].
  - by rewrite lookup_insert_ne.
Qed.

(** Calling [Record] again in the state the first call left, on any source
    that normalizes to the same sequence: the same object, and nothing
    changes. *)
Lemma Record_repeat_properties v v' st a st1 :
  wf st → Record v st = (inr a, st1) →
  isObject v' = true → record_properties st1 v' = record_properties st1 v →
  Record v' st1 = (inr a, st1).
Proof.
  intros Hwf Hrec Hobj' Hsame.
  assert (Hperm : source_entries st1 v' ≡ₚ source_entries st1 v).
  { rewrite <- (stable_sort_perm (compare_texts (host st1) (heap st1))
                 (source_entries st1 v')).
    rewrite <- (stable_sort_perm (compare_texts (host st1) (heap st1))
                 (source_entries st1 v)).
    unfold record_properties in Hsame. by rewrite Hsame. }
  destruct (Record_returns v st a st1 Hwf Hrec)
    as ((Hcap & Hobj & Hsort & Hval) & Ha & Hget & [->|[-> ->]]).
  - apply Record_again; [done | |].
    + unfold normalizes. rewrite Hsame. split; [done |]. split; [done |].
      split; [|done]. eapply sortable_perm; [symmetry; exact Hperm | done].
    + by rewrite Hsame.
  - assert (Hfree := wf_next_free st Hwf).
    assert (Hsrc : source_entries
        (intern_state KRecord (record_properties st v) st) v = source_entries st v).
    { apply source_entries_intern; [done |].
      destruct (decide (v = VObject (next_addr st))) as [->|Hne]; [|by right].
      left. unfold record_properties, source_entries. by rewrite Hfree. }
    assert (Hval0 : Forall (valid_in (heap st)) (source_entries st v)).
    { unfold record_properties in Hval.
      by rewrite (stable_sort_perm _ (source_entries st v)) in Hval. }
    assert (Hprops : record_properties
        (intern_state KRecord (record_properties st v) st) v' = record_properties st v).
    { rewrite Hsame. unfold record_properties at 1. rewrite Hsrc, heap_intern_state.
      by apply sort_fresh. }
    apply Record_again.
    + apply wf_intern; [done | | by apply record_properties_keys].
      destruct (Record_cases v st Hwf)
        as [[e He]|[(b & Hb & Hb' & _)|(_ & Hdead & _)]]; [congruence | | done].
      rewrite Hrec in Hb. injection Hb as <- Hst.
      apply (allocated _ Hwf) in Hb'. lia.
    + split; [done |]. split; [done |]. split.
      * eapply sortable_perm; [symmetry; exact Hperm |].
        rewrite Hsrc, heap_intern_state. by apply sortable_fresh.
      * rewrite Hprops, heap_intern_state. by apply valid_fresh.
    + by rewrite Hprops.
Qed.

Lemma Record_repeat v v' st a st1 :
  wf st → Record v st = (inr a, st1) →
  isObject v' = true → source_entries st1 v' = source_entries st1 v →
  Record v' st1 = (inr a, st1).
Proof.
  intros Hwf Hrec Hobj' Hsame. eapply Record_repeat_properties; [done ..|].
  unfold record_properties. by rewrite Hsame.
Qed.

(** The same for [Tuple]. *)
Lemma Tuple_repeat (values : list value) st a st1 :
  wf st → Tuple values st = (inr a, st1) → Tuple values st1 = (inr a, st1).
Proof.
  intros Hwf Htup.
  destruct (Tuple_returns values st a st1 Hwf Htup) as (Hcap & Ha & Hget & Hst).
  destruct (first_invalid_value (heap st) values)
    as [Hval|(pre & x & post & -> & Hpre & Hx)]; cycle 1.
  { by rewrite Tuple_invalid in Htup. }
  destruct Hst as [->|[-> ->]].
  - by apply Tuple_again.
  - assert (Hfree := wf_next_free st Hwf).
    apply Tuple_again; [| done | | done].
    + apply wf_intern; [done | | apply tuple_entries_keys].
      destruct (Tuple_cases values st Hwf)
        as [[e He]|[(b & Hb & Hb' & _)|(_ & Hdead & _)]]; [congruence | | done].
      rewrite Htup in Hb. injection Hb as <- Hst.
      apply (allocated _ Hwf) in Hb'. lia.
    + rewrite heap_intern_state. eapply Forall_impl; [exact Hval |].
      intros v Hv. simpl. by rewrite classify_fresh.
Qed.

(** A frozen object stays as it is along every run, for as long as it is
    live. *)
Lemma frozen_for_life (ops : list op) st a o :
  wf st → heap st !! a = Some o → frozen o = true →
  heap (run ops st) !! a = Some o ∨ heap (run ops st) !! a = None.
Proof.
  intros Hwf Ha Hfr. destruct (run_sound ops st Hwf) as [_ Hev].
  by apply (ev_frozen _ _ Hev).
Qed.


(** [Record] sees its argument only through the object check and the
    own entries. *)
Lemma Record_ext v v' st :
  isObject v = isObject v' → source_entries st v = source_entries st v' →
  Record v st = Record v' st.
Proof.
  intros Hobj Hsrc. unfold Record, createRecordFromObject, bind.
  destruct (assertFeatures st) as [[e|[]] st0] eqn:Hguard; [done |].
  rewrite <- Hobj. destruct (isObject v); [|done]. simpl.
  assert (st0 = st) as ->.
  { unfold assertFeatures in Hguard.
    repeat (destruct (negb _) in Hguard; [done |]). by injection Hguard. }
  rewrite !Object_entries_eq. by rewrite Hsrc.
Qed.

(** ** Property lists as finite maps *)

Lemma field_lookup_field_set name name' v (fs : list entry) :
  field_lookup name (field_set name' v fs)
  = if decide (name = name') then Some v else field_lookup name fs.
Proof.
  induction fs as [|[k w] fs IH]; simpl.
  - by destruct (decide (name = name')).
  - destruct (decide (name' = k)) as [->|Hne]; simpl.
    + by destruct (decide (name = k)).
    + rewrite IH. destruct (decide (name = k)) as [->|Hne'].
      * by rewrite decide_False.
      * done.
Qed.

Lemma field_lookup_app name (l1 l2 : list entry) :
  field_lookup name (l1 ++ l2)
  = match field_lookup name l1 with
    | Some v => Some v
    | None => field_lookup name l2
    end.
Proof.
  induction l1 as [|[k w] l1 IH]; simpl; [done |].
  by destruct (decide (name = k)).
Qed.

Lemma field_lookup_assign_all name (props acc : list entry) :
  field_lookup name (assign_all props acc)
  = match field_lookup name (reverse props) with
    | Some v => Some v
    | None => field_lookup name acc
    end.
Proof.
  revert acc. induction props as [|[k v] props IH]; intros acc; [done |].
  change (assign_all ((k, v) :: props) acc) with (assign_all props (field_set k v acc)).
  rewrite IH, reverse_cons, field_lookup_app, field_lookup_field_set. simpl.
  destruct (field_lookup name (reverse props)); [done |].
  by destruct (decide (name = k)).
Qed.

Lemma field_lookup_Some name v (l : list entry) :
  NoDup (keys l) → field_lookup name l = Some v ↔ (name, v) ∈ l.
Proof.
  induction l as [|[k w] l IH]; simpl.
  - intros _. split; [done | by intros ?%elem_of_nil].
  - intros [Hnin Hnd]%NoDup_cons. destruct (decide (name = k)) as [->|Hne].
    + split.
      * intros [= ->]. left.
      * intros [[= ->]|Hin]%elem_of_cons; [done |].
        exfalso. apply Hnin. apply list_elem_of_fmap. by exists (k, v).
    + rewrite (IH Hnd). split; [by right |].
      intros [[= -> ->]|Hin]%elem_of_cons; done.
Qed.

Lemma field_lookup_perm name (l l' : list entry) :
  NoDup (keys l) → l ≡ₚ l' → field_lookup name l = field_lookup name l'.
Proof.
  intros Hnd Hperm. apply option_eq. intros v.
  rewrite !field_lookup_Some; [by rewrite Hperm | | done].
  by rewrite <- (keys_perm _ _ Hperm).
Qed.

(** ** What the sort of [createRecordFromObject] achieves *)

Lemma ltb_lt (s1 s2 : string) : String.ltb s1 s2 = true ↔ String_as_OT.lt s1 s2.
Proof.
  rewrite <- String_as_OT.cmp_lt. unfold String.ltb, String_as_OT.cmp.
  by destruct (String.compare s1 s2).
Qed.

Lemma ltb_asym (s1 s2 : string) : String.ltb s1 s2 = true → String.ltb s2 s1 = false.
Proof.
  unfold String.ltb. rewrite (String.compare_antisym s1 s2).
  by destruct (String.compare s2 s1).
Qed.

Lemma ltb_antisym (s1 s2 : string) :
  String.ltb s1 s2 = false → String.ltb s2 s1 = false → s1 = s2.
Proof.
  unfold String.ltb. rewrite (String.compare_antisym s1 s2).
  destruct (String.compare s2 s1) eqn:Hc; simpl; try done.
  intros _ _. symmetry. by apply String.compare_eq_iff.
Qed.

Lemma ltb_trans (s1 s2 s3 : string) :
  String.ltb s1 s2 = true → String.ltb s2 s3 = true → String.ltb s1 s3 = true.
Proof. rewrite !ltb_lt. apply String_as_OT.lt_trans. Qed.

Lemma text_le_total hst h (x y : entry) : text_le hst h x y ∨ text_le hst h y x.
Proof.
  unfold text_le. destruct (String.ltb (entry_text hst h y) (entry_text hst h x)) eqn:H.
  - right. by apply ltb_asym.
  - by left.
Qed.

Lemma text_le_trans hst h (x y z : entry) : text_le hst h x y → text_le hst h y z → text_le hst h x z.
Proof.
  unfold text_le. intros Hxy Hyz.
  destruct (String.ltb (entry_text hst h z) (entry_text hst h x)) eqn:Hzx; [|done].
  destruct (String.ltb (entry_text hst h x) (entry_text hst h y)) eqn:Hlt.
  - by rewrite (ltb_trans _ _ _ Hzx Hlt) in Hyz.
  - rewrite <- (ltb_antisym _ _ Hlt Hxy) in Hyz. congruence.
Qed.

Lemma compare_texts_le hst h (x y : entry) :
  (compare_texts hst h x y <=? 0)%Z = true ↔ text_le hst h x y.
Proof.
  unfold compare_texts, text_le.
  destruct (String.ltb (entry_text hst h x) (entry_text hst h y)) eqn:Hxy.
  - split; [intros _; by apply ltb_asym | done].
  - by destruct (String.ltb (entry_text hst h y) (entry_text hst h x)).
Qed.

Lemma stable_insert_sorted hst h x (l : list entry) :
  StronglySorted (text_le hst h) l →
  StronglySorted (text_le hst h) (stable_insert (compare_texts hst h) x l).
Proof.
  induction l as [|y l IH]; intros Hs; simpl.
  - by repeat constructor.
  - apply StronglySorted_inv in Hs as [Hs Hy].
    destruct (compare_texts hst h x y <=? 0)%Z eqn:Hc.
    + apply compare_texts_le in Hc. constructor; [by constructor |].
      constructor; [done |]. eapply Forall_impl; [exact Hy |].
      intros z Hz. by eapply text_le_trans.
    + constructor; [by apply IH |].
      rewrite stable_insert_perm. constructor; [|done].
      destruct (text_le_total hst h x y) as [Hxy|Hyx]; [|done].
      apply compare_texts_le in Hxy. congruence.
Qed.

(** The entries come out in ascending order of their joined texts. *)
Lemma stable_sort_sorted hst h (l : list entry) :
  StronglySorted (text_le hst h) (stable_sort (compare_texts hst h) l).
Proof.
  induction l as [|x l IH]; simpl; [constructor | by apply stable_insert_sorted].
Qed.

(** Where no two entries of the source have the same joined text, the
    sorted sequence does not depend on the order of the source. *)
Lemma stable_sort_order_independent hst h (l l' : list entry) :
  l ≡ₚ l' → NoDup (entry_text hst h <$> l) →
  stable_sort (compare_texts hst h) l = stable_sort (compare_texts hst h) l'.
Proof.
  intros Hperm Hnd.
  apply (StronglySorted_unique_strong (text_le hst h)); try apply stable_sort_sorted.
  - intros x y Hx Hy Hxy Hyx. rewrite stable_sort_perm in Hx, Hy.
    rewrite <- Hperm in Hy.
    assert (Heq : entry_text hst h x = entry_text hst h y) by (by apply ltb_antisym).
    apply list_elem_of_lookup in Hx as [i Hi]. apply list_elem_of_lookup in Hy as [j Hj].
    assert (i = j); [|congruence].
    eapply NoDup_lookup; [exact Hnd | |]; rewrite list_lookup_fmap.
    + by rewrite Hi.
    + by rewrite Hj, Heq.
  - by rewrite !stable_sort_perm.
Qed.

Lemma record_properties_order_independent st v v' :
  source_entries st v ≡ₚ source_entries st v' →
  NoDup (entry_text (host st) (heap st) <$> source_entries st v) →
  record_properties st v = record_properties st v'.
Proof. intros Hperm Hnd. by apply stable_sort_order_independent. Qed.

(** Order independence of [Record] where it holds: a second source with the
    same fields in any enumeration order yields the same record, provided
    no two entries have the same joined text. *)
Lemma Record_order_independent_without_ties v v' st a st1 :
  reachable st → Record v st = (inr a, st1) →
  isObject v' = true →
  source_entries st1 v' ≡ₚ source_entries st1 v →
  NoDup (entry_text (host st1) (heap st1) <$> source_entries st1 v) →
  Record v' st1 = (inr a, st1).
Proof.
  intros Hreach Hrec Hobj Hperm Hnd.
  eapply Record_repeat_properties; [by apply reachable_wf | done ..|].
  symmetry. by apply record_properties_order_independent.
Qed.

(** * The claims *)

(** C1 fails on the code.  The sources [{"a": "0,1", "a,0": "1"}] and
    [{"a,0": "1", "a": "0,1"}] have equal content: each holds the same
    value under every key.  Called on one and then on the other, [Record]
    returns two different objects, both live records, each holding the
    two entries in the order of its own source.  The invariant on entry
    sequences holds in the state reached; what fails is that constructor
    calls with equal content return the identical object.  The defect is
    the comparator of the sort, which compares the joined texts of the
    entries (both are "a,0,1") and not the keys. *)
Theorem equal_content_two_records :
  let src1 := [("a", VString "0,1"); ("a,0", VString "1")] in
  let src2 := [("a,0", VString "1"); ("a", VString "0,1")] in
  let st := run [NewObject src1; NewObject src2] (init full_host) in
  let r1 := Record (VObject 0) st in
  let r2 := Record (VObject 1) r1.2 in
  (∀ name, field_lookup name (source_entries st (VObject 0))
           = field_lookup name (source_entries st (VObject 1)))
  ∧ r1.1 = inr 2 ∧ r2.1 = inr 3
  ∧ heap r2.2 !! 2 = Some (Object src1 true (Some KRecord))
  ∧ heap r2.2 !! 3 = Some (Object src2 true (Some KRecord))
  ∧ canonical r2.2.
Proof.
  intros src1 src2 st r1 r2. split; [|split; [|split; [|split; [|split]]]].
  - intros name. apply field_lookup_perm; [|apply Permutation_swap].
    change (NoDup ["a"; "a,0"]). compute_done.
  - vm_compute. reflexivity.
  - vm_compute. reflexivity.
  - vm_compute. reflexivity.
  - vm_compute. reflexivity.
  - apply wf_canonical, reachable_wf.
    exists full_host,
      [NewObject src1; NewObject src2; CallRecord (VObject 0); CallRecord (VObject 1)].
    unfold r2, r1, st. simpl. by rewrite !discard_state.
Qed.

(** C2 fails on the code.  Two sources with the same two fields in opposite
    enumeration orders, [{"a": "0,1", "a,0": "1"}] and
    [{"a,0": "1", "a": "0,1"}]: the comparator sees the entries as the
    equal strings "a,0,1", the stable sort keeps each source's own order,
    and [Record] returns two different records. *)
Theorem Record_order_dependent_on_ties :
  let src1 := [("a", VString "0,1"); ("a,0", VString "1")] in
  let src2 := [("a,0", VString "1"); ("a", VString "0,1")] in
  let st := run [NewObject src1; NewObject src2] (init full_host) in
  let r1 := Record (VObject 0) st in
  let r2 := Record (VObject 1) r1.2 in
  src1 ≡ₚ src2
  ∧ compare_entries (host st) (heap st) ("a", VString "0,1") ("a,0", VString "1")
    = inr 0%Z
  ∧ r1.1 = inr 2 ∧ r2.1 = inr 3
  ∧ fields <$> heap r2.2 !! 2 = Some src1
  ∧ fields <$> heap r2.2 !! 3 = Some src2.
Proof.
  intros src1 src2 st r1 r2. split; [apply Permutation_swap |].
  repeat split; vm_compute; reflexivity.
Qed.

(** Where no two entries print alike the order of the source does not
    matter; the example of the design document holds. *)
Example Record_ab_ba :
  let st := run [NewObject [("a", VNumber 1); ("b", VNumber 2)];
                 NewObject [("b", VNumber 2); ("a", VNumber 1)]] (init full_host) in
  let r1 := Record (VObject 0) st in
  let r2 := Record (VObject 1) r1.2 in
  r1.1 = inr 2 ∧ r2.1 = inr 2.
Proof. split; vm_compute; reflexivity. Qed.

(** C3 fails on the code.  For the source [{"a": 1, "a!": 1}] the sort puts
    the key "a!" before the key "a", although "a" is the smaller key: the
    comparator compares the joined texts "a,1" and "a!,1", and "!" sorts
    before ",".  The record is created with its entries in that order. *)
Theorem sort_compares_joined_entries :
  let st := run [NewObject [("a", VNumber 1); ("a!", VNumber 1)]] (init full_host) in
  let r := Record (VObject 0) st in
  source_entries st (VObject 0) = [("a", VNumber 1); ("a!", VNumber 1)]
  ∧ String.ltb "a" "a!" = true
  ∧ compare_entries (host st) (heap st) ("a", VNumber 1) ("a!", VNumber 1) = inr 1%Z
  ∧ record_properties st (VObject 0) = [("a!", VNumber 1); ("a", VNumber 1)]
  ∧ sorted_by_key (record_properties st (VObject 0)) = false
  ∧ r.1 = inr 1
  ∧ fields <$> heap r.2 !! 1 = Some [("a!", VNumber 1); ("a", VNumber 1)].
Proof. intros st r. repeat split; vm_compute; reflexivity. Qed.

(** C4 (as amended). In a capable host, take a source with at least one
    field whose value does not classify as internable, and whose entries
    the sort goes through (there are fewer than two, or every value has a
    string conversion).  [Record] throws, at the call, what
    [validateProperty] throws for such a value of the source; it hands
    [validateProperty] the value alone, so the error is the [InvalidEntry]
    of the value and carries no key, and the state is untouched.  [Tuple]
    throws likewise and reports the index of the offending element. *)
Theorem invalid_entry_reports_value st :
  capable (host st) = true →
  (∀ v, isObject v = true →
        sortable (host st) (heap st) (source_entries st v) →
        Exists (λ e, ¬ valid_in (heap st) e) (source_entries st v) →
        ∃ name x error,
          (name, x) ∈ source_entries st v
          ∧ classify (heap st) x = Invalid
          ∧ validateProperty x st = (inl error, st)
          ∧ Record v st = (inl error, st)
          ∧ error = InvalidEntry None x)
  ∧ (∀ values, Exists (λ x, classify (heap st) x = Invalid) values →
               ∃ i x, values !! i = Some x
                      ∧ classify (heap st) x = Invalid
                      ∧ Tuple values st = (inl (InvalidEntry (Some (AtIndex i)) x), st)).
Proof.
  intros Hcap. split.
  - intros v Hobj Hsort Hex.
    destruct (first_invalid (heap st) (record_properties st v))
      as [Hval|(pre & [name x] & post & Hp & Hpre & He)].
    + exfalso. unfold record_properties in Hval.
      rewrite (stable_sort_perm _ (source_entries st v)) in Hval.
      apply Exists_exists in Hex as (e & Hin & He).
      rewrite Forall_forall in Hval. by apply He, Hval.
    + assert (Hx : classify (heap st) x = Invalid).
      { unfold valid_in in He. simpl in He. by destruct (classify_dec (heap st) x). }
      exists name, x, (InvalidEntry None x). split; [|split; [done |split; [|split]]].
      * unfold record_properties in Hp.
        rewrite <- (stable_sort_perm (compare_texts (host st) (heap st))
                      (source_entries st v)), Hp.
        apply elem_of_app. right. left.
      * by apply validateProperty_invalid.
      * by apply (Record_invalid v st pre post (name, x)).
      * done.
  - intros values Hex.
    destruct (first_invalid_value (heap st) values)
      as [Hval|(pre & x & post & -> & Hpre & Hx)].
    + exfalso. apply Exists_exists in Hex as (x & Hin & Hx).
      rewrite Forall_forall in Hval. by apply (Hval x).
    + exists (List.length pre), x. split; [|split; [done |]].
      * by apply list_lookup_middle.
      * by apply Tuple_invalid.
Qed.

Lemma invalid_entry_reports_value_witness :
  let f := VFunction "function () {}" in
  let st := run [NewObject [("b", VNumber 1); ("a", f)]] (init full_host) in
  Record (VObject 0) st = (inl (InvalidEntry None f), st).
Proof.
  intros f st.
  destruct (invalid_entry_reports_value st eq_refl) as [Hrec _].
  destruct (Hrec (VObject 0) eq_refl) as (name & x & error & Hin & Hx & _ & Hcall & ->).
  { right. repeat constructor; by eexists. }
  { apply Exists_cons_tl, Exists_cons_hd. vm_compute. by intros H. }
  rewrite Hcall. f_equal. f_equal. f_equal.
  change (source_entries st (VObject 0)) with [("b", VNumber 1); ("a", f)] in Hin.
  apply elem_of_cons in Hin as [Hin|Hin].
  - injection Hin as -> ->. by vm_compute in Hx.
  - apply list_elem_of_singleton in Hin. by injection Hin as _ ->.
Defined.

(** C4 as stated fails: the sources [{a: f}] and [{b: f}] fail with one and
    the same error, which therefore does not tell the key; in particular it
    is not an [InvalidEntry] located at the key. *)
Lemma invalid_entry_error_omits_key :
  let f := VFunction "function () {}" in
  let st := run [NewObject [("a", f)]; NewObject [("b", f)]] (init full_host) in
  (Record (VObject 0) st).1 = inl (InvalidEntry None f)
  ∧ (Record (VObject 1) st).1 = (Record (VObject 0) st).1
  ∧ (Record (VObject 0) st).1 ≠ inl (InvalidEntry (Some (AtKey "a")) f).
Proof. split; [|split]; vm_compute; [reflexivity | reflexivity | by intros H]. Qed.

(** C5 fails on the code.  [Record.fromEntries] on the pairs
    [["a", "0,1"], ["a,0", "1"]] and [Record] on an object holding exactly
    those fields, enumerated the other way round, return two different
    records.  [Record.fromEntries] is [Record] on the object built from
    the pairs, so this is the order dependence of [Record]: the comparator
    of the sort sees both entries as the text "a,0,1". *)
Theorem fromEntries_differs_on_ties :
  let pairs := [("a", VString "0,1"); ("a,0", VString "1")] in
  let st := run [NewObject [("a,0", VString "1"); ("a", VString "0,1")]]
                (init full_host) in
  let r1 := Record_fromEntries pairs st in
  let r2 := Record (VObject 0) r1.2 in
  (∀ name, field_lookup name (source_entries st (VObject 0)) = field_lookup name pairs)
  ∧ r1.1 = inr 2 ∧ r2.1 = inr 3
  ∧ fields <$> heap r2.2 !! 2 = Some pairs
  ∧ fields <$> heap r2.2 !! 3 = Some (reverse pairs).
Proof.
  intros pairs st r1 r2. split; [|repeat split; vm_compute; reflexivity].
  intros name. apply field_lookup_perm; [|apply Permutation_swap].
  change (NoDup ["a,0"; "a"]). compute_done.
Qed.

(** C6. Every composite [Record] or [Tuple] returns is frozen and tagged
    before it is returned: an assignment to it is rejected in strict code
    and has no effect in sloppy code, a deletion likewise, and along every
    later run of the program its entries stay the same for as long as it
    is live. *)
Theorem composites_immutable st :
  reachable st →
  (∀ v a st1,
     Record v st = (inr a, st1) →
     isRecord (heap st1) (VObject a) = true ∧ immutable_at a st1)
  ∧ (∀ values a st1,
       Tuple values st = (inr a, st1) →
       isTuple (heap st1) (VObject a) = true ∧ immutable_at a st1).
Proof.
  intros Hreach. assert (Hwf := reachable_wf st Hreach).
  assert (Himm : ∀ a st1 fs k,
    wf st1 → heap st1 !! a = Some (Object fs true (Some k)) → immutable_at a st1).
  { intros a st1 fs k Hwf1 Ha. eexists. split; [exact Ha |]. split; [done |].
    split; [|split; [|split]].
    - intros name v. unfold set_property. rewrite Ha. simpl. by eexists.
    - intros name v. unfold set_property. by rewrite Ha.
    - intros strict name. unfold delete_property. rewrite Ha. simpl.
      by destruct (field_lookup name fs), strict.
    - intros ops. by apply frozen_for_life. }
  split.
  - intros v a st1 Hrec.
    destruct (Record_sound v st Hwf) as [Hwf1 _]. rewrite Hrec in Hwf1.
    destruct (Record_returns v st a st1 Hwf Hrec) as (_ & Ha & _).
    split; [|by eapply Himm]. simpl. by rewrite Ha.
  - intros values a st1 Htup.
    destruct (Tuple_sound values st Hwf) as [Hwf1 _]. rewrite Htup in Hwf1.
    destruct (Tuple_returns values st a st1 Hwf Htup) as (_ & Ha & _).
    split; [|by eapply Himm]. simpl. by rewrite Ha.
Qed.

Lemma composites_immutable_witness :
  let st := run [NewObject [("a", VNumber 1)]] (init full_host) in
  let st1 := (Record (VObject 0) st).2 in
  reachable st ∧ isRecord (heap st1) (VObject 1) = true ∧ immutable_at 1 st1.
Proof.
  intros st st1.
  assert (Hreach : reachable st) by (by exists full_host, [NewObject [("a", VNumber 1)]]).
  split; [exact Hreach |].
  destruct (composites_immutable st Hreach) as [Hrec _].
  apply (Hrec (VObject 0) 1 st1). vm_compute. reflexivity.
Defined.

(** C7. An empty source is valid.  Every call of [Record] on an empty
    object returns one and the same record: a live, frozen record without
    entries, which sits in the terminal slot of the root of the record
    graph, and which later calls return for as long as it is live;
    likewise every call [Tuple()] returns one and the same empty tuple. *)
Theorem empty_composites_singleton st :
  reachable st →
  (∀ v, capable (host st) = true → isObject v = true → source_entries st v = [] →
        ∃ a st1, Record v st = (inr a, st1))
  ∧ (∀ v a st1,
       isObject v = true → source_entries st v = [] →
       Record v st = (inr a, st1) →
       heap st1 !! a = Some (Object [] true (Some KRecord))
       ∧ terminal (RECORD_GRAPH st1) = Some a
       ∧ ∀ ops v',
           isObject v' = true → source_entries (run ops st1) v' = [] →
           is_Some (heap (run ops st1) !! a) →
           Record v' (run ops st1) = (inr a, run ops st1)
           ∧ heap (run ops st1) !! a = Some (Object [] true (Some KRecord)))
  ∧ (capable (host st) = true → ∃ a st1, Tuple [] st = (inr a, st1))
  ∧ (∀ a st1,
       Tuple [] st = (inr a, st1) →
       heap st1 !! a = Some (Object [] true (Some KTuple))
       ∧ terminal (TUPLE_GRAPH st1) = Some a
       ∧ ∀ ops,
           is_Some (heap (run ops st1) !! a) →
           Tuple [] (run ops st1) = (inr a, run ops st1)
           ∧ heap (run ops st1) !! a = Some (Object [] true (Some KTuple))).
Proof.
  intros Hreach. assert (Hwf := reachable_wf st Hreach).
  split; [|split; [|split]].
  - intros v Hcap Hobj Hsrc.
    assert (Hp : record_properties st v = []).
    { unfold record_properties. by rewrite Hsrc. }
    rewrite Record_valid; [|done | done | left; rewrite Hsrc; simpl; lia | by rewrite Hp].
    destruct (get_cases KRecord (record_properties st v) st Hwf)
      as [(a & Hget & _)|[Hget _]];
      [by rewrite Hp | rewrite Hp; apply NoDup_nil_2 | eexists _, _; exact Hget ..].
  - intros v a st1 Hobj Hsrc Hrec.
    assert (Hp : record_properties st v = []).
    { unfold record_properties. by rewrite Hsrc. }
    destruct (Record_returns v st a st1 Hwf Hrec) as ((Hcap & _) & Ha & Hget & _).
    rewrite Hp in Ha, Hget. split; [done |]. split; [done |].
    intros ops v' Hobj' Hsrc' [o Ho].
    assert (Hwf1 : wf st1).
    { destruct (Record_sound v st Hwf) as [H _]. by rewrite Hrec in H. }
    destruct (run_sound ops st1 Hwf1) as [Hwf2 Hev].
    destruct (frozen_for_life ops st1 a _ Hwf1 Ha eq_refl) as [Ho'|Ho']; [|congruence].
    assert (Hp' : record_properties (run ops st1) v' = []).
    { unfold record_properties. by rewrite Hsrc'. }
    split; [|done].
    apply Record_again; [done | |by rewrite Hp'].
    split; [|split; [done | split; [left; rewrite Hsrc'; simpl; lia | by rewrite Hp']]].
    rewrite (ev_host _ _ Hev).
    destruct (Record_sound v st Hwf) as [_ Hev0]. rewrite Hrec in Hev0.
    cbn [snd] in Hev0. by rewrite (ev_host _ _ Hev0).
  - intros Hcap. rewrite Tuple_valid by done.
    destruct (get_cases KTuple (tuple_entries 0 []) st Hwf)
      as [(a & Hget & _)|[Hget _]];
      [done | apply NoDup_nil_2 | eexists _, _; exact Hget ..].
  - intros a st1 Htup.
    destruct (Tuple_returns [] st a st1 Hwf Htup) as (Hcap & Ha & Hget & _).
    split; [done |]. split; [done |]. intros ops [o Ho].
    assert (Hwf1 : wf st1).
    { destruct (Tuple_sound [] st Hwf) as [H _]. by rewrite Htup in H. }
    destruct (run_sound ops st1 Hwf1) as [Hwf2 Hev].
    destruct (frozen_for_life ops st1 a _ Hwf1 Ha eq_refl) as [Ho'|Ho']; [|congruence].
    split; [|done].
    apply Tuple_again; [done | | done | done].
    rewrite (ev_host _ _ Hev).
    destruct (Tuple_sound [] st Hwf) as [_ Hev0]. rewrite Htup in Hev0.
    cbn [snd] in Hev0. by rewrite (ev_host _ _ Hev0).
Qed.

Lemma empty_composites_singleton_witness :
  let st := run [NewObject []; NewObject []] (init full_host) in
  let st1 := (Record (VObject 0) st).2 in
  let st2 := run [NewObject [("a", VNumber 1)]; CallRecord (VObject 3)] st1 in
  reachable st
  ∧ heap st1 !! 2 = Some (Object [] true (Some KRecord))
  ∧ terminal (RECORD_GRAPH st1) = Some 2
  ∧ Record (VObject 1) st2 = (inr 2, st2).
Proof.
  intros st st1 st2.
  assert (Hreach : reachable st) by (by exists full_host, [NewObject []; NewObject []]).
  split; [exact Hreach |].
  destruct (empty_composites_singleton st Hreach) as (_ & Hrec & _).
  destruct (Hrec (VObject 0) 2 st1) as (Hlive & Hroot & Hlater);
    [reflexivity | reflexivity | vm_compute; reflexivity |].
  split; [exact Hlive |]. split; [exact Hroot |].
  apply (Hlater [NewObject [("a", VNumber 1)]; CallRecord (VObject 3)] (VObject 1));
    [reflexivity | reflexivity | vm_compute; by eexists].
Defined.

(** C8 (as amended). The capability guard is the first step of every
    construction: in a state whose host lacks a required primitive, each
    call of [Record], [Tuple] and [Record.fromEntries] throws the
    capability error, and no graph is touched.  The check is made by every
    call, not once when the module is loaded. *)
Theorem capability_checked_on_every_call st :
  capable (host st) = false →
  (∀ v, ∃ feature, Record v st = (inl (CapabilityMissing feature), st))
  ∧ (∀ values, ∃ feature, Tuple values st = (inl (CapabilityMissing feature), st))
  ∧ (∀ iterator, ∃ feature st',
       Record_fromEntries iterator st = (inl (CapabilityMissing feature), st')
       ∧ RECORD_GRAPH st' = RECORD_GRAPH st ∧ TUPLE_GRAPH st' = TUPLE_GRAPH st).
Proof.
  intros Hcap. split; [|split].
  - intros v. by apply Record_incapable.
  - intros values. by apply Tuple_incapable.
  - intros iterator. rewrite Record_fromEntries_eq.
    destruct (Record_incapable (VObject (next_addr st)) (object_state iterator st) Hcap)
      as [f Hf].
    by exists f, (object_state iterator st).
Qed.

Lemma capability_checked_on_every_call_witness :
  let st := run [NewObject [("a", VNumber 1)]] (init (MkHost true false true)) in
  Record (VObject 0) st = (inl (CapabilityMissing "freezing"), st).
Proof.
  intros st.
  destruct (capability_checked_on_every_call st eq_refl) as [Hrec _].
  destruct (Hrec (VObject 0)) as [f Hf]. rewrite Hf.
  assert (Hfeature : inl (CapabilityMissing f) = (Record (VObject 0) st).1)
    by (by rewrite Hf).
  vm_compute in Hfeature. by injection Hfeature as ->.
Defined.

(** C8 as stated fails: on a host without weak references the first call
    of [Record] throws the capability error and so does the second; the
    error is not raised once but by each call. *)
Lemma capability_error_raised_on_each_call :
  let st := run [NewObject [("a", VNumber 1)]] (init (MkHost false true true)) in
  (Record (VObject 0) st).1 = inl (CapabilityMissing "weak references")
  ∧ (Record (VObject 0) (Record (VObject 0) st).2).1
    = inl (CapabilityMissing "weak references").
Proof. split; vm_compute; reflexivity. Qed.

(** C9. A construction that fails leaves no trace: when [Record] or [Tuple]
    throws, the state is the one before the call, so no composite was
    created and neither graph changed.  When [Record.fromEntries] throws,
    the graphs and the composites are those before the call. *)
Theorem construction_atomic st :
  reachable st →
  (∀ v e st', Record v st = (inl e, st') → st' = st)
  ∧ (∀ values e st', Tuple values st = (inl e, st') → st' = st)
  ∧ (∀ iterator e st',
       Record_fromEntries iterator st = (inl e, st') →
       RECORD_GRAPH st' = RECORD_GRAPH st ∧ TUPLE_GRAPH st' = TUPLE_GRAPH st
       ∧ composites st' = composites st).
Proof.
  intros Hreach. assert (Hwf := reachable_wf st Hreach).
  split; [|split].
  - intros v e st' Hrec.
    destruct (Record_cases v st Hwf) as [[e0 H]|[(a & H & _)|(H & _)]];
      rewrite Hrec in H; by simplify_eq.
  - intros values e st' Htup.
    destruct (Tuple_cases values st Hwf) as [[e0 H]|[(a & H & _)|(H & _)]];
      rewrite Htup in H; by simplify_eq.
  - intros iterator e st'. rewrite Record_fromEntries_eq. intros Hrec.
    assert (Hwf1 := wf_object_state iterator st Hwf).
    destruct (Record_cases (VObject (next_addr st)) _ Hwf1)
      as [[e0 H]|[(a & H & _)|(H & _)]]; rewrite Hrec in H; simplify_eq.
    split; [done |]. split; [done |]. unfold composites, object_state. simpl.
    rewrite map_filter_insert_False by (simpl; by intros [? ?]).
    by rewrite delete_id by (by apply wf_next_free).
Qed.

Lemma construction_atomic_witness :
  let st := run [NewObject [("a", VNumber 1); ("b", VFunction "function () {}")]]
                (init full_host) in
  reachable st
  ∧ Record (VObject 0) st
    = (inl (InvalidEntry None (VFunction "function () {}")), st).
Proof.
  intros st.
  assert (Hreach : reachable st)
    by (by exists full_host, [NewObject [("a", VNumber 1); ("b", VFunction "function () {}")]]).
  split; [exact Hreach |].
  destruct (construction_atomic st Hreach) as [Hrec _].
  destruct (Record (VObject 0) st) as [r st'] eqn:Hcall.
  assert (Hr : r = inl (InvalidEntry None (VFunction "function () {}"))).
  { change r with (r, st').1. rewrite <- Hcall. vm_compute. reflexivity. }
  subst r. by rewrite (Hrec _ _ _ Hcall).
Defined.

(** C10. In a host that passes the capability guard, [Record] applied to
    anything [isObject] rejects throws the plain [Error] with the message
    "invalid value, expected object argument", which is no [InvalidEntry],
    and the state is untouched: nothing was normalized and no graph was
    consulted. *)
Theorem Record_rejects_non_object v st :
  capable (host st) = true → isObject v = false →
  Record v st = (inl (Error "invalid value, expected object argument"), st)
  ∧ ∀ place x, Error "invalid value, expected object argument" ≠ InvalidEntry place x.
Proof. intros Hcap Hobj. split; [by apply Record_not_object | done]. Qed.

Lemma Record_rejects_non_object_witness :
  Record (VNumber 3) (init full_host)
  = (inl (Error "invalid value, expected object argument"), init full_host).
Proof.
  apply (Record_rejects_non_object (VNumber 3) (init full_host)); reflexivity.
Defined.

(** * Further properties of the code *)

(** ** Dispatch on the number of arguments *)

Lemma arity_map_app {A R} (fns1 fns2 : list (Core.fn A R)) n :
  Core.arity_map (fns1 ++ fns2) !! n
  = match Core.arity_map fns2 !! n with
    | Some f => Some f
    | None => Core.arity_map fns1 !! n
    end.
Proof.
  unfold Core.arity_map. rewrite fold_left_app.
  generalize (fold_left (λ map f, <[Core.length f := f]> map) fns1 (∅ : gmap nat (Core.fn A R))).
  intros m0. revert m0. induction fns2 as [|g fns2 IH] using rev_ind; intros m0; simpl.
  - by rewrite lookup_empty.
  - rewrite !fold_left_app. simpl.
    destruct (decide (Core.length g = n)) as [<-|Hne].
    + by rewrite !lookup_insert_eq.
    + rewrite !lookup_insert_ne by done. apply IH.
Qed.

Lemma arity_map_none {A R} (fns : list (Core.fn A R)) n :
  Forall (λ g, Core.length g ≠ n) fns → Core.arity_map fns !! n = None.
Proof.
  induction fns as [|g fns IH] using rev_ind; intros Hall.
  - apply lookup_empty.
  - apply Forall_app in Hall as [Hall Hg]. rewrite Forall_singleton in Hg.
    rewrite arity_map_app. unfold Core.arity_map at 1. simpl.
    rewrite lookup_insert_ne by done. rewrite lookup_empty. by apply IH.
Qed.

(** X1. A function built by [n_ary] hands a call to the last of its clauses
    whose [length] is the number of arguments: a later clause of the same
    length replaces an earlier one. *)
Theorem n_ary_dispatches_to_last_clause {A R} fname
    (fns1 fns2 : list (Core.fn A R)) (f : Core.fn A R) (args : list A) :
  Core.length f = List.length args →
  Forall (λ g, Core.length g ≠ List.length args) fns2 →
  Core.call (Core.n_ary fname (fns1 ++ f :: fns2)) args = Core.call f args.
Proof.
  intros Hlen Hlater. simpl.
  rewrite arity_map_app, (arity_map_app [f] fns2), (arity_map_none fns2) by done.
  unfold Core.arity_map at 1. simpl. by rewrite Hlen, lookup_insert_eq.
Qed.

Lemma n_ary_dispatches_to_last_clause_witness :
  let first := Core.Fn "first" 1 (λ _ : list value, inr (VNumber 1)) in
  let second := Core.Fn "second" 1 (λ _ : list value, inr (VNumber 2)) in
  let other := Core.Fn "other" 2 (λ _ : list value, inr (VNumber 3)) in
  Core.call (Core.n_ary "f" [first; second; other]) [VNull] = inr (VNumber 2).
Proof.
  intros first second other.
  apply (n_ary_dispatches_to_last_clause "f" [first] [other] second [VNull]).
  - reflexivity.
  - repeat constructor. simpl. lia.
Defined.

Lemma arity_map_some {A R} (fns : list (Core.fn A R)) n :
  is_Some (Core.arity_map fns !! n) ↔ Exists (λ g, Core.length g = n) fns.
Proof.
  induction fns as [|g fns IH] using rev_ind.
  - unfold Core.arity_map. simpl. rewrite lookup_empty. split.
    + by intros [? ?].
    + by intros ?%Exists_nil.
  - rewrite arity_map_app, Exists_app, Exists_cons, Exists_nil.
    unfold Core.arity_map at 1. simpl.
    destruct (decide (Core.length g = n)) as [<-|Hne].
    + rewrite lookup_insert_eq. split; [intros _; right; by left | by eexists].
    + rewrite lookup_insert_ne, lookup_empty, IH by done.
      split; [by left | by intros [H|[H|H]]].
Qed.

Lemma stable_insert_sorted_by {A} (cmp : A → A → Z) (R : relation A) x (l : list A) :
  (∀ x y, (cmp x y <=? 0)%Z = true → R x y) →
  (∀ x y, (cmp x y <=? 0)%Z = false → R y x) →
  Transitive R →
  StronglySorted R l → StronglySorted R (stable_insert cmp x l).
Proof.
  intros Hle Hgt Htrans. induction l as [|y l IH]; intros Hs; simpl.
  - by repeat constructor.
  - apply StronglySorted_inv in Hs as [Hs Hy].
    destruct (cmp x y <=? 0)%Z eqn:Hc.
    + constructor; [by constructor |]. constructor; [by apply Hle |].
      eapply Forall_impl; [exact Hy |]. intros z Hz. etrans; [by apply Hle | done].
    + constructor; [by apply IH |].
      rewrite stable_insert_perm. constructor; [by apply Hgt | done].
Qed.

Lemma stable_sort_sorted_by {A} (cmp : A → A → Z) (R : relation A) (l : list A) :
  (∀ x y, (cmp x y <=? 0)%Z = true → R x y) →
  (∀ x y, (cmp x y <=? 0)%Z = false → R y x) →
  Transitive R →
  StronglySorted R (stable_sort cmp l).
Proof.
  intros Hle Hgt Htrans. induction l as [|x l IH]; simpl; [constructor |].
  by apply stable_insert_sorted_by.
Qed.

(** X2. When no clause has as many parameters as the call has arguments, a
    function built by [n_ary] calls none of them and throws an [Error]
    whose message names the function, the lengths of its clauses in
    ascending order, each once, and the number of arguments received. *)
Theorem n_ary_rejects_unknown_arity {A R} fname (fns : list (Core.fn A R))
    (args : list A) :
  Forall (λ g, Core.length g ≠ List.length args) fns →
  ∃ keys,
    Core.call (Core.n_ary fname fns) args
    = inl (Error ("Wrong number of arguments to " +:+ fname +:+ ". It takes "
                  +:+ Core.join " or " (pretty <$> keys)
                  +:+ " argument(s), but received " +:+ pretty (List.length args) +:+ "."))
    ∧ StronglySorted le keys ∧ NoDup keys
    ∧ ∀ n, n ∈ keys ↔ Exists (λ g, Core.length g = n) fns.
Proof.
  intros Hnone. exists (Core.arities fns). split; [|split; [|split]].
  - simpl. by rewrite (arity_map_none fns).
  - apply stable_sort_sorted_by; [| |apply _].
    + intros x y Hc. apply Z.leb_le in Hc. lia.
    + intros x y Hc. apply Z.leb_gt in Hc. lia.
  - unfold Core.arities. rewrite stable_sort_perm. apply NoDup_elements.
  - intros n. unfold Core.arities.
    rewrite stable_sort_perm, elem_of_elements, elem_of_dom. apply arity_map_some.
Qed.

Lemma n_ary_rejects_unknown_arity_witness :
  let fns := [Core.Fn "c1" 1 (λ _ : list value, inr (VNumber 1));
              Core.Fn "c3" 3 (λ _, inr (VNumber 3));
              Core.Fn "c2" 2 (λ _, inr (VNumber 2))] in
  ∃ keys,
    Core.call (Core.n_ary "get" fns) []
    = inl (Error ("Wrong number of arguments to get. It takes "
                  +:+ Core.join " or " (pretty <$> keys)
                  +:+ " argument(s), but received 0."))
    ∧ StronglySorted le keys ∧ NoDup keys
    ∧ ∀ n, n ∈ keys ↔ Exists (λ g, Core.length g = n) fns.
Proof.
  intros fns. apply (n_ary_rejects_unknown_arity "get" fns []).
  repeat constructor; simpl; lia.
Defined.

(** ** Partial application *)







(** ** loop and recur *)

Lemma loop_while_plain f remaining v :
  Core.nullish v = false →
  Core.loop_while f remaining (Core.Plain v) = inr (Core.Plain v, remaining).
Proof. intros Hv. destruct remaining; simpl; by rewrite Hv. Qed.

Lemma loop_while_reaches f r n r' remaining :
  Core.reaches f r n r' →
  Core.loop_while f (n + remaining) r = Core.loop_while f remaining r'.
Proof.
  induction 1 as [r|args r' n r'' Hf Hreach IH]; simpl; [done |]. by rewrite Hf.
Qed.

(** X5. A looped function returns the value its body arrives at, provided
    the body gets there in fewer than [max_iter] recur steps and the value
    is neither [undefined] nor [null]. *)
Theorem loop_returns_within_bound (f : Core.fn value Core.returned) max_iter
    args r0 n v :
  Core.call f args = inr r0 →
  Core.reaches (Core.call f) r0 n (Core.Plain v) →
  Core.nullish v = false →
  n < max_iter →
  Core.call (Core.loop f max_iter) args = inr (Core.Plain v).
Proof.
  intros Hcall Hreach Hv Hlt. simpl. rewrite Hcall.
  replace max_iter with (n + (max_iter - n)) by lia.
  rewrite (loop_while_reaches _ _ _ _ _ Hreach), loop_while_plain by done.
  rewrite bool_decide_eq_false_2 by lia. done.
Qed.

(** X6. The bound of a looped function counts recur steps, and reaching it
    is fatal whatever was computed: if after [max_iter] recur steps the body
    hands back a value or asks for one more step, the call throws the
    [Error] "Too much recursion"; with [max_iter] zero every call whose body
    returns does. *)
Theorem loop_throws_at_bound (f : Core.fn value Core.returned) max_iter args r0 r :
  Core.call f args = inr r0 →
  Core.reaches (Core.call f) r0 max_iter r →
  (∀ v, r = Core.Plain v → Core.nullish v = false) →
  ∃ message, Core.call (Core.loop f max_iter) args = inl (Error message).
Proof.
  intros Hcall Hreach Hr. simpl. rewrite Hcall.
  assert (Hw := loop_while_reaches _ _ _ _ 0 Hreach).
  rewrite Nat.add_0_r in Hw. rewrite Hw.
  destruct r as [args'|v]; simpl.
  - by eexists.
  - rewrite (Hr v eq_refl). simpl. by eexists.
Qed.

(** X7. A looped function never hands back [undefined] or [null], nor a
    recur object: whatever it returns is a value of another kind.  A body
    that arrives at [undefined] or [null] within the bound makes the call
    throw a [TypeError]. *)
Theorem loop_never_returns_nullish (f : Core.fn value Core.returned) max_iter args :
  (∀ r, Core.call (Core.loop f max_iter) args = inr r →
        ∃ v, r = Core.Plain v ∧ Core.nullish v = false)
  ∧ (∀ r0 n v,
       Core.call f args = inr r0 →
       Core.reaches (Core.call f) r0 n (Core.Plain v) →
       Core.nullish v = true → n ≤ max_iter →
       ∃ message, Core.call (Core.loop f max_iter) args = inl (TypeError message)).
Proof.
  split.
  - intros r. simpl. destruct (Core.call f args) as [e|r0]; [done |].
    assert (Hwhile : ∀ remaining r1 r' left,
      Core.loop_while (Core.call f) remaining r1 = inr (r', left) →
      left = 0 ∨ ∃ v, r' = Core.Plain v ∧ Core.nullish v = false).
    { induction remaining as [|remaining IH]; intros r1 r' left; simpl.
      - destruct r1 as [args1|v]; [intros [= <- <-]; by left |].
        destruct (Core.nullish v) eqn:Hv; [done |]. intros [= <- <-]. right. by exists v.
      - destruct r1 as [args1|v].
        + destruct (Core.call f args1) as [e|r2]; [done | apply IH].
        + destruct (Core.nullish v) eqn:Hv; [done |]. intros [= <- <-]. right. by exists v. }
    destruct (Core.loop_while (Core.call f) max_iter r0) as [e|[r' left]] eqn:Hw; [done |].
    destruct (Hwhile _ _ _ _ Hw) as [->|(v & -> & Hv)].
    + done.
    + destruct (bool_decide (left = 0)); [done |]. intros [= <-]. by exists v.
  - intros r0 n v Hcall Hreach Hv Hle. simpl. rewrite Hcall.
    replace max_iter with (n + (max_iter - n)) by lia.
    rewrite (loop_while_reaches _ _ _ _ _ Hreach).
    destruct (max_iter - n); simpl; rewrite Hv; by eexists.
Qed.

Lemma loop_returns_within_bound_witness :
  let countdown := Core.Fn "countdown" 1
    (λ args, match args with
             | [VNumber (Z.pos n)] => inr (Core.recur [VNumber (Z.pos n - 1)])
             | _ => inr (Core.Plain (VString "done"))
             end) in
  Core.call (Core.loop countdown 5) [VNumber 2] = inr (Core.Plain (VString "done")).
Proof.
  intros countdown.
  apply (loop_returns_within_bound countdown 5 [VNumber 2]
           (Core.Recur [VNumber 1]) 2 (VString "done")).
  - reflexivity.
  - eapply Core.reaches_step; [reflexivity |].
    eapply Core.reaches_step; [reflexivity |]. apply Core.reaches_here.
  - reflexivity.
  - lia.
Defined.

Lemma loop_throws_at_bound_witness :
  let countdown := Core.Fn "countdown" 1
    (λ args, match args with
             | [VNumber (Z.pos n)] => inr (Core.recur [VNumber (Z.pos n - 1)])
             | _ => inr (Core.Plain (VString "done"))
             end) in
  ∃ message, Core.call (Core.loop countdown 2) [VNumber 2] = inl (Error message).
Proof.
  intros countdown.
  apply (loop_throws_at_bound countdown 2 [VNumber 2]
           (Core.Recur [VNumber 1]) (Core.Plain (VString "done"))).
  - reflexivity.
  - eapply Core.reaches_step; [reflexivity |].
    eapply Core.reaches_step; [reflexivity |]. apply Core.reaches_here.
  - by intros v [= <-].
Defined.

Lemma loop_never_returns_nullish_witness :
  let silent := Core.Fn "silent" 0 (λ _, inr (Core.Plain VUndefined)) in
  ∃ message,
    Core.call (Core.loop silent Core.default_max_iter) [] = inl (TypeError message).
Proof.
  intros silent.
  destruct (loop_never_returns_nullish silent Core.default_max_iter []) as [_ Hnull].
  apply (Hnull (Core.Plain VUndefined) 0 VUndefined).
  - reflexivity.
  - apply Core.reaches_here.
  - reflexivity.
  - lia.
Defined.

(** ** Safe property access *)

(** X8. [get] with a default never throws on an absent object and never
    reads from it: for [undefined] or [null] it returns the default.
    Whatever it returns otherwise is either the default or a property
    value that is neither [undefined] nor [null]. *)
Theorem get_returns_default_or_present read key if_absent obj :
  (Core.nullish obj = true → Core.get read key if_absent obj = inr if_absent)
  ∧ (∀ v, Core.get read key if_absent obj = inr v →
          v = if_absent
          ∨ (Core.nullish v = false ∧ Core.nullish obj = false
             ∧ read obj key = inr v)).
Proof.
  unfold Core.get. split.
  - by intros ->.
  - intros v. destruct (Core.nullish obj) eqn:Hobj; [intros [= <-]; by left |].
    destruct (read obj key) as [e|w] eqn:Hread; [done |].
    destruct (Core.nullish w) eqn:Hw; intros [= <-]; [by left | by right].
Qed.

Lemma get_returns_default_or_present_witness :
  let throwing := λ _ _ : value, inl (TypeError "getter failed") in
  Core.get throwing (VString "a") (VNumber 0) VNull = inr (VNumber 0).
Proof.
  intros throwing.
  destruct (get_returns_default_or_present throwing (VString "a") (VNumber 0) VNull)
    as [Habsent _].
  by apply Habsent.
Defined.

(** X9. [has] answers [false] exactly when the object is [undefined] or
    [null] or the property reads as [undefined], [null] or [false]: a
    property that is present with the value [false] counts as absent,
    while [0] and the empty string count as present. *)
Theorem has_false_iff read key obj :
  Core.has read key obj = inr false
  ↔ Core.nullish obj = true
    ∨ (Core.nullish obj = false
       ∧ ∃ v, read obj key = inr v ∧ (Core.nullish v = true ∨ v = VBoolean false)).
Proof.
  unfold Core.has, Core.get2, Core.get.
  destruct (Core.nullish obj) eqn:Hobj; simpl.
  - split; [by left | done].
  - destruct (read obj key) as [e|v] eqn:Hread.
    + split; [done |]. by intros [?|(_ & v & ? & _)].
    + destruct (Core.nullish v) eqn:Hv; simpl.
      * split; [|done]. intros _. right. split; [done |]. exists v. by split; [|left].
      * unfold Core.boolean. rewrite Hv. simpl. split.
        -- destruct (bool_decide (v = VBoolean false)) eqn:Hb; [|done].
           apply bool_decide_eq_true in Hb. intros _. right. split; [done |].
           exists v. by split; [|right].
        -- intros [?|(_ & w & Hw & Hfalse)]; [done |]. injection Hw as <-.
           destruct Hfalse as [?| ->]; [congruence | done].
Qed.

Lemma has_false_iff_witness :
  let st := run [NewObject [("on", VBoolean false); ("count", VNumber 0)]]
                (init full_host) in
  Core.has (Core.own_read (heap st)) (VString "on") (VObject 0) = inr false
  ∧ Core.has (Core.own_read (heap st)) (VString "count") (VObject 0) = inr true.
Proof.
  intros st. split; [|vm_compute; reflexivity].
  apply has_false_iff. right. split; [reflexivity |].
  exists (VBoolean false). split; [vm_compute; reflexivity | by right].
Defined.

(** X10. [get_in] with two arguments returns the object it is given,
    whatever the keys: each step calls [get(k, o, undefined)], where the
    accumulator stands in the place of the default and [undefined] in the
    place of the object, so no property is ever read. *)
Theorem get_in_without_default_returns_object read obj (keys : list value) :
  Core.get_in2 read obj keys = inr obj.
Proof.
  unfold Core.get_in2, Core.get_in. induction keys as [|k keys IH] using rev_ind.
  - done.
  - by rewrite fold_left_app, IH.
Qed.

Lemma get_in_step read (if_absent : value) (keys vals : list value) o :
  Core.nullish if_absent = false →
  Forall2 (λ k v, read if_absent k = inr v) keys vals →
  fold_left (λ acc k, match acc with
                      | inl e => inl e
                      | inr o => Core.get read k o if_absent
                      end) keys (inr o)
  = inr (default o (last (filter (λ v, Core.nullish v = false) vals))).
Proof.
  intros Hd Hreads. revert o.
  induction Hreads as [|k v keys vals Hk Hreads IH]; intros o; simpl; [done |].
  unfold Core.get at 2. rewrite Hd, Hk, filter_cons.
  destruct (decide (Core.nullish v = false)) as [Hv|Hv].
  - rewrite Hv, IH.
    destruct (filter (λ v0, Core.nullish v0 = false) vals) as [|w ws]; [done |].
    rewrite last_cons_cons.
    destruct (last (w :: ws)) as [u|] eqn:Hlast; [done |].
    by apply last_None in Hlast.
  - apply not_false_is_true in Hv. rewrite Hv. apply IH.
Qed.

(** X11. [get_in] with a default reads the keys from the default, not from
    the object: with a default that is [undefined] or [null] it returns the
    object; otherwise it returns what the default holds under the last key
    whose value there is neither [undefined] nor [null], and the object if
    there is no such key. *)
Theorem get_in_reads_the_default read obj if_absent (keys vals : list value) :
  (Core.nullish if_absent = true → Core.get_in read obj if_absent keys = inr obj)
  ∧ (Core.nullish if_absent = false →
     Forall2 (λ k v, read if_absent k = inr v) keys vals →
     Core.get_in read obj if_absent keys
     = inr (default obj (last (filter (λ v, Core.nullish v = false) vals)))).
Proof.
  split.
  - intros Hd. unfold Core.get_in. induction keys as [|k keys IH] using rev_ind; [done |].
    rewrite fold_left_app, IH. simpl. unfold Core.get. by rewrite Hd.
  - intros Hd Hreads. by apply get_in_step.
Qed.

Lemma get_in_reads_the_default_witness :
  let st := run [NewObject [("a", VNumber 1)]; NewObject [("a", VNumber 2)]]
                (init full_host) in
  Core.get_in (Core.own_read (heap st)) (VObject 0) (VObject 1) [VString "a"]
  = inr (VNumber 2).
Proof.
  intros st.
  destruct (get_in_reads_the_default (Core.own_read (heap st)) (VObject 0) (VObject 1)
              [VString "a"] [VNumber 2]) as [_ Hreads].
  apply Hreads; [reflexivity |]. repeat constructor.
Defined.

(** ** Pipelines *)


Lemma pipe_rest_app h (fs gs : list Core.stage) x :
  Core.pipe_rest h (fs ++ gs) x
  = match Core.pipe_rest h fs x with
    | (inr y, _) => Core.pipe_rest h gs y
    | thrown => thrown
    end.
Proof.
  revert x. induction fs as [|f fs IH]; intros x; simpl; [done |].
  by destruct (Core.call_stage f [x]) as [e|y].
Qed.


(** X12. A pipeline over the stages [fs ++ gs] is the pipeline over [fs]
    followed by the stages [gs]: when the first part throws, the error
    and the one message reported are those of the first part and no stage
    of [gs] is called; when it returns, its result is fed to [gs]. *)
Theorem pipe_composes h first (fs gs : list Core.stage) args :
  Core.pipe h first (fs ++ gs) args
  = match Core.pipe h first fs args with
    | (inr y, _) => Core.pipe_rest h gs y
    | thrown => thrown
    end.
Proof.
  unfold Core.pipe. destruct (Core.call_stage first args) as [e|y].
  - by destruct (Core.map_throwing (Core.toString h) args).
  - apply pipe_rest_app.
Qed.




(** X15. [pipe_some] over the stages [fs ++ gs]: when the first part
    throws, so does the whole with the same error and message; when a
    stage of the first part returns [undefined] or [null], the whole
    returns [undefined] and no stage of [gs] is called; otherwise the
    result of the first part is fed to [gs]. *)
Theorem pipe_some_composes h (fs gs : list Core.stage) x :
  Core.pipe_some h (fs ++ gs) x
  = match Core.pipe_some h fs x with
    | (inr y, _) =>
        if Core.nullish y && negb (bool_decide (fs = []))
        then (inr VUndefined, [])
        else Core.pipe_some h gs y
    | thrown => thrown
    end.
Proof.
  revert x. induction fs as [|f fs IH]; intros x.
  - simpl. by rewrite andb_false_r.
  - simpl. destruct (Core.call_stage f [x]) as [e|y]; [done |].
    destruct (Core.nullish y) eqn:Hy; [done |].
    rewrite IH. destruct (Core.pipe_some h fs y) as [[e|z] log] eqn:Hfs; [done |].
    destruct fs as [|f' fs]; [|by rewrite !andb_true_r].
    simpl in Hfs. injection Hfs as <- <-. by rewrite Hy.
Qed.



(** ** once *)

Lemma once_calls_cached {W} (f : list value → W → (exn + value) * W) v calls w :
  Core.once_calls f (Some v) calls w = ((λ _, inr v) <$> calls, Some v, w).
Proof.
  induction calls as [|args calls IH]; simpl; [done |]. by rewrite IH.
Qed.

Lemma once_calls_app {W} (f : list value → W → (exn + value) * W) result calls1 calls2 w :
  Core.once_calls f result (calls1 ++ calls2) w
  = let '(rs1, result1, w1) := Core.once_calls f result calls1 w in
    let '(rs2, result2, w2) := Core.once_calls f result1 calls2 w1 in
    (rs1 ++ rs2, result2, w2).
Proof.
  revert result w. induction calls1 as [|args calls1 IH]; intros result w; simpl.
  - by destruct (Core.once_calls f result calls2 w) as [[rs2 result2] w2].
  - destruct (Core.once f result args w) as [[r result'] w'].
    rewrite IH.
    destruct (Core.once_calls f result' calls1 w') as [[rs1 result1] w1].
    by destruct (Core.once_calls f result1 calls2 w1) as [[rs2 result2] w2].
Qed.

(** X17. The function [once] returns runs the wrapped function until a
    call of it returns, and never again: calls that throw leave nothing
    cached, and after the first call that returns, every later call
    returns that result whatever its arguments, without running the
    function and without effect. *)
Theorem once_caches_first_return {W} (f : list value → W → (exn + value) * W)
    before args after w0 rs w v w' :
  Core.once_calls f None before w0 = (rs, None, w) →
  f args w = (inr v, w') →
  Core.once_calls f None (before ++ args :: after) w0
  = (rs ++ inr v :: ((λ _, inr v) <$> after), Some v, w').
Proof.
  intros Hbefore Hf. rewrite once_calls_app, Hbefore. simpl.
  by rewrite Hf, once_calls_cached.
Qed.

Lemma once_caches_first_return_witness :
  let counting := λ (args : list value) (w : nat),
    match args with
    | [] => (inl (Error "nothing to keep"), S w)
    | x :: _ => (inr x, S w)
    end in
  Core.once_calls counting None
    ([[]] ++ [VNumber 7] :: [[VNumber 8]; []]) 0
  = ([inl (Error "nothing to keep")] ++ inr (VNumber 7)
       :: ((λ _, inr (VNumber 7)) <$> [[VNumber 8]; []]),
     Some (VNumber 7), 2).
Proof.
  intros counting.
  apply (once_caches_first_return counting [[]] [VNumber 7] [[VNumber 8]; []] 0
           [inl (Error "nothing to keep")] 1 (VNumber 7) 2); reflexivity.
Defined.

(** X18. A call of [once]'s function that throws caches nothing: as long
    as nothing is cached after a series of calls, every one of them threw. *)
Theorem once_uncached_means_every_call_threw {W}
    (f : list value → W → (exn + value) * W) calls w rs w' :
  Core.once_calls f None calls w = (rs, None, w') →
  Forall (λ r, ∃ e, r = inl e) rs ∧ List.length rs = List.length calls.
Proof.
  revert w rs. induction calls as [|args calls IH]; intros w rs; simpl.
  - intros [= <- <-]. by split.
  - destruct (f args w) as [[e|v] w1] eqn:Hf.
    + destruct (Core.once_calls f None calls w1) as [[rs1 result1] w2] eqn:Hcalls.
      intros [= <- -> <-]. destruct (IH _ _ Hcalls) as [Hall Hlen].
      split; [constructor; [by eexists | done] | simpl; by rewrite Hlen].
    + rewrite once_calls_cached. by intros [= _ _].
Qed.

Lemma once_uncached_means_every_call_threw_witness :
  let failing := λ (args : list value) (w : nat), (inl (Error "no") : exn + value, S w) in
  Forall (λ r : exn + value, ∃ e, r = inl e) [inl (Error "no"); inl (Error "no")]
  ∧ List.length [inl (Error "no") : exn + value; inl (Error "no")]
    = List.length [[VNumber 1]; [VNumber 2]].
Proof.
  intros failing.
  apply (once_uncached_means_every_call_threw failing [[VNumber 1]; [VNumber 2]] 0
           [inl (Error "no"); inl (Error "no")] 2).
  reflexivity.
Defined.

(** ** Multimethods *)

Lemma Map_get_set {K V} `{EqDecision K} (k k' : K) (v : V) (m : list (K * V)) :
  Core.Map_get k' (Core.Map_set k v m)
  = if decide (k' = k) then Some v else Core.Map_get k' m.
Proof.
  induction m as [|[k0 v0] m IH]; simpl.
  - by destruct (decide (k' = k)).
  - destruct (decide (k = k0)) as [->|Hk]; simpl.
    + by destruct (decide (k' = k0)).
    + destruct (decide (k' = k0)) as [->|Hk'].
      * by rewrite decide_False by done.
      * apply IH.
Qed.

Lemma Map_get_delete {K V} `{EqDecision K} (k k' : K) (m : list (K * V)) :
  Core.Map_get k' (Core.Map_delete k m)
  = if decide (k' = k) then None else Core.Map_get k' m.
Proof.
  unfold Core.Map_delete. induction m as [|[k0 v0] m IH]; simpl.
  - by destruct (decide (k' = k)).
  - rewrite filter_cons. simpl. destruct (decide (k0 ≠ k)) as [Hk|Hk]; simpl.
    + destruct (decide (k' = k0)) as [->|Hk']; [by rewrite decide_False by done |].
      apply IH.
    + apply dec_stable in Hk as ->. rewrite IH.
      by destruct (decide (k' = k)).
Qed.

(** X19. Adding a method to a multimethod makes the dispatch call it for
    the arguments that dispatch to its value, replacing a method added
    before for that value, and leaves the dispatch of all other arguments
    as it was. *)
Theorem method_overrides {K} `{EqDecision K} (m : Core.multimethod K) k f args k' :
  Core.on m args = inr k' →
  Core.dispatch (Core.method m k f) args
  = if decide (k' = k) then Core.call f args else Core.dispatch m args.
Proof.
  intros Hon. unfold Core.dispatch, Core.method. simpl.
  rewrite Hon, Map_get_set. by destruct (decide (k' = k)).
Qed.

Lemma method_overrides_witness :
  let by_length := Core.multi "describe" (λ args, inr (List.length args))
                     (λ _, inr (VString "many")) in
  let none := Core.Fn "none" 0 (λ _, inr (VString "none")) in
  let empty := Core.Fn "empty" 0 (λ _, inr (VString "empty")) in
  Core.dispatch (Core.method (Core.method by_length 0 none) 0 empty) []
  = if decide (0 = 0) then Core.call empty [] else
      Core.dispatch (Core.method by_length 0 none) [].
Proof.
  intros by_length none empty.
  apply (method_overrides (Core.method by_length 0 none) 0 empty [] 0).
  reflexivity.
Defined.

(** X20. Deleting a method makes the arguments that dispatch to its value
    fall to the default, leaves the dispatch of all other arguments as it
    was, and answers whether there was a method to delete; afterwards
    [has_method] answers [false] for that value, as it answers [true]
    after [method]. *)
Theorem delete_method_removes {K} `{EqDecision K} (m : Core.multimethod K) k f args k' :
  Core.on m args = inr k' →
  Core.dispatch (Core.delete_method m k).1 args
  = (if decide (k' = k) then Core.not_found m args else Core.dispatch m args)
  ∧ (Core.delete_method m k).2 = Core.has_method m k
  ∧ Core.has_method (Core.delete_method m k).1 k = false
  ∧ Core.has_method (Core.method m k f) k = true
  ∧ (Core.delete_method (Core.method m k f) k).2 = true.
Proof.
  intros Hon. unfold Core.dispatch, Core.delete_method, Core.has_method, Core.method.
  simpl. rewrite Hon, !Map_get_delete, !Map_get_set.
  rewrite !(decide_True (P := k = k)) by done.
  split; [by destruct (decide (k' = k)) |]. split; [done |].
  split; [apply bool_decide_eq_false; by intros [? ?] |].
  split; by apply bool_decide_eq_true.
Qed.

Lemma delete_method_removes_witness :
  let by_length := Core.multi "describe" (λ args, inr (List.length args))
                     (λ _, inr (VString "many")) in
  let none := Core.Fn "none" 0 (λ _, inr (VString "none")) in
  Core.dispatch (Core.delete_method (Core.method by_length 0 none) 0).1 []
  = inr (VString "many").
Proof.
  intros by_length none.
  destruct (delete_method_removes (Core.method by_length 0 none) 0 none [] 0)
    as [Hdispatch _]; [reflexivity |].
  exact Hdispatch.
Defined.



(** ** Spec combinators *)

Lemma some_not (specs : list Core.spec_fn) x :
  Core.some (Core.not <$> specs) x
  = match Core.every specs x with
    | inl e => inl e
    | inr b => inr (negb b)
    end.
Proof.
  induction specs as [|s specs IH]; simpl; [done |].
  destruct (Core.check_fn s x) as [e|r]; [done |].
  simpl. destruct (Core.truthy r); simpl; [apply IH | done].
Qed.

Lemma every_not (specs : list Core.spec_fn) x :
  Core.every (Core.not <$> specs) x
  = match Core.some specs x with
    | inl e => inl e
    | inr b => inr (negb b)
    end.
Proof.
  induction specs as [|s specs IH]; simpl; [done |].
  destruct (Core.check_fn s x) as [e|r]; [done |].
  simpl. destruct (Core.truthy r); simpl; [done | apply IH].
Qed.

(** X22. De Morgan's laws hold for the spec combinators, errors
    included: the negation of [or] over some specs checks a value as [and]
    over their negations does, and the negation of [and] as [or] over the
    negations; each pair calls the same specs in the same order and throws
    the same error when one of them throws. *)
Theorem spec_de_morgan (specs : list Core.spec_fn) x :
  Core.check (Core.not (Core.or specs)) x
  = Core.check (Core.and (Core.not <$> specs)) x
  ∧ Core.check (Core.not (Core.and specs)) x
    = Core.check (Core.or (Core.not <$> specs)) x.
Proof.
  unfold Core.check. simpl. rewrite some_not, every_not. split.
  - by destruct (Core.some specs x) as [e|[]].
  - by destruct (Core.every specs x) as [e|[]].
Qed.

(** X23. [or] accepts a value exactly when one of its specs returns
    something truthy before any spec throws; the specs after the first
    that accepts are not called, so an error they would throw is not
    thrown. *)
Theorem or_stops_at_first_accepting (before after : list Core.spec_fn) s x r :
  Forall (λ s', ∃ r', Core.check s' x = inr r' ∧ Core.truthy r' = false) before →
  Core.check s x = inr r →
  Core.truthy r = true →
  Core.check (Core.or (before ++ s :: after)) x = inr (VBoolean true).
Proof.
  intros Hbefore Hs Hr. unfold Core.check in *. simpl.
  induction Hbefore as [|s' before (r' & Hs' & Hr') _ IH]; simpl.
  - by rewrite Hs, Hr.
  - rewrite Hs', Hr'. apply IH.
Qed.

Lemma or_stops_at_first_accepting_witness :
  let is_string := Core.Spec "is_string"
    (λ x, inr (VBoolean match x with VString _ => true | _ => false end)) None [] in
  let throwing := Core.Spec "throwing" (λ _, inl (Error "no")) None [] in
  Core.check (Core.or ([Core.is_undef] ++ is_string :: [throwing])) (VString "a")
  = inr (VBoolean true).
Proof.
  intros is_string throwing.
  apply (or_stops_at_first_accepting [Core.is_undef] [throwing] is_string
           (VString "a") (VBoolean true)).
  - repeat constructor. by exists (VBoolean false).
  - reflexivity.
  - reflexivity.
Defined.

(** X24. [maybe] calls the spec it wraps first, also on [undefined] and
    [null]: it throws what the spec throws, and otherwise accepts exactly
    the values the spec accepts together with [undefined] and [null]. *)
Theorem maybe_checks_spec_first (s : Core.spec_fn) x :
  Core.check (Core.maybe s) x
  = match Core.check s x with
    | inl e => inl e
    | inr r => inr (VBoolean (Core.truthy r || Core.nullish x))
    end.
Proof.
  unfold Core.check. simpl.
  destruct (Core.check_fn s x) as [e|r]; [done |]. simpl.
  destruct (Core.truthy r); simpl; [done |].
  unfold Core.is_undefined. by destruct (Core.nullish x).
Qed.

(** ** Normalization of a record's entries *)

Lemma joined_key_unique (k1 k2 s1 s2 : string) :
  has_comma k1 = false → has_comma k2 = false →
  k1 +:+ "," +:+ s1 = k2 +:+ "," +:+ s2 → k1 = k2.
Proof.
  revert k2. induction k1 as [|c k1 IH]; intros [|c' k2]; simpl; try done.
  - intros _ [Hc _]%orb_false_elim [= <- _]. by apply bool_decide_eq_false in Hc.
  - intros [Hc _]%orb_false_elim _ [= -> _]. by apply bool_decide_eq_false in Hc.
  - intros [_ H1]%orb_false_elim [_ H2]%orb_false_elim [= -> Heq].
    f_equal. by apply IH.
Qed.

Lemma digits_value_no_comma (s : string) acc n :
  digits_value s acc = Some n → has_comma s = false.
Proof.
  revert acc. induction s as [|c s IH]; intros acc; simpl; [done |].
  destruct (digit c) as [d|] eqn:Hd; [|done]. intros Hs.
  apply orb_false_intro; [|by eapply IH].
  apply bool_decide_eq_false. intros ->. by vm_compute in Hd.
Qed.

Lemma index_no_comma (e : entry) : is_index e = true → has_comma e.1 = false.
Proof.
  unfold is_index. intros [n Hn]%bool_decide_eq_true. revert Hn.
  unfold array_index. destruct e.1 as [|c s] eqn:Hk; [done |].
  destruct (decide (c = "0"%char)) as [->|Hc].
  - destruct (decide (s = EmptyString)) as [->|]; [done | done].
  - destruct (digits_value (String c s) 0) as [m|] eqn:Hm; [|done].
    intros _. by eapply digits_value_no_comma.
Qed.

Lemma entry_unique (l : list entry) (e1 e2 : entry) :
  NoDup (keys l) → e1 ∈ l → e2 ∈ l → e1.1 = e2.1 → e1 = e2.
Proof.
  intros Hnd H1 H2 Hk. destruct e1 as [k v1], e2 as [k' v2]. simpl in Hk. subst k'.
  apply (field_lookup_Some _ _ _ Hnd) in H1, H2. congruence.
Qed.

Lemma text_unique_without_commas hst h (l : list entry) :
  NoDup (keys l) → Forall (λ e, has_comma e.1 = false) l →
  NoDup (entry_text hst h <$> l).
Proof.
  intros Hnd Hall. apply NoDup_fmap_2_strong; [|by eapply NoDup_fmap_1].
  intros e1 e2 H1 H2 Heq. rewrite Forall_forall in Hall.
  apply (entry_unique l); [done ..|].
  by eapply joined_key_unique; [apply Hall | apply Hall | exact Heq].
Qed.

(** The sort is stable: entries of one joined text keep their order. *)
Lemma stable_insert_stable hst h t x (l : list entry) :
  with_text hst h t (stable_insert (compare_texts hst h) x l) = with_text hst h t (x :: l).
Proof.
  unfold with_text. induction l as [|y l IH]; simpl; [done |].
  destruct (compare_texts hst h x y <=? 0)%Z eqn:Hc; [done |].
  rewrite filter_cons, IH, !filter_cons.
  assert (Hne : entry_text hst h x ≠ entry_text hst h y).
  { intros Heq. unfold compare_texts in Hc. rewrite Heq in Hc.
    assert (Hirr : String.ltb (entry_text hst h y) (entry_text hst h y) = false).
    { destruct (String.ltb _ _) eqn:Hl; [|done]. by apply ltb_asym in Hl as Hl'; congruence. }
    by rewrite Hirr in Hc. }
  destruct (decide (entry_text hst h y = t)) as [Hy|Hy];
    destruct (decide (entry_text hst h x = t)) as [Hx|Hx]; [congruence | done ..].
Qed.

Lemma stable_sort_stable hst h t (l : list entry) :
  with_text hst h t (stable_sort (compare_texts hst h) l) = with_text hst h t l.
Proof.
  induction l as [|x l IH]; simpl; [done |].
  rewrite stable_insert_stable. unfold with_text in *. by rewrite !filter_cons, IH.
Qed.

Lemma text_le_refl hst h (x : entry) : text_le hst h x x.
Proof.
  unfold text_le. destruct (String.ltb _ _) eqn:Hl; [|done].
  apply ltb_asym in Hl as Hl'. congruence.
Qed.

(** A sorted sequence is determined by its entries and by the order of
    those that have the same joined text. *)
Lemma sorted_stable_unique hst h (l l' : list entry) :
  StronglySorted (text_le hst h) l → StronglySorted (text_le hst h) l' →
  l ≡ₚ l' → (∀ t, with_text hst h t l = with_text hst h t l') → l = l'.
Proof.
  revert l'. induction l as [|x l IH]; intros l' Hs Hs' Hperm Hsame.
  - by apply Permutation_nil in Hperm.
  - destruct l' as [|x' l']; [by apply Permutation_sym, Permutation_nil in Hperm |].
    apply StronglySorted_inv in Hs as [Hs Hx]. apply StronglySorted_inv in Hs' as [Hs' Hx'].
    rewrite Forall_forall in Hx, Hx'.
    assert (Hle : text_le hst h x x').
    { assert (Hin : x' ∈ x :: l) by (rewrite Hperm; left).
      apply elem_of_cons in Hin as [->|Hin]; [apply text_le_refl | by apply Hx]. }
    assert (Hle' : text_le hst h x' x).
    { assert (Hin : x ∈ x' :: l') by (rewrite <- Hperm; left).
      apply elem_of_cons in Hin as [->|Hin]; [apply text_le_refl | by apply Hx']. }
    assert (Htext : entry_text hst h x = entry_text hst h x') by (by apply ltb_antisym).
    assert (x = x') as <-.
    { specialize (Hsame (entry_text hst h x)). unfold with_text in Hsame.
      rewrite !filter_cons, decide_True in Hsame by done.
      rewrite decide_True in Hsame by done. congruence. }
    f_equal. apply IH; [done | done | by eapply Permutation_cons_inv |].
    intros t. specialize (Hsame t). unfold with_text in *.
    rewrite !filter_cons in Hsame. by destruct (decide (entry_text hst h x = t)); simplify_eq.
Qed.

Lemma filter_all {A} (P : A → Prop) `{∀ x, Decision (P x)} (l : list A) :
  Forall P l → filter P l = l.
Proof.
  induction 1 as [|x l Hx _ IH]; [done |]. by rewrite filter_cons_True, IH.
Qed.

Lemma filter_none {A} (P : A → Prop) `{∀ x, Decision (P x)} (l : list A) :
  Forall (λ x, ¬ P x) l → filter P l = [].
Proof.
  induction 1 as [|x l Hx _ IH]; [done |]. by rewrite filter_cons_False.
Qed.

Lemma filter_comm {A} (P Q : A → Prop) `{∀ x, Decision (P x)} `{∀ x, Decision (Q x)}
    (l : list A) :
  filter P (filter Q l) = filter Q (filter P l).
Proof.
  induction l as [|x l IH]; [done |]. rewrite !filter_cons.
  destruct (decide (Q x)), (decide (P x)); rewrite ?filter_cons;
    rewrite ?decide_True, ?decide_False by done; by rewrite IH.
Qed.

Lemma filter_index_app (A B : list entry) :
  Forall (λ e, is_index e = true) A → Forall (λ e, is_index e = false) B →
  filter (λ e, is_index e = true) (A ++ B) = A
  ∧ filter (λ e, is_index e = false) (A ++ B) = B.
Proof.
  intros HA HB. rewrite !filter_app. split.
  - rewrite (filter_all _ A) by done. rewrite (filter_none _ B); [by rewrite app_nil_r |].
    eapply Forall_impl; [exact HB |]. intros e He. simpl in *. congruence.
  - rewrite (filter_all _ B) by done. rewrite (filter_none _ A); [done |].
    eapply Forall_impl; [exact HA |]. intros e He. simpl in *. congruence.
Qed.

Lemma Forall_filter_holds {A} (P : A → Prop) `{∀ x, Decision (P x)} (l : list A) :
  Forall P (filter P l).
Proof. apply Forall_forall. by intros x [? _]%list_elem_of_filter. Qed.

(** The entries of one joined text in own-property order: the array
    indices among them first. *)
Lemma with_text_own_property_order hst h t (fs : list entry) :
  ∃ A B, with_text hst h t (own_property_order fs) = A ++ B
       ∧ Forall (λ e, is_index e = true) A ∧ Forall (λ e, is_index e = false) B.
Proof.
  unfold with_text, own_property_order. rewrite filter_app. eexists _, _.
  split; [done |]. split; apply Forall_forall; intros e [_ He]%list_elem_of_filter.
  - rewrite stable_sort_perm in He. by apply list_elem_of_filter in He as [? _].
  - by apply list_elem_of_filter in He as [? _].
Qed.

Lemma short_perm {A} (l l' : list A) :
  (∀ x y, x ∈ l → y ∈ l → x = y) → NoDup l → l' ≡ₚ l → l' = l.
Proof.
  intros Hone Hnd Hperm. destruct l as [|a [|b l]].
  - by apply Permutation_nil.
  - by apply Permutation_singleton_r.
  - apply NoDup_cons in Hnd as [Hnin _]. exfalso. apply Hnin.
    rewrite (Hone a b); [left | left | right; left].
Qed.

(** Own-property order leaves the entries of one joined text in place,
    when the array indices among them come first already. *)
Lemma with_text_reorder hst h t (l : list entry) A B :
  NoDup (keys l) →
  with_text hst h t l = A ++ B →
  Forall (λ e, is_index e = true) A → Forall (λ e, is_index e = false) B →
  with_text hst h t (own_property_order l) = with_text hst h t l.
Proof.
  intros Hnd Hsplit HA HB. destruct (filter_index_app A B HA HB) as [HfA HfB].
  unfold with_text in *. unfold own_property_order. rewrite filter_app.
  rewrite (filter_comm _ (λ e, is_index e = false)), Hsplit, HfB. f_equal.
  apply short_perm.
  - intros x y Hx Hy.
    assert (Hin : ∀ z, z ∈ A → z ∈ l ∧ entry_text hst h z = t ∧ is_index z = true).
    { intros z Hz. rewrite Forall_forall in HA. split; [|split; [|by apply HA]].
      - assert (Hz' : z ∈ A ++ B) by (apply elem_of_app; by left).
        rewrite <- Hsplit in Hz'. by apply list_elem_of_filter in Hz' as [_ ?].
      - assert (Hz' : z ∈ A ++ B) by (apply elem_of_app; by left).
        rewrite <- Hsplit in Hz'. by apply list_elem_of_filter in Hz' as [? _]. }
    destruct (Hin x Hx) as (Hxl & Hxt & Hxi), (Hin y Hy) as (Hyl & Hyt & Hyi).
    apply (entry_unique l); [done ..|].
    eapply joined_key_unique; [by apply index_no_comma | by apply index_no_comma |].
    unfold entry_text in Hxt, Hyt. rewrite Hxt, Hyt. done.
  - assert (Hsub : NoDup (A ++ B)).
    { rewrite <- Hsplit. apply NoDup_filter. by eapply NoDup_fmap_1. }
    by apply NoDup_app in Hsub as [? _].
  - rewrite <- HfA, <- Hsplit.
    rewrite (filter_comm (λ e, is_index e = true)).
    apply filter_Permutation, stable_sort_perm.
Qed.

(** Normalizing the normalized entries gives them back. *)
Lemma normalization_idempotent hst h (fs : list entry) :
  NoDup (keys fs) →
  stable_sort (compare_texts hst h)
    (own_property_order (stable_sort (compare_texts hst h) (own_property_order fs)))
  = stable_sort (compare_texts hst h) (own_property_order fs).
Proof.
  intros Hnd. apply (sorted_stable_unique hst h); try apply stable_sort_sorted.
  - by rewrite stable_sort_perm, own_property_order_perm.
  - intros t. rewrite stable_sort_stable.
    destruct (with_text_own_property_order hst h t fs) as (A & B & Hsplit & HA & HB).
    apply (with_text_reorder hst h t _ A B); [| |done ..].
    + rewrite (keys_perm _ fs); [done |].
      by rewrite stable_sort_perm, own_property_order_perm.
    + by rewrite stable_sort_stable.
Qed.

(** X25. The entries under which [Record] interns the record it returns,
    which is the sequence the sort returns, handed to [RECORD_GRAPH.get]
    and assigned in that order by the creator, are exactly the own entries
    of the source, in an order in which the joined text of an entry is
    never greater than that of a later one, entries of one joined text
    standing as the source enumerates them.  The record returned is frozen
    and enumerates these entries in own-property order, its array indices
    first. *)
Theorem Record_interns_sorted_source_entries v st a st1 :
  reachable st → Record v st = (inr a, st1) →
  ∃ properties,
    Array_sort (compare_entries (host st) (heap st)) (source_entries st v)
    = inr properties
    ∧ node_get properties (RECORD_GRAPH st1) = Some a
    ∧ heap st1 !! a = Some (Object properties true (Some KRecord))
    ∧ source_entries st1 (VObject a) = own_property_order properties
    ∧ properties ≡ₚ source_entries st v
    ∧ StronglySorted (text_le (host st) (heap st)) properties
    ∧ ∀ t, with_text (host st) (heap st) t properties
           = with_text (host st) (heap st) t (source_entries st v).
Proof.
  intros Hreach Hrec.
  destruct (Record_returns v st a st1 (reachable_wf _ Hreach) Hrec)
    as ((_ & _ & Hsort & _) & Ha & Hget & _).
  exists (record_properties st v).
  split; [by apply Array_sort_sortable |]. split; [done |]. split; [done |].
  split; [unfold source_entries; by rewrite Ha |].
  split; [apply stable_sort_perm |]. split; [apply stable_sort_sorted |].
  intros t. apply stable_sort_stable.
Qed.

Lemma Record_interns_sorted_source_entries_witness :
  let st := run [NewObject [("9", VNumber 0); ("10", VNumber 1)]] (init full_host) in
  ∃ properties,
    Array_sort (compare_entries (host st) (heap st)) (source_entries st (VObject 0))
    = inr properties
    ∧ node_get properties (RECORD_GRAPH (Record (VObject 0) st).2) = Some 1
    ∧ heap (Record (VObject 0) st).2 !! 1 = Some (Object properties true (Some KRecord))
    ∧ source_entries (Record (VObject 0) st).2 (VObject 1)
      = own_property_order properties
    ∧ properties ≡ₚ source_entries st (VObject 0)
    ∧ StronglySorted (text_le (host st) (heap st)) properties
    ∧ ∀ t, with_text (host st) (heap st) t properties
           = with_text (host st) (heap st) t (source_entries st (VObject 0)).
Proof.
  intros st.
  apply (Record_interns_sorted_source_entries (VObject 0) st 1 (Record (VObject 0) st).2).
  - by exists full_host, [NewObject [("9", VNumber 0); ("10", VNumber 1)]].
  - vm_compute. reflexivity.
Defined.

(** X26. [Record] is idempotent: called on a record it returned, it
    returns that record and changes nothing. *)
Theorem Record_idempotent v st a st1 :
  reachable st → Record v st = (inr a, st1) →
  Record (VObject a) st1 = (inr a, st1).
Proof.
  intros Hreach Hrec. assert (Hwf := reachable_wf _ Hreach).
  eapply Record_repeat_properties; [done | done | done |].
  destruct (Record_returns v st a st1 Hwf Hrec)
    as ((Hcap & Hobj & Hsort & Hval) & Ha & _ & Hst).
  assert (Hidem : stable_sort (compare_texts (host st) (heap st))
                    (own_property_order (record_properties st v))
                  = record_properties st v).
  { unfold record_properties, source_entries. destruct v as [| | | | | |x]; try done.
    destruct (heap st !! x) as [o|] eqn:Ho; [|done].
    apply normalization_idempotent. by apply (keys_unique _ Hwf x o). }
  assert (Hsrc : source_entries st1 (VObject a)
                 = own_property_order (record_properties st v)).
  { unfold source_entries. by rewrite Ha. }
  unfold record_properties at 1. rewrite Hsrc.
  destruct Hst as [->|[-> ->]]; [done |].
  assert (Hfree := wf_next_free st Hwf).
  assert (Hval0 : Forall (valid_in (heap st)) (source_entries st v)).
  { unfold record_properties in Hval.
    by rewrite (stable_sort_perm _ (source_entries st v)) in Hval. }
  assert (Hrhs : record_properties (intern_state KRecord (record_properties st v) st) v
                 = record_properties st v).
  { set (P := record_properties st v) at 1. unfold record_properties.
    rewrite source_entries_intern, heap_intern_state; [by apply sort_fresh | done |].
    destruct (decide (v = VObject (next_addr st))) as [->|Hne]; [|by right].
    left. unfold P, record_properties, source_entries. by rewrite Hfree. }
  rewrite Hrhs, heap_intern_state.
  change (host (intern_state KRecord (record_properties st v) st)) with (host st).
  rewrite sort_fresh; [done | done |].
  by rewrite own_property_order_perm.
Qed.

Lemma Record_idempotent_witness :
  let st := run [NewObject [("1,a", VString "b"); ("b", VNumber 2); ("1", VString "a,b")]]
                (init full_host) in
  Record (VObject 1) (Record (VObject 0) st).2 = (inr 1, (Record (VObject 0) st).2).
Proof.
  intros st. apply (Record_idempotent (VObject 0) st).
  - by exists full_host,
      [NewObject [("1,a", VString "b"); ("b", VNumber 2); ("1", VString "a,b")]].
  - vm_compute. reflexivity.
Defined.

(** X27. [Record] does not depend on the order in which the source
    enumerates its fields when no key of the source holds a comma: a
    second source with the same fields in any order yields the same
    record. *)
Theorem Record_order_independent_without_commas v v' st a st1 :
  reachable st → Record v st = (inr a, st1) →
  isObject v' = true →
  source_entries st1 v' ≡ₚ source_entries st1 v →
  Forall (λ e, has_comma e.1 = false) (source_entries st1 v) →
  Record v' st1 = (inr a, st1).
Proof.
  intros Hreach Hrec Hobj Hperm Hkeys.
  eapply Record_repeat_properties; [by apply reachable_wf | done ..|].
  symmetry. apply record_properties_order_independent; [done |].
  apply text_unique_without_commas; [|done].
  assert (Hwf1 : wf st1).
  { destruct (Record_sound v st (reachable_wf _ Hreach)) as [Hwf1 _].
    by rewrite Hrec in Hwf1. }
  unfold source_entries. destruct v as [| | | | | |x]; try apply NoDup_nil_2.
  destruct (heap st1 !! x) as [o|] eqn:Ho; [|apply NoDup_nil_2].
  rewrite (keys_perm _ (fields o)) by apply own_property_order_perm.
  by apply (keys_unique _ Hwf1 x o).
Qed.

Lemma Record_order_independent_without_commas_witness :
  let st := run [NewObject [("a", VNumber 1); ("a!", VNumber 1)];
                 NewObject [("a!", VNumber 1); ("a", VNumber 1)]] (init full_host) in
  Record (VObject 1) (Record (VObject 0) st).2 = (inr 2, (Record (VObject 0) st).2).
Proof.
  intros st. apply (Record_order_independent_without_commas (VObject 0) (VObject 1) st).
  - by exists full_host, [NewObject [("a", VNumber 1); ("a!", VNumber 1)];
                          NewObject [("a!", VNumber 1); ("a", VNumber 1)]].
  - vm_compute. reflexivity.
  - reflexivity.
  - vm_compute. apply Permutation_swap.
  - vm_compute. repeat constructor.
Defined.

(** ** The interning invariant and the two entry points *)

(** X28. Among the live composites of one kind, two have equal entry
    sequences (nested composites compared by address) exactly when they
    are the same object.  The invariant holds in every reachable state,
    and every get-or-create on the graph and every other operation keeps
    it.  What [Record] and [Tuple] return is a live, frozen composite of
    their kind that holds the normalized entries of the source; and a
    constructor called again on a source that normalizes to the same
    entry sequence returns the identical object, right away and after any
    run of the program that leaves the first result live. *)
Theorem interning_canonical st :
  reachable st →
  canonical st
  ∧ (∀ k values,
       Forall (valid_in (heap st)) values → NoDup (keys values) →
       canonical (InternGraph_get k (creator_of k) values st).2)
  ∧ (∀ o, canonical (exec o st).2)
  ∧ (∀ v a st1,
       Record v st = (inr a, st1) →
       heap st1 !! a = Some (Object (record_properties st v) true (Some KRecord))
       ∧ canonical st1)
  ∧ (∀ values a st1,
       Tuple values st = (inr a, st1) →
       heap st1 !! a = Some (Object (tuple_entries 0 values) true (Some KTuple))
       ∧ canonical st1)
  ∧ (∀ v v' a st1,
       Record v st = (inr a, st1) → isObject v' = true →
       source_entries st1 v' = source_entries st1 v →
       Record v' st1 = (inr a, st1))
  ∧ (∀ v v' a b st1 st3 ops,
       Record v st = (inr a, st1) →
       Record v' (run ops st1) = (inr b, st3) →
       record_properties (run ops st1) v' = record_properties st v →
       is_Some (heap (run ops st1) !! a) →
       b = a)
  ∧ (∀ values a b st1 st3 ops,
       Tuple values st = (inr a, st1) →
       Tuple values (run ops st1) = (inr b, st3) →
       is_Some (heap (run ops st1) !! a) →
       b = a).
Proof.
  intros Hreach. assert (Hwf := reachable_wf st Hreach).
  split; [by apply wf_canonical |].
  split; [|split; [|split; [|split; [|split; [|split]]]]].
  - intros k values Hval Hnd. apply wf_canonical.
    destruct (get_cases k values st Hwf Hval Hnd) as [(a & -> & _)|[-> Hdead]];
      cbn [snd]; [done | by apply wf_intern].
  - intros o. apply wf_canonical. by apply exec_sound.
  - intros v a st1 Hrec.
    destruct (Record_returns v st a st1 Hwf Hrec) as (_ & Ha & _).
    split; [done |]. apply wf_canonical.
    destruct (Record_sound v st Hwf) as [H _]. by rewrite Hrec in H.
  - intros values a st1 Htup.
    destruct (Tuple_returns values st a st1 Hwf Htup) as (_ & Ha & _).
    split; [done |]. apply wf_canonical.
    destruct (Tuple_sound values st Hwf) as [H _]. by rewrite Htup in H.
  - intros v v' a st1. by apply Record_repeat.
  - intros v v' a b st1 st3 ops Hrec Hrec' Hsame [o Ho].
    destruct (Record_returns v st a st1 Hwf Hrec) as (_ & Ha & _).
    assert (Hwf1 : wf st1).
    { destruct (Record_sound v st Hwf) as [H _]. by rewrite Hrec in H. }
    destruct (run_sound ops st1 Hwf1) as [Hwf2 _].
    destruct (frozen_for_life ops st1 a _ Hwf1 Ha eq_refl) as [Ho'|Ho']; [|congruence].
    destruct (Record_returns v' _ b st3 Hwf2 Hrec') as (Hnorm & _).
    rewrite (Record_again v' (run ops st1) a) in Hrec'; [congruence | done | done |].
    by rewrite Hsame.
  - intros values a b st1 st3 ops Htup Htup' [o Ho].
    destruct (Tuple_returns values st a st1 Hwf Htup) as (_ & Ha & _).
    assert (Hwf1 : wf st1).
    { destruct (Tuple_sound values st Hwf) as [H _]. by rewrite Htup in H. }
    destruct (run_sound ops st1 Hwf1) as [Hwf2 _].
    destruct (frozen_for_life ops st1 a _ Hwf1 Ha eq_refl) as [Ho'|Ho']; [|congruence].
    destruct (Tuple_returns values _ b st3 Hwf2 Htup') as (Hcap & _).
    destruct (first_invalid_value (heap (run ops st1)) values)
      as [Hval|(pre & x & post & -> & Hpre & Hx)]; cycle 1.
    { by rewrite Tuple_invalid in Htup'. }
    rewrite (Tuple_again values (run ops st1) a) in Htup'; [congruence | done ..].
Qed.

Lemma interning_canonical_witness :
  let st := run [NewObject [("b", VNumber 2); ("a", VNumber 1)]; CallRecord (VObject 0)]
                (init full_host) in
  reachable st ∧ canonical st
  ∧ heap st !! 1 = Some (Object [("a", VNumber 1); ("b", VNumber 2)] true (Some KRecord))
  ∧ Record (VObject 0) st = (inr 1, st).
Proof.
  intros st.
  assert (Hreach : reachable st)
    by (by exists full_host,
          [NewObject [("b", VNumber 2); ("a", VNumber 1)]; CallRecord (VObject 0)]).
  split; [exact Hreach |].
  destruct (interning_canonical st Hreach) as (Hcan & _ & _ & Hret & _ & Hrec & _).
  split; [exact Hcan |].
  assert (Hcall : Record (VObject 0) st = (inr 1, st)).
  { apply (Hrec (VObject 0) (VObject 0) 1 st); [|reflexivity | reflexivity].
    vm_compute. reflexivity. }
  split; [|exact Hcall].
  destruct (Hret (VObject 0) 1 st Hcall) as [Hlive _]. exact Hlive.
Defined.

Lemma assign_all_elem (props acc : list entry) e :
  e ∈ assign_all props acc → e ∈ props ∨ e ∈ acc.
Proof.
  unfold assign_all. revert acc. induction props as [|[k v] props IH]; intros acc; simpl.
  - by right.
  - intros He. apply IH in He as [He|He]; [left; by right |].
    assert (Hset : ∀ fs, e ∈ field_set k v fs → e = (k, v) ∨ e ∈ fs).
    { clear. induction fs as [|[k' w] fs IHfs]; simpl.
      - intros ->%list_elem_of_singleton. by left.
      - destruct (decide (k = k')) as [->|Hne].
        + intros [->|Hin]%elem_of_cons; [by left | right; by right].
        + intros [->|Hin]%elem_of_cons; [right; left |].
          destruct (IHfs Hin) as [->|?]; [by left | right; by right]. }
    destruct (Hset acc He) as [->|Hin]; [left; left | by right].
Qed.

(** X29. [Record.fromEntries] and [Record] are one path where the order
    of the fields cannot show: when no key of the pairs holds a comma,
    [Record] called after [Record.fromEntries(pairs)] on any object that
    holds exactly the fields the pairs assign, in any enumeration order,
    returns the record that [Record.fromEntries] returned, and changes
    nothing. *)
Theorem fromEntries_same_record_without_commas (iterator : list entry) v' st a st1 :
  reachable st →
  Record_fromEntries iterator st = (inr a, st1) →
  isObject v' = true →
  source_entries st1 v' ≡ₚ assign_all iterator [] →
  Forall (λ e, has_comma e.1 = false) iterator →
  Record v' st1 = (inr a, st1).
Proof.
  intros Hreach Hrec Hobj' Hperm Hkeys. rewrite Record_fromEntries_eq in Hrec.
  assert (Hwf0 := wf_object_state iterator st (reachable_wf _ Hreach)).
  set (st0 := object_state iterator st) in *.
  set (obj := VObject (next_addr st)) in *.
  assert (Hsrc0 : source_entries st0 obj = own_property_order (assign_all iterator [])).
  { unfold source_entries, obj, st0, object_state. simpl. by rewrite lookup_insert_eq. }
  assert (Hsrc1 : source_entries st1 obj = source_entries st0 obj).
  { destruct (Record_returns obj st0 a st1 Hwf0 Hrec) as (_ & _ & _ & [->|[_ ->]]);
      [done |].
    apply source_entries_intern; [done |]. right. unfold obj, st0, object_state. simpl.
    intros [= H]. lia. }
  assert (Hobj1 : source_entries st1 obj ≡ₚ assign_all iterator []).
  { by rewrite Hsrc1, Hsrc0, own_property_order_perm. }
  eapply Record_repeat_properties; [exact Hwf0 | exact Hrec | done |].
  symmetry. apply record_properties_order_independent; [by rewrite Hobj1, Hperm |].
  apply text_unique_without_commas.
  - rewrite (keys_perm _ _ Hobj1). apply assign_all_keys, NoDup_nil_2.
  - rewrite Hobj1. apply Forall_forall. intros e He.
    apply assign_all_elem in He as [He|He]; [|by apply elem_of_nil in He].
    rewrite Forall_forall in Hkeys. by apply Hkeys.
Qed.

Lemma fromEntries_same_record_without_commas_witness :
  let pairs := [("b", VNumber 2); ("a", VNumber 1); ("b", VNumber 3)] in
  let st := run [NewObject [("a", VNumber 1); ("b", VNumber 3)]] (init full_host) in
  Record (VObject 0) (Record_fromEntries pairs st).2
  = (inr 2, (Record_fromEntries pairs st).2).
Proof.
  intros pairs st.
  apply (fromEntries_same_record_without_commas pairs (VObject 0) st).
  - by exists full_host, [NewObject [("a", VNumber 1); ("b", VNumber 3)]].
  - vm_compute. reflexivity.
  - reflexivity.
  - vm_compute. apply Permutation_swap.
  - vm_compute. repeat constructor.
Defined.

(** ** What the sort throws *)

Lemma not_converts_exists hst h (l : list entry) :
  Exists (λ e, ¬ converts hst h e) l → 2 ≤ List.length l → ¬ sortable hst h l.
Proof.
  intros Hex Hlen [Hshort|Hall]; [lia |].
  apply Exists_exists in Hex as (e & He & Hne).
  rewrite Forall_forall in Hall. by apply Hne, Hall.
Qed.

(** X30. The sort comes before validation and converts the values to
    text: when the source has at least two fields and the value of one of
    them has no string conversion, [Record] throws what that conversion
    throws, validates nothing and leaves the state as it is.  An object
    whose own [toString] is not a function and that has no own [valueOf]
    is such a value: its conversion throws a [TypeError]. *)
Theorem Record_throws_what_the_sort_throws v st :
  capable (host st) = true → isObject v = true →
  2 ≤ List.length (source_entries st v) →
  Exists (λ e, ¬ converts (host st) (heap st) e) (source_entries st v) →
  (∃ x c, c ∈ source_entries st v
          ∧ join_element (host st) (heap st) c.2 = inl x
          ∧ Record v st = (inl x, st))
  ∧ (∀ a method,
       own_property (heap st) a "toString" = Some method →
       (∀ source, method ≠ VFunction source) →
       own_property (heap st) a "valueOf" = None →
       join_element (host st) (heap st) (VObject a)
       = inl (TypeError "Cannot convert object to primitive value")).
Proof.
  intros Hcap Hobj Hlen Hex. split.
  - apply Record_unsortable; [done | done |]. by apply not_converts_exists.
  - intros a method Hown Hfun Hvalue. simpl. unfold OrdinaryToPrimitive.
    rewrite Hown, Hvalue. destruct method; simpl; try done. by destruct (Hfun source).
Qed.

Lemma Record_throws_what_the_sort_throws_witness :
  let st := run [NewObject [("toString", VNumber 1)];
                 NewObject [("a", VObject 0); ("b", VNumber 1)]] (init full_host) in
  Record (VObject 1) st
  = (inl (TypeError "Cannot convert object to primitive value"), st).
Proof.
  intros st.
  destruct (Record_throws_what_the_sort_throws (VObject 1) st) as [Hthrow Hconv].
  - reflexivity.
  - reflexivity.
  - vm_compute. lia.
  - apply Exists_cons_hd. intros [t Ht]. vm_compute in Ht. discriminate.
  - destruct Hthrow as (x & c & Hc & Hx & Hcall). rewrite Hcall.
    assert (Hfirst : (Record (VObject 1) st).1 = inl x) by (by rewrite Hcall).
    vm_compute in Hfirst. injection Hfirst as <-. reflexivity.
Defined.
